(** * doodle-do: the rendering and history core of [src/App.tsx]

    A shallow embedding of the [DrawingCanvas] component: the Bresenham
    rasteriser ([plotLine], [plotLineLow], [plotLineHigh]), the stroke
    history ([handleUndo], [handleRedo], [handleClear], [handlePointerUp]),
    the pointer handlers and the WebGL replay ([redrawCanvas], [drawLine]).

    Conventions of the embedding.
    - [plotLine] is called on the results of [Math.round], so its
      arithmetic is integer arithmetic; it is modelled over [Z].  A JS
      number represents integers exactly up to 2^53, and [Math_round] below
      only hands over coordinates of magnitude at most 2^50, for which every
      intermediate value of the rasteriser stays exact.
    - Every other number (coordinates, sizes, opacities, colour channels) is
      an IEEE-754 binary64 value, modelled by the kernel's primitive floats.
    - [currentStrokeIndex] is an integer-valued index, modelled in [Z].
    - React state and refs are the fields of one record [State]; a handler
      is a function on it, closed over the state of the render it runs in.
      The effect that calls [redrawCanvas] when [strokes] or
      [currentStrokeIndex] change is part of [dispatch].
    - The GL context is a record of the blend function, the [u_color] and
      [u_alpha] uniforms, the clear colour and the colour buffer; a circle
      fan is recorded by its centre and radius and by the draw state it was
      composited with.  The [u_resolution] uniform, the shaders and the rim
      vertices of a fan are left out.
    - A function that rasterises returns an [option]: [None] stands for a
      coordinate that is NaN, infinite or beyond 2^50, where the JS loops of
      [plotLine] are not integer loops any more.  The zero that [Math.round]
      returns for a value in [-0.5, 0) is not told apart from [+0]. *)

From Stdlib Require Import ZArith List Lia Bool String Ascii.
From Stdlib Require Import Floats.PrimFloat Floats.SpecFloat Floats.FloatOps.
From Stdlib Require Import Numbers.Cyclic.Int63.Uint63.
From Equations Require Import Equations.
Import ListNotations.

Local Open Scope Z_scope.

(* ===================================================================== *)
(** ** Points *)

(** [interface Point { x: number; y: number }], over the number type [N]:
    [Point Z] for rasterised pixels, [Point float] for pointer samples. *)
Record Point (N : Type) : Type := mkPoint { x : N; y : N }.
Arguments mkPoint {N} _ _.
Arguments x {N} _.
Arguments y {N} _.

(* ===================================================================== *)
(** ** Line rasteriser *)

Module Rasterizer.

(** The [for (let x = x0; x <= x1; x++)] loop of [plotLineLow]: [cx] is the
    loop variable, [cy] and [D] the two mutable locals, [points] the array
    being pushed to. *)
Equations plotLineLow_loop (cx x1 cy yi dy dx D : Z) (points : list (Point Z))
  : list (Point Z) by wf (Z.to_nat (x1 + 1 - cx)) lt :=
  plotLineLow_loop cx x1 cy yi dy dx D points with Z_le_dec cx x1 := {
    | left _ =>
        if D >? 0
        then plotLineLow_loop (cx + 1) x1 (cy + yi) yi dy dx
               (D + 2 * (dy - dx)) (points ++ [mkPoint cx cy])
        else plotLineLow_loop (cx + 1) x1 cy yi dy dx
               (D + 2 * dy) (points ++ [mkPoint cx cy])
    | right _ => points }.
Next Obligation. lia. Qed.
Next Obligation. lia. Qed.

Definition plotLineLow (x0 y0 x1 y1 : Z) (points : list (Point Z))
  : list (Point Z) :=
  let dx := x1 - x0 in
  let dy := y1 - y0 in
  let yi := 1 in
  let '(yi, dy) := if dy <? 0 then (-1, - dy) else (yi, dy) in
  let D := 2 * dy - dx in
  let cy := y0 in
  plotLineLow_loop x0 x1 cy yi dy dx D points.

(** The [for (let y = y0; y <= y1; y++)] loop of [plotLineHigh]. *)
Equations plotLineHigh_loop (cy y1 cx xi dx dy D : Z) (points : list (Point Z))
  : list (Point Z) by wf (Z.to_nat (y1 + 1 - cy)) lt :=
  plotLineHigh_loop cy y1 cx xi dx dy D points with Z_le_dec cy y1 := {
    | left _ =>
        if D >? 0
        then plotLineHigh_loop (cy + 1) y1 (cx + xi) xi dx dy
               (D + 2 * (dx - dy)) (points ++ [mkPoint cx cy])
        else plotLineHigh_loop (cy + 1) y1 cx xi dx dy
               (D + 2 * dx) (points ++ [mkPoint cx cy])
    | right _ => points }.
Next Obligation. lia. Qed.
Next Obligation. lia. Qed.

Definition plotLineHigh (x0 y0 x1 y1 : Z) (points : list (Point Z))
  : list (Point Z) :=
  let dx := x1 - x0 in
  let dy := y1 - y0 in
  let xi := 1 in
  let '(xi, dx) := if dx <? 0 then (-1, - dx) else (xi, dx) in
  let D := 2 * dx - dy in
  let cx := x0 in
  plotLineHigh_loop y0 y1 cx xi dx dy D points.

Definition plotLine (x0 y0 x1 y1 : Z) : list (Point Z) :=
  let points := [] in
  if Z.abs (y1 - y0) <? Z.abs (x1 - x0) then
    if x0 >? x1 then plotLineLow x1 y1 x0 y0 points
    else plotLineLow x0 y0 x1 y1 points
  else
    if y0 >? y1 then plotLineHigh x1 y1 x0 y0 points
    else plotLineHigh x0 y0 x1 y1 points.

(** Chebyshev distance and 8-connectedness of a pixel sequence. *)
Definition chebyshev (p q : Point Z) : Z :=
  Z.max (Z.abs (x q - x p)) (Z.abs (y q - y p)).

Fixpoint connected8 (l : list (Point Z)) : Prop :=
  match l with
  | p :: (q :: _) as tl => chebyshev p q <= 1 /\ connected8 tl
  | _ => True
  end.

(** First and last element of a sequence, [None] on the empty one. *)
Definition first_point (l : list (Point Z)) : option (Point Z) := hd_error l.

Fixpoint last_point (l : list (Point Z)) : option (Point Z) :=
  match l with
  | [] => None
  | [p] => Some p
  | _ :: tl => last_point tl
  end.

Definition swap_xy (p : Point Z) : Point Z := mkPoint (y p) (x p).

End Rasterizer.

(* ===================================================================== *)
(** ** JavaScript built-ins used by the component *)

Module JS.

(** [Array.prototype.slice(start, end)]: a negative bound counts from the
    end of the array, and both bounds are clamped to [0, length]. *)
Definition slice {A : Type} (l : list A) (start end_ : Z) : list A :=
  let len := Z.of_nat (List.length l) in
  let k := if start <? 0 then Z.max (len + start) 0 else Z.min start len in
  let final := if end_ <? 0 then Z.max (len + end_) 0 else Z.min end_ len in
  firstn (Z.to_nat (final - k)) (skipn (Z.to_nat k) l).

(** Largest coordinate magnitude handed to the integer rasteriser. *)
Definition MAX_COORD : Z := 2 ^ 50.

(** [Math.round]: the integer closest to [v], ties towards +infinity, that
    is [floor (v + 1/2)] computed exactly on the value [m * 2^e].  [None]
    when [v] is NaN or infinite, or when the result leaves the range in
    which [plotLine] is integer arithmetic (there the JS loops need not
    terminate). *)
Definition Math_round (v : float) : option Z :=
  match Prim2SF v with
  | S754_zero _ => Some 0
  | S754_finite s m e =>
      let sm := if s then Z.neg m else Z.pos m in
      let r := if 0 <=? e then sm * 2 ^ e
               else (2 * sm + 2 ^ (- e)) / 2 ^ (1 - e) in
      if Z.abs r <=? MAX_COORD then Some r else None
  | S754_infinity _ => None
  | S754_nan => None
  end.

(** An integer of magnitude below 2^63 as a JS number (exact below 2^53). *)
Definition number_of_Z (z : Z) : float :=
  match z with
  | Z0 => 0%float
  | Zpos _ => of_uint63 (Uint63.of_Z z)
  | Zneg p => PrimFloat.opp (of_uint63 (Uint63.of_Z (Zpos p)))
  end.

(** One character of the class [[a-f\d]] under the [i] flag. *)
Definition hexDigit (c : ascii) : option Z :=
  let n := Z.of_N (N_of_ascii c) in
  if (48 <=? n) && (n <=? 57) then Some (n - 48)
  else if (97 <=? n) && (n <=? 102) then Some (n - 87)
  else if (65 <=? n) && (n <=? 70) then Some (n - 55)
  else None.

(** [parseInt(group, 16)] of a two-character group [([a-f\d]{2})]. *)
Definition hexPair (a b : ascii) : option Z :=
  match hexDigit a, hexDigit b with
  | Some h, Some l => Some (16 * h + l)
  | _, _ => None
  end.

End JS.

(* ===================================================================== *)
(** ** The WebGL context, as far as the component drives it *)

Module GL.

Inductive BlendFactor : Type := ZERO | ONE | SRC_ALPHA | ONE_MINUS_SRC_ALPHA.

Definition RGB : Type := (float * float * float)%type.
Definition RGBA : Type := (float * float * float * float)%type.

(** One [gl.drawArrays(gl.TRIANGLE_FAN, ...)] of the fan that
    [drawStrokeCircle] / [drawCircle] build around [center] with rim radius
    [radius], recorded with the blend function and the [u_color] / [u_alpha]
    uniforms in force when it is issued.  The rim vertices themselves
    ([Math.cos], [Math.sin]) are not part of the model. *)
Record Stamp : Type := mkStamp {
  stamp_center : Point float;
  stamp_radius : float;
  stamp_blend : BlendFactor * BlendFactor;
  stamp_color : RGB;
  stamp_alpha : float
}.

(** The colour buffer: what it was last cleared to, and the stamps
    composited onto it since, oldest first. *)
Record Framebuffer : Type := mkFramebuffer {
  background : RGBA;
  stamps : list Stamp
}.

Record Context : Type := mkContext {
  blend : BlendFactor * BlendFactor;
  u_color : RGB;
  u_alpha : float;
  clear_color : RGBA;
  framebuffer : Framebuffer
}.

(** A context as [canvas.getContext("webgl2")] returns it. *)
Definition fresh : Context :=
  mkContext (ONE, ZERO) (0, 0, 0)%float 0%float (0, 0, 0, 0)%float
            (mkFramebuffer (0, 0, 0, 0)%float []).

Definition blendFunc (s d : BlendFactor) (gl : Context) : Context :=
  mkContext (s, d) (u_color gl) (u_alpha gl) (clear_color gl) (framebuffer gl).

Definition uniform3f (r g b : float) (gl : Context) : Context :=
  mkContext (blend gl) (r, g, b) (u_alpha gl) (clear_color gl) (framebuffer gl).

Definition uniform1f (a : float) (gl : Context) : Context :=
  mkContext (blend gl) (u_color gl) a (clear_color gl) (framebuffer gl).

Definition clearColor (r g b a : float) (gl : Context) : Context :=
  mkContext (blend gl) (u_color gl) (u_alpha gl) (r, g, b, a) (framebuffer gl).

(** [gl.clear(gl.COLOR_BUFFER_BIT)]. *)
Definition clear (gl : Context) : Context :=
  mkContext (blend gl) (u_color gl) (u_alpha gl) (clear_color gl)
            (mkFramebuffer (clear_color gl) []).

(** [bindBuffer; bufferData; drawArrays(TRIANGLE_FAN)] of one circle fan. *)
Definition drawFan (center : Point float) (radius : float) (gl : Context)
  : Context :=
  mkContext (blend gl) (u_color gl) (u_alpha gl) (clear_color gl)
    (mkFramebuffer (background (framebuffer gl))
       (stamps (framebuffer gl)
          ++ [mkStamp center radius (blend gl) (u_color gl) (u_alpha gl)])).

End GL.

(* ===================================================================== *)
(** ** The [DrawingCanvas] component *)

Module App.

Import Rasterizer JS.

(** [type Tool = "pen" | "highlighter" | "eraser"]. *)
Inductive Tool : Type := pen | highlighter | eraser.

Definition Tool_eqb (a b : Tool) : bool :=
  match a, b with
  | pen, pen | highlighter, highlighter | eraser, eraser => true
  | _, _ => false
  end.

(** [interface Stroke]. *)
Record Stroke : Type := mkStroke {
  points : list (Point float);
  color : string;
  tool : Tool;
  lineWidth : float;
  opacity : float
}.

(** What a handler reads of a pointer event, and of the canvas rectangle
    ([canvasRef.current?.getBoundingClientRect()], [None] when the canvas
    is not mounted). *)
Record PointerEvent : Type := mkPointerEvent { clientX : float; clientY : float }.
Record DOMRect : Type := mkDOMRect { left : float; top : float }.

(** The [useState] cells and the [useRef] cells of the component.  The four
    booleans say whether the corresponding GL object ref is non-null. *)
Record State : Type := mkState {
  selectedTool : Tool;
  selectedColor : string;
  size : float;
  penOpacity : float;
  highlighterOpacity : float;
  strokes : list Stroke;
  currentStrokeIndex : Z;
  glRef : option GL.Context;
  programRef : bool;
  positionBufferRef : bool;
  colorLocationRef : bool;
  alphaLocationRef : bool;
  isDrawingRef : bool;
  lastPointRef : Point float;
  pixelRatioRef : float;
  currentStrokeRef : list (Point float)
}.

(** The values the hooks are created with. *)
Definition initialState : State :=
  mkState pen "#000000" 5%float 100%float 10%float [] (-1)
          None false false false false
          false (mkPoint 0%float 0%float) 1%float [].

Definition setSelectedTool (t : Tool) (st : State) : State :=
  mkState t (selectedColor st) (size st) (penOpacity st)
    (highlighterOpacity st) (strokes st) (currentStrokeIndex st) (glRef st)
    (programRef st) (positionBufferRef st) (colorLocationRef st)
    (alphaLocationRef st) (isDrawingRef st) (lastPointRef st)
    (pixelRatioRef st) (currentStrokeRef st).

Definition setSelectedColor (c : string) (st : State) : State :=
  mkState (selectedTool st) c (size st) (penOpacity st)
    (highlighterOpacity st) (strokes st) (currentStrokeIndex st) (glRef st)
    (programRef st) (positionBufferRef st) (colorLocationRef st)
    (alphaLocationRef st) (isDrawingRef st) (lastPointRef st)
    (pixelRatioRef st) (currentStrokeRef st).

Definition setSize (n : float) (st : State) : State :=
  mkState (selectedTool st) (selectedColor st) n (penOpacity st)
    (highlighterOpacity st) (strokes st) (currentStrokeIndex st) (glRef st)
    (programRef st) (positionBufferRef st) (colorLocationRef st)
    (alphaLocationRef st) (isDrawingRef st) (lastPointRef st)
    (pixelRatioRef st) (currentStrokeRef st).

Definition setPenOpacity (o : float) (st : State) : State :=
  mkState (selectedTool st) (selectedColor st) (size st) o
    (highlighterOpacity st) (strokes st) (currentStrokeIndex st) (glRef st)
    (programRef st) (positionBufferRef st) (colorLocationRef st)
    (alphaLocationRef st) (isDrawingRef st) (lastPointRef st)
    (pixelRatioRef st) (currentStrokeRef st).

Definition setHighlighterOpacity (o : float) (st : State) : State :=
  mkState (selectedTool st) (selectedColor st) (size st) (penOpacity st)
    o (strokes st) (currentStrokeIndex st) (glRef st)
    (programRef st) (positionBufferRef st) (colorLocationRef st)
    (alphaLocationRef st) (isDrawingRef st) (lastPointRef st)
    (pixelRatioRef st) (currentStrokeRef st).

Definition setStrokes (l : list Stroke) (st : State) : State :=
  mkState (selectedTool st) (selectedColor st) (size st) (penOpacity st)
    (highlighterOpacity st) l (currentStrokeIndex st) (glRef st)
    (programRef st) (positionBufferRef st) (colorLocationRef st)
    (alphaLocationRef st) (isDrawingRef st) (lastPointRef st)
    (pixelRatioRef st) (currentStrokeRef st).

Definition setCurrentStrokeIndex (i : Z) (st : State) : State :=
  mkState (selectedTool st) (selectedColor st) (size st) (penOpacity st)
    (highlighterOpacity st) (strokes st) i (glRef st)
    (programRef st) (positionBufferRef st) (colorLocationRef st)
    (alphaLocationRef st) (isDrawingRef st) (lastPointRef st)
    (pixelRatioRef st) (currentStrokeRef st).

(** Assignments to [ref.current]. *)
Definition set_glRef (gl : option GL.Context) (st : State) : State :=
  mkState (selectedTool st) (selectedColor st) (size st) (penOpacity st)
    (highlighterOpacity st) (strokes st) (currentStrokeIndex st) gl
    (programRef st) (positionBufferRef st) (colorLocationRef st)
    (alphaLocationRef st) (isDrawingRef st) (lastPointRef st)
    (pixelRatioRef st) (currentStrokeRef st).

Definition set_glObjects (prog buf col alp : bool) (st : State) : State :=
  mkState (selectedTool st) (selectedColor st) (size st) (penOpacity st)
    (highlighterOpacity st) (strokes st) (currentStrokeIndex st) (glRef st)
    prog buf col alp (isDrawingRef st) (lastPointRef st)
    (pixelRatioRef st) (currentStrokeRef st).

Definition set_isDrawingRef (b : bool) (st : State) : State :=
  mkState (selectedTool st) (selectedColor st) (size st) (penOpacity st)
    (highlighterOpacity st) (strokes st) (currentStrokeIndex st) (glRef st)
    (programRef st) (positionBufferRef st) (colorLocationRef st)
    (alphaLocationRef st) b (lastPointRef st)
    (pixelRatioRef st) (currentStrokeRef st).

Definition set_lastPointRef (p : Point float) (st : State) : State :=
  mkState (selectedTool st) (selectedColor st) (size st) (penOpacity st)
    (highlighterOpacity st) (strokes st) (currentStrokeIndex st) (glRef st)
    (programRef st) (positionBufferRef st) (colorLocationRef st)
    (alphaLocationRef st) (isDrawingRef st) p
    (pixelRatioRef st) (currentStrokeRef st).

Definition set_pixelRatioRef (r : float) (st : State) : State :=
  mkState (selectedTool st) (selectedColor st) (size st) (penOpacity st)
    (highlighterOpacity st) (strokes st) (currentStrokeIndex st) (glRef st)
    (programRef st) (positionBufferRef st) (colorLocationRef st)
    (alphaLocationRef st) (isDrawingRef st) (lastPointRef st)
    r (currentStrokeRef st).

Definition set_currentStrokeRef (l : list (Point float)) (st : State) : State :=
  mkState (selectedTool st) (selectedColor st) (size st) (penOpacity st)
    (highlighterOpacity st) (strokes st) (currentStrokeIndex st) (glRef st)
    (programRef st) (positionBufferRef st) (colorLocationRef st)
    (alphaLocationRef st) (isDrawingRef st) (lastPointRef st)
    (pixelRatioRef st) l.

(** A GL call on [glRef.current]; the callers have checked it is non-null. *)
Definition onGL (f : GL.Context -> GL.Context) (st : State) : State :=
  match glRef st with
  | Some gl => set_glRef (Some (f gl)) st
  | None => st
  end.

(** [hexToRgb]: the regular expression [/^#?([a-f\d]{2})([a-f\d]{2})([a-f\d]{2})$/i],
    each group parsed in base 16 and divided by 255; black when the string
    does not match. *)
Definition hexToRgb (hex : string) : GL.RGB :=
  let body := match hex with
              | String "#" rest => rest
              | _ => hex
              end in
  let result :=
    match body with
    | String a (String b (String c (String d (String e (String f EmptyString))))) =>
        match hexPair a b, hexPair c d, hexPair e f with
        | Some r, Some g, Some b => Some (r, g, b)
        | _, _, _ => None
        end
    | _ => None
    end in
  match result with
  | Some (r, g, b) =>
      (number_of_Z r / 255, number_of_Z g / 255, number_of_Z b / 255)%float
  | None => (0, 0, 0)%float
  end.

(** [drawStrokeCircle] (used by the replay) and [drawCircle] (used by the
    live drawing): the same body in the source. *)
Definition drawStrokeCircle (center : Point float) (radius : float) (st : State)
  : State :=
  if negb (match glRef st with Some _ => true | None => false end)
     || negb (programRef st) || negb (positionBufferRef st)
  then st
  else onGL (GL.drawFan center radius) st.

Definition drawCircle (center : Point float) (radius : float) (st : State)
  : State :=
  if negb (match glRef st with Some _ => true | None => false end)
     || negb (programRef st) || negb (positionBufferRef st)
  then st
  else onGL (GL.drawFan center radius) st.

(** [plotLine(Math.round(from.x), Math.round(from.y), Math.round(to.x),
    Math.round(to.y))], the pixels turned back into points of the canvas. *)
Definition bresenhamPoints (from to : Point float) : option (list (Point float)) :=
  match Math_round (x from), Math_round (y from),
        Math_round (x to), Math_round (y to) with
  | Some fx, Some fy, Some tx, Some ty =>
      Some (map (fun p => mkPoint (number_of_Z (x p)) (number_of_Z (y p)))
                (plotLine fx fy tx ty))
  | _, _, _, _ => None
  end.

(** The highlighter's fixed factor, the JS literal [0.1]. *)
Definition tenth : float := 0x1.999999999999ap-4%float.

(** The [for (let i = 1; i < stroke.points.length; i++)] loop of
    [redrawCanvas]: [pts] is the suffix of the points from index [i - 1]. *)
Fixpoint replaySegments (pts : list (Point float)) (lineWidth : float)
    (st : State) : option State :=
  match pts with
  | from :: ((to :: _) as rest) =>
      match bresenhamPoints from to with
      | Some bp =>
          replaySegments rest lineWidth
            (fold_left (fun s point => drawStrokeCircle point (lineWidth / 2)%float s)
                       bp st)
      | None => None
      end
  | _ => Some st
  end.

(** The callback of [activeStrokes.forEach] in [redrawCanvas]. *)
Definition replayStroke (stroke : Stroke) (st : State) : option State :=
  if (List.length (points stroke) =? 0)%nat then Some st
  else
    let st :=
      match tool stroke with
      | eraser =>
          onGL (GL.uniform1f 1%float)
            (onGL (GL.uniform3f 1%float 1%float 1%float)
               (onGL (GL.blendFunc GL.SRC_ALPHA GL.ONE_MINUS_SRC_ALPHA) st))
      | highlighter =>
          let st := onGL (GL.blendFunc GL.ONE GL.ONE_MINUS_SRC_ALPHA) st in
          let '(r, g, b) := hexToRgb (color stroke) in
          let alpha := (opacity stroke / 100 * tenth)%float in
          onGL (GL.uniform1f alpha)
            (onGL (GL.uniform3f (r * alpha) (g * alpha) (b * alpha))%float st)
      | pen =>
          let st := onGL (GL.blendFunc GL.SRC_ALPHA GL.ONE_MINUS_SRC_ALPHA) st in
          let '(r, g, b) := hexToRgb (color stroke) in
          onGL (GL.uniform1f (opacity stroke / 100)%float)
            (onGL (GL.uniform3f r g b) st)
      end in
    let lineWidth := (lineWidth stroke * pixelRatioRef st)%float in
    match points stroke with
    | [p] => Some (drawStrokeCircle p (lineWidth / 2)%float st)
    | pts => replaySegments pts lineWidth st
    end.

(** [activeStrokes.forEach(...)]. *)
Fixpoint forEachStroke (l : list Stroke) (st : State) : option State :=
  match l with
  | [] => Some st
  | stroke :: tl =>
      match replayStroke stroke st with
      | Some st' => forEachStroke tl st'
      | None => None
      end
  end.

Definition redrawCanvas (st : State) : option State :=
  match glRef st with
  | None => Some st
  | Some _ =>
      if negb (colorLocationRef st) || negb (alphaLocationRef st) then Some st
      else
        let st := onGL (GL.clearColor 1%float 1%float 1%float 1%float) st in
        let st := onGL GL.clear st in
        let activeStrokes := slice (strokes st) 0 (currentStrokeIndex st + 1) in
        forEachStroke activeStrokes st
  end.

Definition handleUndo (st : State) : State :=
  if currentStrokeIndex st >=? 0
  then setCurrentStrokeIndex (currentStrokeIndex st - 1) st
  else st.

Definition handleRedo (st : State) : State :=
  if currentStrokeIndex st <? Z.of_nat (List.length (strokes st)) - 1
  then setCurrentStrokeIndex (currentStrokeIndex st + 1) st
  else st.

Definition handleClear (st : State) : State :=
  let st := setStrokes [] st in
  let st := setCurrentStrokeIndex (-1) st in
  match glRef st with
  | None => st
  | Some _ =>
      onGL GL.clear (onGL (GL.clearColor 1%float 1%float 1%float 1%float) st)
  end.

Definition drawLine (from to : Point float) (st : State) : option State :=
  if negb (match glRef st with Some _ => true | None => false end)
     || negb (programRef st) || negb (positionBufferRef st)
     || negb (colorLocationRef st) || negb (alphaLocationRef st)
  then Some st
  else
    let lineWidth := (size st * pixelRatioRef st)%float in
    let st :=
      match selectedTool st with
      | eraser =>
          onGL (GL.uniform1f 1%float)
            (onGL (GL.uniform3f 1%float 1%float 1%float)
               (onGL (GL.blendFunc GL.SRC_ALPHA GL.ONE_MINUS_SRC_ALPHA) st))
      | highlighter =>
          let st := onGL (GL.blendFunc GL.ONE GL.ONE_MINUS_SRC_ALPHA) st in
          let '(r, g, b) := hexToRgb (selectedColor st) in
          let alpha := (highlighterOpacity st / 100 * tenth)%float in
          onGL (GL.uniform1f alpha)
            (onGL (GL.uniform3f (r * alpha) (g * alpha) (b * alpha))%float st)
      | pen =>
          let st := onGL (GL.blendFunc GL.SRC_ALPHA GL.ONE_MINUS_SRC_ALPHA) st in
          let '(r, g, b) := hexToRgb (selectedColor st) in
          onGL (GL.uniform1f (penOpacity st / 100)%float)
            (onGL (GL.uniform3f r g b) st)
      end in
    match bresenhamPoints from to with
    | Some bp =>
        Some (fold_left (fun s point => drawCircle point (lineWidth / 2)%float s)
                        bp st)
    | None => None
    end.

Definition handlePointerDown (rect : option DOMRect) (e : PointerEvent)
    (st : State) : State :=
  let st := set_isDrawingRef true st in
  match rect with
  | None => st
  | Some rect =>
      let px := ((clientX e - left rect) * pixelRatioRef st)%float in
      let py := ((clientY e - top rect) * pixelRatioRef st)%float in
      let st := set_lastPointRef (mkPoint px py) st in
      set_currentStrokeRef [mkPoint px py] st
  end.

Definition handlePointerMove (rect : option DOMRect) (e : PointerEvent)
    (st : State) : option State :=
  if negb (isDrawingRef st) then Some st
  else
    match rect with
    | None => Some st
    | Some rect =>
        let px := ((clientX e - left rect) * pixelRatioRef st)%float in
        let py := ((clientY e - top rect) * pixelRatioRef st)%float in
        match drawLine (lastPointRef st) (mkPoint px py) st with
        | Some st =>
            let st := set_lastPointRef (mkPoint px py) st in
            Some (set_currentStrokeRef (currentStrokeRef st ++ [mkPoint px py]) st)
        | None => None
        end
    end.

(** The [newStroke] object literal of [handlePointerUp]. *)
Definition newStroke (st : State) : Stroke :=
  mkStroke (currentStrokeRef st)
    (if Tool_eqb (selectedTool st) eraser then "#FFFFFF" else selectedColor st)
    (selectedTool st)
    (size st)
    (if Tool_eqb (selectedTool st) pen then penOpacity st
     else if Tool_eqb (selectedTool st) highlighter then highlighterOpacity st
     else 100%float).

Definition handlePointerUp (st : State) : State :=
  let st0 := st in
  let st := set_isDrawingRef false st in
  if (0 <? List.length (currentStrokeRef st))%nat then
    let newStrokes :=
      slice (strokes st0) 0 (currentStrokeIndex st0 + 1) ++ [newStroke st0] in
    let st := setStrokes newStrokes st in
    let st := setCurrentStrokeIndex (Z.of_nat (List.length newStrokes) - 1) st in
    set_currentStrokeRef [] st
  else st.

Definition handleOpacityChange (o : float) (st : State) : State :=
  match selectedTool st with
  | pen => setPenOpacity o st
  | highlighter => setHighlighterOpacity o st
  | eraser => st
  end.

(** [resizeCanvas], defined inside the mount effect (dependency list [[]]),
    so the [selectedColor] it reads is the one of the first render. *)
Definition resizeCanvas (devicePixelRatio : float) (st : State) : State :=
  let pixelRatio :=
    if (devicePixelRatio =? 0)%float || is_nan devicePixelRatio
    then 1%float else devicePixelRatio in
  let st := set_pixelRatioRef pixelRatio st in
  let st :=
    if colorLocationRef st then
      let '(r, g, b) := hexToRgb (selectedColor initialState) in
      onGL (GL.uniform3f r g b) st
    else st in
  let st := if alphaLocationRef st then onGL (GL.uniform1f 1%float) st else st in
  onGL GL.clear (onGL (GL.clearColor 1%float 1%float 1%float 1%float) st).

(** The mount effect when the context, both shaders, the program, the
    buffer and the uniform locations are all obtained. *)
Definition mountEffect (devicePixelRatio : float) (st : State) : State :=
  let st := set_glRef (Some GL.fresh) st in
  let st := set_glObjects true true true true st in
  let st := onGL (GL.blendFunc GL.SRC_ALPHA GL.ONE_MINUS_SRC_ALPHA) st in
  resizeCanvas devicePixelRatio st.

(** The effect with dependencies [[currentStrokeIndex, strokes]]. *)
Definition redrawEffect (st : State) : option State :=
  if (match glRef st with Some _ => true | None => false end)
     && colorLocationRef st
  then redrawCanvas st
  else Some st.

(** What the canvas and the toolbar can deliver to the component. *)
Inductive Event : Type :=
| PointerDown (rect : option DOMRect) (e : PointerEvent)
| PointerMove (rect : option DOMRect) (e : PointerEvent)
| PointerUp
| PointerLeave
| Undo
| Redo
| Clear
| ToolChange (t : Tool)
| ColorChange (c : string)
| SizeChange (n : float)
| OpacityChange (o : float).

(** One event: its handler, then the redraw effect when the handler gave
    [strokes] a new array or [currentStrokeIndex] a new value.  [None] when
    a rasterisation met a coordinate that [Math_round] refuses. *)
Definition dispatch (ev : Event) (st : State) : option State :=
  match ev with
  | PointerDown rect e => Some (handlePointerDown rect e st)
  | PointerMove rect e => handlePointerMove rect e st
  | PointerUp | PointerLeave =>
      if (0 <? List.length (currentStrokeRef st))%nat
      then redrawEffect (handlePointerUp st)
      else Some (handlePointerUp st)
  | Undo =>
      if currentStrokeIndex (handleUndo st) =? currentStrokeIndex st
      then Some (handleUndo st)
      else redrawEffect (handleUndo st)
  | Redo =>
      if currentStrokeIndex (handleRedo st) =? currentStrokeIndex st
      then Some (handleRedo st)
      else redrawEffect (handleRedo st)
  | Clear => redrawEffect (handleClear st)
  | ToolChange t => Some (setSelectedTool t st)
  | ColorChange c => Some (setSelectedColor c st)
  | SizeChange n => Some (setSize n st)
  | OpacityChange o => Some (handleOpacityChange o st)
  end.

(** The states after each event of a sequence, in order. *)
Fixpoint trace (evs : list Event) (st : State) : option (list State) :=
  match evs with
  | [] => Some []
  | ev :: tl =>
      match dispatch ev st with
      | Some st' =>
          match trace tl st' with
          | Some sts => Some (st' :: sts)
          | None => None
          end
      | None => None
      end
  end.

(** The state after the whole sequence. *)
Fixpoint run (evs : list Event) (st : State) : option State :=
  match evs with
  | [] => Some st
  | ev :: tl =>
      match dispatch ev st with
      | Some st' => run tl st'
      | None => None
      end
  end.

End App.

(* ===================================================================== *)
(** ** The specification's vocabulary *)

Module Spec.

Import App.

(** The History of the specification: [entries] is [strokes], and
    [activeCount] is [currentStrokeIndex + 1]. *)
Definition entries (st : State) : list Stroke := strokes st.
Definition activeCount (st : State) : Z := currentStrokeIndex st + 1.

(** [0 <= activeCount <= entries.length]. *)
Definition history_inv (st : State) : Prop :=
  0 <= activeCount st <= Z.of_nat (List.length (entries st)).

(** [activeStrokes()]: the prefix [entries[0 .. activeCount)]. *)
Definition activeStrokes (st : State) : list Stroke :=
  firstn (Z.to_nat (activeCount st)) (entries st).

(** The triple of section 4.3: blend function, draw colour, draw alpha. *)
Record DrawState : Type := mkDrawState {
  ds_blend : GL.BlendFactor * GL.BlendFactor;
  ds_color : GL.RGB;
  ds_alpha : float
}.

(** The derivation of section 4.3, in the specification's words: Pen is
    alpha-over with the stroke colour and alpha [opacity/100]; Highlighter
    is [(one, 1 - src-alpha)] with effective alpha [(opacity/100) * 0.1] and
    each channel multiplied by it; Eraser is alpha-over, white, alpha 1. *)
Definition spec_drawState (t : Tool) (c : string) (o : float) : DrawState :=
  match t with
  | pen =>
      mkDrawState (GL.SRC_ALPHA, GL.ONE_MINUS_SRC_ALPHA) (hexToRgb c)
                  (o / 100)%float
  | highlighter =>
      let a := (o / 100 * tenth)%float in
      let '(r, g, b) := hexToRgb c in
      mkDrawState (GL.ONE, GL.ONE_MINUS_SRC_ALPHA) (r * a, g * a, b * a)%float a
  | eraser =>
      mkDrawState (GL.SRC_ALPHA, GL.ONE_MINUS_SRC_ALPHA) (1, 1, 1)%float 1%float
  end.

(** The draw state a stamp was composited with. *)
Definition stamp_drawState (s : GL.Stamp) : DrawState :=
  mkDrawState (GL.stamp_blend s) (GL.stamp_color s) (GL.stamp_alpha s).

(** The draw state bound in a context. *)
Definition bound_drawState (gl : GL.Context) : DrawState :=
  mkDrawState (GL.blend gl) (GL.u_color gl) (GL.u_alpha gl).

(** The draw state section 4.3 derives from a stroke's own fields. *)
Definition derived_drawState (s : Stroke) : DrawState :=
  spec_drawState (tool s) (color s) (opacity s).

(** [gb] is [ga] after the stamps [new] were composited onto it, every one
    of them under the draw state [ds], which [gb] still has bound. *)
Definition paints (ds : DrawState) (ga gb : GL.Context) (new : list GL.Stamp)
  : Prop :=
  bound_drawState gb = ds
  /\ GL.stamps (GL.framebuffer gb) = GL.stamps (GL.framebuffer ga) ++ new
  /\ Forall (fun s => stamp_drawState s = ds) new.

(** A point both of whose coordinates [Math_round] accepts. *)
Definition roundable (p : Point float) : Prop :=
  JS.Math_round (x p) <> None /\ JS.Math_round (y p) <> None.

(** The opacity the live drawing uses for the selected tool (the eraser has
    none; [handlePointerUp] stores 100 for it). *)
Definition live_opacity (st : State) : float :=
  match selectedTool st with
  | pen => penOpacity st
  | highlighter => highlighterOpacity st
  | eraser => 100%float
  end.

(** Every GL object the drawing functions test for is there. *)
Definition gl_ready (st : State) : Prop :=
  programRef st = true /\ positionBufferRef st = true
  /\ colorLocationRef st = true /\ alphaLocationRef st = true.

(** Two states with the same History. *)
Definition same_history (a b : State) : Prop :=
  strokes a = strokes b /\ currentStrokeIndex a = currentStrokeIndex b.

(** [b] differs from [a] in the GL context at most. *)
Definition only_gl (a b : State) : Prop := b = set_glRef (glRef b) a.

(** The state in which a pointer interaction that accumulated [pts] is
    released. *)
Definition at_release (pts : list (Point float)) (st : State) : State :=
  set_currentStrokeRef pts st.

(** [append(stroke)] of section 4.4: [handlePointerUp] at the end of an
    interaction that accumulated [pts]; the stroke is the [newStroke] built
    there. *)
Definition append (pts : list (Point float)) (st : State) : State :=
  handlePointerUp (at_release pts st).

Definition stroke_of (pts : list (Point float)) (st : State) : Stroke :=
  newStroke (at_release pts st).

(** The centres at which the replay loop stamps for a sequence of points:
    the pixels of each segment between consecutive points, in order. *)
Fixpoint segment_centres (pts : list (Point float))
  : option (list (Point float)) :=
  match pts with
  | from :: ((to :: _) as rest) =>
      match bresenhamPoints from to, segment_centres rest with
      | Some bp, Some tl => Some (bp ++ tl)
      | _, _ => None
      end
  | _ => Some []
  end.

(** The centres at which the replay of a stroke stamps: the point itself
    for a single-point stroke, the pixels of its segments otherwise. *)
Definition stroke_centres (s : Stroke) : option (list (Point float)) :=
  match points s with
  | [p] => Some [p]
  | pts => segment_centres pts
  end.

(** The stamp of radius [radius] centred at [c], composited under [ds]. *)
Definition stamp_under (ds : DrawState) (radius : float) (c : Point float)
  : GL.Stamp :=
  GL.mkStamp c radius (ds_blend ds) (ds_color ds) (ds_alpha ds).

(** The highlighter colour submitted for the colour string [c] at effective
    alpha [a]: each channel multiplied by [a]. *)
Definition premultiplied (c : string) (a : float) : GL.RGB :=
  let '(r, g, b) := hexToRgb c in (r * a, g * a, b * a)%float.

(** [group] is what the replay of [s] composites at pixel ratio [ratio]:
    one stamp per centre of the stroke, in order, of radius
    [lineWidth * ratio / 2], each under the draw state derived from the
    stroke's own fields; at least one when the stroke has a point. *)
Definition replayed_group (ratio : float) (s : Stroke) (group : list GL.Stamp)
  : Prop :=
  exists cs,
    stroke_centres s = Some cs
    /\ (points s <> [] -> cs <> [])
    /\ group = map (stamp_under (derived_drawState s)
                                (lineWidth s * ratio / 2)%float) cs.

(** The four operations of the History Store. *)
Inductive HistoryOp : Type :=
| OpAppend (pts : list (Point float))
| OpUndo
| OpRedo
| OpClear.

Definition apply_op (op : HistoryOp) (st : State) : State :=
  match op with
  | OpAppend pts => append pts st
  | OpUndo => handleUndo st
  | OpRedo => handleRedo st
  | OpClear => handleClear st
  end.

(** The states after each operation of a sequence, in order. *)
Fixpoint states_after (ops : list HistoryOp) (st : State) : list State :=
  match ops with
  | [] => []
  | op :: tl => apply_op op st :: states_after tl (apply_op op st)
  end.

End Spec.

(* ===================================================================== *)
(** ** Concrete states used to instantiate the theorems *)

Module Demo.

Import App.

(** A mounted canvas at device pixel ratio 2 holding a pen stroke of two
    samples, a highlighter tap and an eraser stroke, all three active. *)
Definition three_strokes : list Stroke :=
  [ mkStroke [mkPoint 0%float 0%float; mkPoint 6%float 2%float]
             "#FF3B30" pen 5%float 80%float;
    mkStroke [mkPoint 4%float 4%float] "#FFCC00" highlighter 12%float 100%float;
    mkStroke [mkPoint 1%float 1%float; mkPoint 1%float 3%float]
             "#FFFFFF" eraser 8%float 100%float ].

Definition painted : State :=
  setCurrentStrokeIndex 2 (setStrokes three_strokes (mountEffect 2%float initialState)).

(** A mounted canvas at device pixel ratio 1 on which the highlighter is
    selected at full opacity and a drag has started at the origin. *)
Definition highlighting : State :=
  handlePointerDown (Some (mkDOMRect 0%float 0%float))
    (mkPointerEvent 0%float 0%float)
    (setHighlighterOpacity 100%float
       (setSelectedTool highlighter (mountEffect 1%float initialState))).

End Demo.

(* ===================================================================== *)
(** ** The GL side of the drawing functions *)

(** What each drawing function of the component does to the GL context, as
    a function of the context alone.  The lemmas below show that the
    functions of [App] factor through these; no theorem is stated with
    them. *)
Module Ctx.

Import JS App.

(** The [blendFunc], [uniform3f] and [uniform1f] calls of the tool test. *)
Definition configure (t : Tool) (c : string) (o : float) (gl : GL.Context)
  : GL.Context :=
  match t with
  | eraser =>
      GL.uniform1f 1%float
        (GL.uniform3f 1%float 1%float 1%float
           (GL.blendFunc GL.SRC_ALPHA GL.ONE_MINUS_SRC_ALPHA gl))
  | highlighter =>
      let '(r, g, b) := hexToRgb c in
      let alpha := (o / 100 * tenth)%float in
      GL.uniform1f alpha
        (GL.uniform3f (r * alpha) (g * alpha) (b * alpha)%float
           (GL.blendFunc GL.ONE GL.ONE_MINUS_SRC_ALPHA gl))
  | pen =>
      let '(r, g, b) := hexToRgb c in
      GL.uniform1f (o / 100)%float
        (GL.uniform3f r g b
           (GL.blendFunc GL.SRC_ALPHA GL.ONE_MINUS_SRC_ALPHA gl))
  end.

(** One circle, drawn when the program and the buffer are there. *)
Definition stamp (en : bool) (center : Point float) (radius : float)
    (gl : GL.Context) : GL.Context :=
  if en then GL.drawFan center radius gl else gl.

Definition stamp_all (en : bool) (radius : float) (pts : list (Point float))
    (gl : GL.Context) : GL.Context :=
  fold_left (fun g point => stamp en point radius g) pts gl.

Fixpoint segments (en : bool) (pts : list (Point float)) (lineWidth : float)
    (gl : GL.Context) : option GL.Context :=
  match pts with
  | from :: ((to :: _) as rest) =>
      match bresenhamPoints from to with
      | Some bp => segments en rest lineWidth (stamp_all en (lineWidth / 2)%float bp gl)
      | None => None
      end
  | _ => Some gl
  end.

Definition stroke (en : bool) (ratio : float) (s : Stroke) (gl : GL.Context)
  : option GL.Context :=
  if (List.length (points s) =? 0)%nat then Some gl
  else
    let gl := configure (tool s) (color s) (opacity s) gl in
    let lineWidth := (lineWidth s * ratio)%float in
    match points s with
    | [p] => Some (stamp en p (lineWidth / 2)%float gl)
    | pts => segments en pts lineWidth gl
    end.

Fixpoint strokes (en : bool) (ratio : float) (l : list Stroke) (gl : GL.Context)
  : option GL.Context :=
  match l with
  | [] => Some gl
  | s :: tl =>
      match stroke en ratio s gl with
      | Some gl' => strokes en ratio tl gl'
      | None => None
      end
  end.

Definition line (en : bool) (ratio : float) (t : Tool) (c : string) (o : float)
    (size : float) (from to : Point float) (gl : GL.Context)
  : option GL.Context :=
  let gl := configure t c o gl in
  match bresenhamPoints from to with
  | Some bp => Some (stamp_all en (size * ratio / 2)%float bp gl)
  | None => None
  end.

(** Two contexts with the same clear colour and the same colour buffer. *)
Definition same_buffer (a b : GL.Context) : Prop :=
  GL.clear_color a = GL.clear_color b /\ GL.framebuffer a = GL.framebuffer b.

End Ctx.

(* ===================================================================== *)
(** ** Gestures *)

Module Gesture.

Import App.

(** The canvas point a handler computes from a pointer event. *)
Definition canvasPoint (rect : DOMRect) (ratio : float) (e : PointerEvent)
  : Point float :=
  mkPoint ((clientX e - left rect) * ratio)%float
          ((clientY e - top rect) * ratio)%float.

(** A pointer-down followed by pointer-moves, all over the mounted canvas. *)
Definition drag (rect : DOMRect) (e0 : PointerEvent) (es : list PointerEvent)
  : list Event :=
  PointerDown (Some rect) e0 :: map (PointerMove (Some rect)) es.

(** The events the toolbar's tool, colour, size and opacity controls send. *)
Definition toolbar_event (ev : Event) : bool :=
  match ev with
  | ToolChange _ | ColorChange _ | SizeChange _ | OpacityChange _ => true
  | _ => false
  end.

(** [b] differs from [a] in the GL context, the last point and the
    in-progress buffer at most. *)
Definition drawing_frame (a b : State) : Prop :=
  b = set_currentStrokeRef (currentStrokeRef b)
        (set_lastPointRef (lastPointRef b) (set_glRef (glRef b) a)).

End Gesture.

(* ===================================================================== *)
(** ** Colour strings *)

Module Colour.

(** A colour string without its optional leading [#]. *)
Definition strip_hash (hex : string) : string :=
  match hex with
  | String a rest => if Ascii.eqb a "#" then rest else hex
  | EmptyString => hex
  end.

(** [String.prototype.toUpperCase] on an ASCII character. *)
Definition upper (c : ascii) : ascii :=
  let n := N_of_ascii c in
  if (97 <=? n)%N && (n <=? 122)%N then ascii_of_N (n - 32) else c.

Fixpoint upper_string (s : string) : string :=
  match s with
  | EmptyString => EmptyString
  | String c rest => String (upper c) (upper_string rest)
  end.

(** A colour channel between 0 and 1, so not NaN either. *)
Definition unit_channel (v : float) : bool := ((0 <=? v) && (v <=? 1))%float.

End Colour.

(* ===================================================================== *)
(** ** The vertices of a circle fan *)

Module Fan.

Import JS.

(** [Math.PI]. *)
Definition PI : float := 0x1.921fb54442d18p+1%float.

(** [Math.floor], computed exactly on the value [m * 2^e].  [None] when [v]
    is NaN or infinite or when the result exceeds [MAX_COORD] in magnitude:
    those radii are left outside the model (the size slider gives at most
    30). *)
Definition Math_floor (v : float) : option Z :=
  match Prim2SF v with
  | S754_zero _ => Some 0
  | S754_finite s m e =>
      let sm := if s then Z.neg m else Z.pos m in
      let r := if 0 <=? e then sm * 2 ^ e else sm / 2 ^ (- e) in
      if Z.abs r <=? MAX_COORD then Some r else None
  | S754_infinity _ => None
  | S754_nan => None
  end.

(** The [for (let i = 0; i <= segments; i++)] loop of [drawStrokeCircle]
    and [drawCircle], over the two functions [Math.cos] and [Math.sin]. *)
Equations vertices_loop (cos sin : float -> float) (center : Point float)
    (radius : float) (i segments : Z) (vertices : list float)
  : list float by wf (Z.to_nat (segments + 1 - i)) lt :=
  vertices_loop cos sin center radius i segments vertices
    with Z_le_dec i segments := {
    | left _ =>
        let angle := (number_of_Z i / number_of_Z segments * PI * 2)%float in
        let vx := (x center + cos angle * radius)%float in
        let vy := (y center + sin angle * radius)%float in
        let vertices :=
          if i =? 0 then vertices ++ [x center; y center] else vertices in
        vertices_loop cos sin center radius (i + 1) segments
          (vertices ++ [vx; vy])
    | right _ => vertices }.
Next Obligation. lia. Qed.

(** [segments] of the source: [Math.max(8, Math.floor(radius / 2))]. *)
Definition segments (radius : float) : option Z :=
  match Math_floor (radius / 2)%float with
  | Some f => Some (Z.max 8 f)
  | None => None
  end.

(** A radius for which the vertex loop ends: finite and within range. *)
Definition drawable (radius : float) : Prop := segments radius <> None.

(** The [vertices] array handed to [gl.bufferData]; [gl.drawArrays] is
    given half its length as the vertex count. *)
Definition circleVertices (cos sin : float -> float) (center : Point float)
    (radius : float) : option (list float) :=
  match segments radius with
  | Some n => Some (vertices_loop cos sin center radius 0 n [])
  | None => None
  end.

End Fan.

(* ===================================================================== *)
(** ** The [PencilOnlyCanvas] component *)

Module Pencil.

(** What its handlers read of a pointer event. *)
Record PointerEvent : Type := mkPointerEvent {
  pointerType : string;
  clientX : float;
  clientY : float
}.

(** One [ctx.stroke()]: the sub-paths stroked, with the line width, cap and
    style in force. *)
Record Stroked : Type := mkStroked {
  stroked_path : list (list (Point float));
  stroked_width : float;
  stroked_cap : string;
  stroked_style : string
}.

(** The 2D context as far as the handlers drive it. *)
Record Context2D : Type := mkContext2D {
  lineWidth : float;
  lineCap : string;
  strokeStyle : string;
  currentPath : list (list (Point float));
  strokedPaths : list Stroked
}.

Definition beginPath (ctx : Context2D) : Context2D :=
  mkContext2D (lineWidth ctx) (lineCap ctx) (strokeStyle ctx) [] (strokedPaths ctx).

Definition moveTo (p : Point float) (ctx : Context2D) : Context2D :=
  mkContext2D (lineWidth ctx) (lineCap ctx) (strokeStyle ctx)
    (currentPath ctx ++ [[p]]) (strokedPaths ctx).

(** [lineTo] extends the last sub-path, or starts one when there is none. *)
Definition lineTo (p : Point float) (ctx : Context2D) : Context2D :=
  mkContext2D (lineWidth ctx) (lineCap ctx) (strokeStyle ctx)
    (match rev (currentPath ctx) with
     | [] => [[p]]
     | sub :: before => rev before ++ [sub ++ [p]]
     end)
    (strokedPaths ctx).

Definition stroke (ctx : Context2D) : Context2D :=
  mkContext2D (lineWidth ctx) (lineCap ctx) (strokeStyle ctx) (currentPath ctx)
    (strokedPaths ctx
       ++ [mkStroked (currentPath ctx) (lineWidth ctx) (lineCap ctx)
                     (strokeStyle ctx)]).

Definition setStyle (w : float) (c s : string) (ctx : Context2D) : Context2D :=
  mkContext2D w c s (currentPath ctx) (strokedPaths ctx).

(** The refs of the component.  [canvasRef] is [None] when the canvas is
    not mounted and [Some None] when [getContext("2d")] gives null. *)
Record State : Type := mkState {
  canvasRef : option (option Context2D);
  isDrawingRef : bool;
  lastPointRef : Point float
}.

Definition handlePointerDown (e : PointerEvent) (st : State) : State :=
  if negb (String.eqb (pointerType e) "pen") then st
  else mkState (canvasRef st) true (mkPoint (clientX e) (clientY e)).

Definition handlePointerMove (e : PointerEvent) (st : State) : State :=
  if negb (isDrawingRef st) || negb (String.eqb (pointerType e) "pen") then st
  else
    match canvasRef st with
    | None => st
    | Some None => st
    | Some (Some ctx) =>
        let ctx := setStyle 2%float "round" "#000" ctx in
        let ctx := beginPath ctx in
        let ctx := moveTo (lastPointRef st) ctx in
        let ctx := lineTo (mkPoint (clientX e) (clientY e)) ctx in
        let ctx := stroke ctx in
        mkState (Some (Some ctx)) (isDrawingRef st)
                (mkPoint (clientX e) (clientY e))
    end.

Definition handlePointerUp (e : PointerEvent) (st : State) : State :=
  if negb (String.eqb (pointerType e) "pen") then st
  else mkState (canvasRef st) false (lastPointRef st).

(** The point of an event, and whether a pen sent it. *)
Definition sample (e : PointerEvent) : Point float :=
  mkPoint (clientX e) (clientY e).

Definition from_pen (e : PointerEvent) : bool := String.eqb (pointerType e) "pen".

(** A sequence of pointer-moves, handled in order. *)
Definition moves (es : list PointerEvent) (st : State) : State :=
  fold_left (fun s e => handlePointerMove e s) es st.

(** The segments of the polyline from [p] through [ps]. *)
Fixpoint chain (p : Point float) (ps : list (Point float))
  : list (list (Point float)) :=
  match ps with
  | [] => []
  | q :: tl => [p; q] :: chain q tl
  end.

(** One segment as the handlers stroke it. *)
Definition inked (segment : list (Point float)) : Stroked :=
  mkStroked [segment] 2%float "round" "#000".

End Pencil.

(* ===================================================================== *)
(** ** Dragging the toolbar *)

Module ToolbarDrag.

Import App.

(** The three [useState] cells of [Toolbar]; every handler runs in the
    render that follows the previous one's updates. *)
Record State : Type := mkState {
  position : Point float;
  isDragging : bool;
  dragOffset : Point float
}.

Definition initialState : State :=
  mkState (mkPoint 0%float 0%float) false (mkPoint 0%float 0%float).

(** [rect] is the rectangle of the closest [data-toolbar] element, [None]
    when there is none. *)
Definition handleDragStart (rect : option DOMRect) (e : PointerEvent)
    (st : State) : State :=
  match rect with
  | Some rect =>
      mkState (position st) true
        (mkPoint (clientX e - left rect)%float (clientY e - top rect)%float)
  | None => mkState (position st) true (dragOffset st)
  end.

Definition handleDrag (e : PointerEvent) (st : State) : State :=
  if negb (isDragging st) then st
  else
    mkState (mkPoint (clientX e - x (dragOffset st))%float
                     (clientY e - y (dragOffset st))%float)
            (isDragging st) (dragOffset st).

Definition handleDragEnd (st : State) : State :=
  mkState (position st) false (dragOffset st).

(** A sequence of pointer-moves on the document, handled in order. *)
Definition drags (es : list PointerEvent) (st : State) : State :=
  fold_left (fun s e => handleDrag e s) es st.

End ToolbarDrag.

(* ===================================================================== *)
(** ** The rasteriser: loop lemmas *)

Import Rasterizer JS App Spec.

(** One turn of the [for] loop of [plotLineLow]. *)
Lemma plotLineLow_loop_step (cx x1 cy yi dy dx D : Z) (pts : list (Point Z)) :
  plotLineLow_loop cx x1 cy yi dy dx D pts =
  if cx <=? x1 then
    if D >? 0
    then plotLineLow_loop (cx + 1) x1 (cy + yi) yi dy dx (D + 2 * (dy - dx))
           (pts ++ [mkPoint cx cy])
    else plotLineLow_loop (cx + 1) x1 cy yi dy dx (D + 2 * dy)
           (pts ++ [mkPoint cx cy])
  else pts.
Proof.
  rewrite plotLineLow_loop_equation_1.
  destruct (Z_le_dec cx x1) as [Hle | Hgt].
  - rewrite plotLineLow_loop_clause_1_equation_1.
    apply Z.leb_le in Hle. rewrite Hle. reflexivity.
  - rewrite plotLineLow_loop_clause_1_equation_2.
    apply Z.leb_nle in Hgt. rewrite Hgt. reflexivity.
Qed.

(** One turn of the [for] loop of [plotLineHigh]. *)
Lemma plotLineHigh_loop_step (cy y1 cx xi dx dy D : Z) (pts : list (Point Z)) :
  plotLineHigh_loop cy y1 cx xi dx dy D pts =
  if cy <=? y1 then
    if D >? 0
    then plotLineHigh_loop (cy + 1) y1 (cx + xi) xi dx dy (D + 2 * (dx - dy))
           (pts ++ [mkPoint cx cy])
    else plotLineHigh_loop (cy + 1) y1 cx xi dx dy (D + 2 * dx)
           (pts ++ [mkPoint cx cy])
  else pts.
Proof.
  rewrite plotLineHigh_loop_equation_1.
  destruct (Z_le_dec cy y1) as [Hle | Hgt].
  - rewrite plotLineHigh_loop_clause_1_equation_1.
    apply Z.leb_le in Hle. rewrite Hle. reflexivity.
  - rewrite plotLineHigh_loop_clause_1_equation_2.
    apply Z.leb_nle in Hgt. rewrite Hgt. reflexivity.
Qed.

(** The loops only ever push: the array they are given is a prefix of the
    result. *)
Lemma plotLineLow_loop_app (n : nat) :
  forall cx x1 cy yi dy dx D pts,
    Z.to_nat (x1 + 1 - cx) = n ->
    plotLineLow_loop cx x1 cy yi dy dx D pts =
    pts ++ plotLineLow_loop cx x1 cy yi dy dx D [].
Proof.
  induction n as [| n IH]; intros cx x1 cy yi dy dx D pts Hn;
    rewrite (plotLineLow_loop_step cx x1 cy yi dy dx D pts),
            (plotLineLow_loop_step cx x1 cy yi dy dx D []).
  - assert (Hgt : (cx <=? x1) = false) by (apply Z.leb_gt; lia).
    rewrite Hgt, app_nil_r. reflexivity.
  - assert (Hle : (cx <=? x1) = true) by (apply Z.leb_le; lia).
    rewrite Hle. simpl app.
    destruct (D >? 0).
    + rewrite (IH _ _ _ _ _ _ _ (pts ++ _)), (IH _ _ _ _ _ _ _ [_]) by lia.
      rewrite <- app_assoc. reflexivity.
    + rewrite (IH _ _ _ _ _ _ _ (pts ++ _)), (IH _ _ _ _ _ _ _ [_]) by lia.
      rewrite <- app_assoc. reflexivity.
Qed.

(** [plotLineHigh] is [plotLineLow] with the two axes exchanged. *)
Lemma plotLineHigh_loop_swap (n : nat) :
  forall cy y1 cx xi dx dy D pts,
    Z.to_nat (y1 + 1 - cy) = n ->
    plotLineHigh_loop cy y1 cx xi dx dy D (map swap_xy pts) =
    map swap_xy (plotLineLow_loop cy y1 cx xi dx dy D pts).
Proof.
  induction n as [| n IH]; intros cy y1 cx xi dx dy D pts Hn;
    rewrite plotLineHigh_loop_step, plotLineLow_loop_step.
  - assert (Hgt : (cy <=? y1) = false) by (apply Z.leb_gt; lia).
    rewrite Hgt. reflexivity.
  - assert (Hle : (cy <=? y1) = true) by (apply Z.leb_le; lia).
    rewrite Hle.
    assert (Hpush : map swap_xy pts ++ [mkPoint cx cy]
                    = map swap_xy (pts ++ [mkPoint cy cx]))
      by (rewrite map_app; reflexivity).
    rewrite Hpush.
    destruct (D >? 0); apply IH; lia.
Qed.

Lemma plotLineHigh_swap (x0 y0 x1 y1 : Z) :
  plotLineHigh x0 y0 x1 y1 [] = map swap_xy (plotLineLow y0 x0 y1 x1 []).
Proof.
  unfold plotLineHigh, plotLineLow.
  destruct (x1 - x0 <? 0);
    apply (plotLineHigh_loop_swap (Z.to_nat (y1 + 1 - y0)) _ _ _ _ _ _ _ []);
    reflexivity.
Qed.

(** A turn of the loop that is taken pushes [(cx, cy)] and goes on from the
    next column. *)
Lemma plotLineLow_loop_cons (cx x1 cy yi dy dx D : Z) :
  cx <= x1 ->
  plotLineLow_loop cx x1 cy yi dy dx D [] =
  mkPoint cx cy ::
    plotLineLow_loop (cx + 1) x1 (if D >? 0 then cy + yi else cy) yi dy dx
      (if D >? 0 then D + 2 * (dy - dx) else D + 2 * dy) [].
Proof.
  intros Hle. rewrite plotLineLow_loop_step.
  apply Z.leb_le in Hle. rewrite Hle. simpl app.
  destruct (D >? 0);
    rewrite (plotLineLow_loop_app (Z.to_nat (x1 + 1 - (cx + 1))))
      by reflexivity; reflexivity.
Qed.

Lemma plotLineLow_loop_done (cx x1 cy yi dy dx D : Z) (pts : list (Point Z)) :
  x1 < cx -> plotLineLow_loop cx x1 cy yi dy dx D pts = pts.
Proof.
  intros Hgt. rewrite plotLineLow_loop_step.
  apply Z.leb_gt in Hgt. rewrite Hgt. reflexivity.
Qed.

(** The loop pushes one point per column from [cx] to [x1]. *)
Lemma plotLineLow_loop_length (n : nat) :
  forall cx x1 cy yi dy dx D,
    Z.to_nat (x1 + 1 - cx) = n ->
    List.length (plotLineLow_loop cx x1 cy yi dy dx D []) = n.
Proof.
  induction n as [| n IH]; intros cx x1 cy yi dy dx D Hn.
  - rewrite plotLineLow_loop_done by lia. reflexivity.
  - rewrite plotLineLow_loop_cons by lia. simpl. f_equal. apply IH. lia.
Qed.

Lemma connected8_cons (p : Point Z) (l : list (Point Z)) :
  match l with
  | [] => True
  | q :: _ => chebyshev p q <= 1
  end ->
  connected8 l -> connected8 (p :: l).
Proof. destruct l as [| q l]; simpl; auto. Qed.

(** Consecutive points differ by one column and at most one row. *)
Lemma plotLineLow_loop_connected (n : nat) :
  forall cx x1 cy yi dy dx D,
    Z.to_nat (x1 + 1 - cx) = n ->
    Z.abs yi <= 1 ->
    connected8 (plotLineLow_loop cx x1 cy yi dy dx D []).
Proof.
  induction n as [| n IH]; intros cx x1 cy yi dy dx D Hn Hyi.
  - rewrite plotLineLow_loop_done by lia. exact I.
  - rewrite plotLineLow_loop_cons by lia.
    apply connected8_cons; [ | apply IH; lia ].
    destruct (Z_le_dec (cx + 1) x1) as [Hle | Hgt].
    + rewrite plotLineLow_loop_cons by exact Hle.
      unfold chebyshev; simpl. destruct (D >? 0); lia.
    + rewrite plotLineLow_loop_done by lia. exact I.
Qed.

Lemma plotLineLow_loop_first (cx x1 cy yi dy dx D : Z) :
  cx <= x1 ->
  first_point (plotLineLow_loop cx x1 cy yi dy dx D []) = Some (mkPoint cx cy).
Proof.
  intros Hle. rewrite plotLineLow_loop_cons by exact Hle. reflexivity.
Qed.

Lemma last_point_cons (p q : Point Z) (l : list (Point Z)) :
  last_point (p :: q :: l) = last_point (q :: l).
Proof. reflexivity. Qed.

(** The error term keeps the row within half a pixel of the ideal line, so
    the last column is reached on the row of the end point.  [k] counts the
    columns done and [j] the rows stepped. *)
Lemma plotLineLow_loop_last (n : nat) :
  forall x0 y0 x1 yi dy dx k j D,
    Z.to_nat (dx + 1 - k) = n ->
    x1 = x0 + dx ->
    0 < dx -> 0 <= dy <= dx -> 0 <= k <= dx ->
    D = 2 * dy * (k + 1) - dx - 2 * dx * j ->
    2 * dy * k - dx <= 2 * dx * j < 2 * dy * k + dx ->
    last_point (plotLineLow_loop (x0 + k) x1 (y0 + yi * j) yi dy dx D [])
    = Some (mkPoint x1 (y0 + yi * dy)).
Proof.
  induction n as [| n IH];
    intros x0 y0 x1 yi dy dx k j D Hn Hx1 Hdx Hdy Hk HD Hj; [ lia | ].
  rewrite plotLineLow_loop_cons by lia.
  destruct (Z.eq_dec k dx) as [Hend | Hmore].
  - rewrite plotLineLow_loop_done by lia. simpl.
    assert (Hjdy : j = dy) by nia.
    subst j. f_equal. f_equal. lia.
  - rewrite (plotLineLow_loop_cons (x0 + k + 1)) by lia.
    rewrite last_point_cons.
    rewrite <- (plotLineLow_loop_cons (x0 + k + 1)) by lia.
    replace (x0 + k + 1) with (x0 + (k + 1)) by lia.
    destruct (D >? 0) eqn:HDpos.
    + apply Z.gtb_lt in HDpos.
      replace (y0 + yi * j + yi) with (y0 + yi * (j + 1)) by lia.
      apply IH; try lia; nia.
    + assert (HDneg : D <= 0)
        by (destruct (Z.gtb_spec D 0); [ discriminate | lia ]).
      apply IH; try lia; nia.
Qed.

(** What [plotLineLow] pushes on a line it is called for: [|dy| <= dx],
    left to right. *)
Lemma plotLineLow_spec (x0 y0 x1 y1 : Z) :
  x0 <= x1 -> Z.abs (y1 - y0) <= x1 - x0 ->
  let pts := plotLineLow x0 y0 x1 y1 [] in
  connected8 pts
  /\ first_point pts = Some (mkPoint x0 y0)
  /\ last_point pts = Some (mkPoint x1 y1)
  /\ Z.of_nat (List.length pts) = x1 - x0 + 1.
Proof.
  intros Hx Hy pts. subst pts. unfold plotLineLow.
  set (dx := x1 - x0).
  destruct (y1 - y0 <? 0) eqn:Hneg;
    [ apply Z.ltb_lt in Hneg | apply Z.ltb_ge in Hneg ].
  all: repeat split.
  all: try (apply (plotLineLow_loop_connected (Z.to_nat (x1 + 1 - x0)));
            [ reflexivity | lia ]).
  all: try (apply plotLineLow_loop_first; lia).
  all: try (rewrite (plotLineLow_loop_length (Z.to_nat (x1 + 1 - x0)))
              by reflexivity; lia).
  - destruct (Z.eq_dec dx 0) as [Hz | Hnz].
    + rewrite plotLineLow_loop_cons by lia.
      rewrite plotLineLow_loop_done by lia. simpl.
      f_equal. f_equal; lia.
    + pose proof (plotLineLow_loop_last (Z.to_nat (dx + 1 - 0))
                    x0 y0 x1 (-1) (- (y1 - y0)) dx 0 0
                    (2 * - (y1 - y0) - dx)) as HL.
      replace (x0 + 0) with x0 in HL by lia.
      replace (y0 + -1 * 0) with y0 in HL by lia.
      rewrite HL by lia. f_equal. f_equal. lia.
  - destruct (Z.eq_dec dx 0) as [Hz | Hnz].
    + rewrite plotLineLow_loop_cons by lia.
      rewrite plotLineLow_loop_done by lia. simpl.
      f_equal. f_equal; lia.
    + pose proof (plotLineLow_loop_last (Z.to_nat (dx + 1 - 0))
                    x0 y0 x1 1 (y1 - y0) dx 0 0
                    (2 * (y1 - y0) - dx)) as HL.
      replace (x0 + 0) with x0 in HL by lia.
      replace (y0 + 1 * 0) with y0 in HL by lia.
      rewrite HL by lia. f_equal. f_equal. lia.
Qed.

Lemma chebyshev_swap (p q : Point Z) :
  chebyshev (swap_xy p) (swap_xy q) = chebyshev p q.
Proof. unfold chebyshev, swap_xy; simpl. apply Z.max_comm. Qed.

Lemma connected8_swap (l : list (Point Z)) :
  connected8 l -> connected8 (map swap_xy l).
Proof.
  induction l as [| p [| q l] IH]; simpl; auto.
  intros [Hpq Hl]. split.
  - rewrite chebyshev_swap. exact Hpq.
  - apply IH. exact Hl.
Qed.

Lemma first_point_map (f : Point Z -> Point Z) (l : list (Point Z)) (p : Point Z) :
  first_point l = Some p -> first_point (map f l) = Some (f p).
Proof. destruct l; simpl; congruence. Qed.

Lemma last_point_map (f : Point Z -> Point Z) (l : list (Point Z)) (p : Point Z) :
  last_point l = Some p -> last_point (map f l) = Some (f p).
Proof.
  induction l as [| a [| b l] IH]; simpl; try congruence.
  exact IH.
Qed.

(** What [plotLineHigh] pushes on a line it is called for: [|dx| <= dy],
    top to bottom. *)
Lemma plotLineHigh_spec (x0 y0 x1 y1 : Z) :
  y0 <= y1 -> Z.abs (x1 - x0) <= y1 - y0 ->
  let pts := plotLineHigh x0 y0 x1 y1 [] in
  connected8 pts
  /\ first_point pts = Some (mkPoint x0 y0)
  /\ last_point pts = Some (mkPoint x1 y1)
  /\ Z.of_nat (List.length pts) = y1 - y0 + 1.
Proof.
  intros Hy Hx pts. subst pts. rewrite plotLineHigh_swap.
  destruct (plotLineLow_spec y0 x0 y1 x1 Hy Hx) as (Hc & Hf & Hl & Hn).
  repeat split.
  - apply connected8_swap. exact Hc.
  - apply (first_point_map swap_xy) in Hf. exact Hf.
  - apply (last_point_map swap_xy) in Hl. exact Hl.
  - rewrite length_map. exact Hn.
Qed.

(* ===================================================================== *)
(** ** The rasteriser: the claims *)

(** C1. For all integer [(x0,y0)], [(x1,y1)], [plotLine] returns a sequence
    in which every two consecutive points are within Chebyshev distance 1,
    whose first and last points are the two end points (in the order given
    or exchanged), and whose length is at least [max(|x1-x0|,|y1-y0|) + 1]. *)
Theorem plotLine_bresenham_coverage (x0 y0 x1 y1 : Z) :
  let pts := plotLine x0 y0 x1 y1 in
  connected8 pts
  /\ ((first_point pts = Some (mkPoint x0 y0)
       /\ last_point pts = Some (mkPoint x1 y1))
      \/ (first_point pts = Some (mkPoint x1 y1)
          /\ last_point pts = Some (mkPoint x0 y0)))
  /\ Z.max (Z.abs (x1 - x0)) (Z.abs (y1 - y0)) + 1 <= Z.of_nat (List.length pts).
Proof.
  intros pts. subst pts. unfold plotLine.
  destruct (Z.abs (y1 - y0) <? Z.abs (x1 - x0)) eqn:Hshallow;
    [ apply Z.ltb_lt in Hshallow | apply Z.ltb_ge in Hshallow ].
  - destruct (x0 >? x1) eqn:Hdir.
    + apply Z.gtb_lt in Hdir.
      destruct (plotLineLow_spec x1 y1 x0 y0) as (Hc & Hf & Hl & Hn);
        [ lia | lia | ].
      split; [ exact Hc | split; [ right; split; assumption | lia ] ].
    + assert (Hle : x0 <= x1)
        by (destruct (Z.gtb_spec x0 x1); [ discriminate | lia ]).
      destruct (plotLineLow_spec x0 y0 x1 y1) as (Hc & Hf & Hl & Hn);
        [ lia | lia | ].
      split; [ exact Hc | split; [ left; split; assumption | lia ] ].
  - destruct (y0 >? y1) eqn:Hdir.
    + apply Z.gtb_lt in Hdir.
      destruct (plotLineHigh_spec x1 y1 x0 y0) as (Hc & Hf & Hl & Hn);
        [ lia | lia | ].
      split; [ exact Hc | split; [ right; split; assumption | lia ] ].
    + assert (Hle : y0 <= y1)
        by (destruct (Z.gtb_spec y0 y1); [ discriminate | lia ]).
      destruct (plotLineHigh_spec x0 y0 x1 y1) as (Hc & Hf & Hl & Hn);
        [ lia | lia | ].
      split; [ exact Hc | split; [ left; split; assumption | lia ] ].
Qed.

(** C9. [plotLine(x, y, x, y)] is the one-element sequence [[(x, y)]], and
    [plotLine(0, 0, 10, 0)] is the eleven points [(0,0), (1,0), ..., (10,0)]
    in that order. *)
Theorem plotLine_degenerate_and_straight :
  (forall px py : Z, plotLine px py px py = [mkPoint px py])
  /\ plotLine 0 0 10 0 =
     [mkPoint 0 0; mkPoint 1 0; mkPoint 2 0; mkPoint 3 0; mkPoint 4 0;
      mkPoint 5 0; mkPoint 6 0; mkPoint 7 0; mkPoint 8 0; mkPoint 9 0;
      mkPoint 10 0].
Proof.
  split.
  - intros px py. unfold plotLine.
    replace (py - py) with 0 by lia. replace (px - px) with 0 by lia.
    change (Z.abs 0 <? Z.abs 0) with false. cbv iota.
    assert (Hdir : (py >? py) = false)
      by (destruct (Z.gtb_spec py py); [ lia | reflexivity ]).
    rewrite Hdir. unfold plotLineHigh.
    replace (py - py) with 0 by lia. replace (px - px) with 0 by lia.
    change (0 <? 0) with false. cbv iota beta zeta.
    rewrite plotLineHigh_loop_step, Z.leb_refl.
    change (2 * 0 - 0 >? 0) with false. cbv iota.
    rewrite plotLineHigh_loop_step.
    assert (Hout : (py + 1 <=? py) = false) by (apply Z.leb_gt; lia).
    rewrite Hout. reflexivity.
  - vm_compute. reflexivity.
Qed.

(* ===================================================================== *)
(** ** The history: handlers *)

(** On a prefix length within bounds, [slice(0, n)] is the first [n]
    elements. *)
Lemma slice_prefix (A : Type) (l : list A) (n : Z) :
  0 <= n <= Z.of_nat (List.length l) ->
  slice l 0 n = firstn (Z.to_nat n) l.
Proof.
  intros Hn. unfold slice.
  change (0 <? 0) with false. cbv iota.
  assert (Hneg : (n <? 0) = false) by (apply Z.ltb_ge; lia).
  rewrite Hneg.
  rewrite Z.min_l by lia.
  rewrite Z.min_l by lia.
  rewrite Z.sub_0_r. reflexivity.
Qed.

Lemma same_history_inv (a b : State) :
  same_history a b -> history_inv a -> history_inv b.
Proof.
  unfold same_history, history_inv, activeCount, entries.
  intros [Hs Hi]. rewrite Hs, Hi. auto.
Qed.

Lemma handleUndo_entries (st : State) : strokes (handleUndo st) = strokes st.
Proof. unfold handleUndo. destruct (currentStrokeIndex st >=? 0); reflexivity. Qed.

Lemma handleRedo_entries (st : State) : strokes (handleRedo st) = strokes st.
Proof.
  unfold handleRedo.
  destruct (currentStrokeIndex st <? Z.of_nat (List.length (strokes st)) - 1);
    reflexivity.
Qed.

Lemma handleUndo_index (st : State) :
  currentStrokeIndex (handleUndo st) =
  if currentStrokeIndex st >=? 0 then currentStrokeIndex st - 1
  else currentStrokeIndex st.
Proof. unfold handleUndo. destruct (currentStrokeIndex st >=? 0); reflexivity. Qed.

Lemma handleRedo_index (st : State) :
  currentStrokeIndex (handleRedo st) =
  if currentStrokeIndex st <? Z.of_nat (List.length (strokes st)) - 1
  then currentStrokeIndex st + 1
  else currentStrokeIndex st.
Proof.
  unfold handleRedo.
  destruct (currentStrokeIndex st <? Z.of_nat (List.length (strokes st)) - 1);
    reflexivity.
Qed.

Lemma handleUndo_inv (st : State) : history_inv st -> history_inv (handleUndo st).
Proof.
  unfold history_inv, activeCount, entries.
  rewrite handleUndo_entries, handleUndo_index.
  destruct (Z.geb_spec (currentStrokeIndex st) 0); lia.
Qed.

Lemma handleRedo_inv (st : State) : history_inv st -> history_inv (handleRedo st).
Proof.
  unfold history_inv, activeCount, entries.
  rewrite handleRedo_entries, handleRedo_index.
  destruct (Z.ltb_spec (currentStrokeIndex st)
              (Z.of_nat (List.length (strokes st)) - 1)); lia.
Qed.

Lemma only_gl_refl (st : State) : only_gl st st.
Proof. destruct st; reflexivity. Qed.

Lemma only_gl_trans (a b c : State) : only_gl a b -> only_gl b c -> only_gl a c.
Proof.
  unfold only_gl, set_glRef. intros Hab Hbc.
  destruct a, b, c; simpl in *.
  injection Hab as ->; intros; subst.
  injection Hbc; intros; subst. reflexivity.
Qed.

Lemma only_gl_onGL (f : GL.Context -> GL.Context) (st : State) :
  only_gl st (onGL f st).
Proof.
  unfold onGL. destruct (glRef st) eqn:Hgl.
  - destruct st; reflexivity.
  - apply only_gl_refl.
Qed.

Lemma only_gl_history (a b : State) : only_gl a b -> same_history b a.
Proof. unfold only_gl. intros H. rewrite H. split; reflexivity. Qed.

Lemma handleClear_history (st : State) :
  strokes (handleClear st) = [] /\ currentStrokeIndex (handleClear st) = -1.
Proof.
  unfold handleClear. simpl.
  destruct (glRef st); [ | split; reflexivity ].
  match goal with
  | |- strokes ?b = _ /\ _ =>
      assert (Hh : same_history b (setCurrentStrokeIndex (-1) (setStrokes [] st)))
        by (apply only_gl_history;
            eapply only_gl_trans; apply only_gl_onGL)
  end.
  exact Hh.
Qed.

Lemma handleClear_inv (st : State) : history_inv (handleClear st).
Proof.
  unfold history_inv, activeCount, entries.
  destruct (handleClear_history st) as [Hs Hi]. rewrite Hs, Hi. simpl. lia.
Qed.

(** A release with an empty buffer leaves the history alone. *)
Lemma handlePointerUp_empty (st : State) :
  currentStrokeRef st = [] -> same_history (handlePointerUp st) st.
Proof.
  intros Hb. unfold handlePointerUp. simpl. rewrite Hb. simpl.
  split; reflexivity.
Qed.

(** A release with a non-empty buffer commits [newStroke] after the active
    prefix. *)
Lemma handlePointerUp_commit (st : State) :
  currentStrokeRef st <> [] ->
  strokes (handlePointerUp st) =
    slice (strokes st) 0 (currentStrokeIndex st + 1) ++ [newStroke st]
  /\ currentStrokeIndex (handlePointerUp st) =
       Z.of_nat (List.length (strokes (handlePointerUp st))) - 1
  /\ currentStrokeRef (handlePointerUp st) = [].
Proof.
  intros Hb. unfold handlePointerUp. simpl.
  destruct (currentStrokeRef st) as [| p pts]; [ congruence | ].
  simpl. repeat split.
Qed.

Lemma handlePointerUp_inv (st : State) :
  history_inv st -> history_inv (handlePointerUp st).
Proof.
  intros Hinv.
  destruct (currentStrokeRef st) as [| p pts] eqn:Hb.
  - apply (same_history_inv st); [ | exact Hinv ].
    destruct (handlePointerUp_empty st Hb) as [Hs Hi]. split; congruence.
  - assert (Hne : currentStrokeRef st <> []) by congruence.
    destruct (handlePointerUp_commit st Hne) as (Hs & Hi & _).
    unfold history_inv, activeCount, entries.
    rewrite Hi, Hs, length_app. simpl. lia.
Qed.

Lemma handlePointerDown_history (rect : option DOMRect) (e : PointerEvent)
    (st : State) :
  same_history (handlePointerDown rect e st) st.
Proof. unfold handlePointerDown. destruct rect; split; reflexivity. Qed.

(* ===================================================================== *)
(** ** Drawing touches the GL context only *)

Lemma only_gl_drawStrokeCircle (c : Point float) (r : float) (st : State) :
  only_gl st (drawStrokeCircle c r st).
Proof.
  unfold drawStrokeCircle.
  destruct (negb _ || negb (programRef st) || negb (positionBufferRef st)).
  - apply only_gl_refl.
  - apply only_gl_onGL.
Qed.

Lemma only_gl_drawCircle (c : Point float) (r : float) (st : State) :
  only_gl st (drawCircle c r st).
Proof. exact (only_gl_drawStrokeCircle c r st). Qed.

Lemma only_gl_fold_left (f : State -> Point float -> State) (l : list (Point float)) :
  (forall s p, only_gl s (f s p)) ->
  forall st, only_gl st (fold_left f l st).
Proof.
  intros Hf. induction l as [| p l IH]; intros st; simpl.
  - apply only_gl_refl.
  - eapply only_gl_trans; [ apply Hf | apply IH ].
Qed.

Lemma only_gl_replaySegments (lw : float) (pts : list (Point float)) :
  forall st st', replaySegments pts lw st = Some st' -> only_gl st st'.
Proof.
  induction pts as [| from rest IH]; intros st st' H.
  - simpl in H. injection H as <-. apply only_gl_refl.
  - destruct rest as [| to rest'].
    + simpl in H. injection H as <-. apply only_gl_refl.
    + cbn [replaySegments] in H.
      destruct (bresenhamPoints from to) as [bp |]; [ | discriminate ].
      eapply only_gl_trans; [ | apply (IH _ _ H) ].
      apply only_gl_fold_left. intros s p. apply only_gl_drawStrokeCircle.
Qed.

(** The three branches of the tool test set the blend function and the two
    uniforms, whatever the tool. *)
Ltac only_gl_chain :=
  repeat (first [ apply only_gl_refl
                | apply only_gl_onGL
                | eapply only_gl_trans; [ | apply only_gl_onGL ] ]).

Lemma only_gl_replayStroke (stroke : Stroke) (st st' : State) :
  replayStroke stroke st = Some st' -> only_gl st st'.
Proof.
  unfold replayStroke.
  destruct (List.length (points stroke) =? 0)%nat.
  - intros H. injection H as <-. apply only_gl_refl.
  - match goal with
    | |- context [match tool stroke with pen => ?a | highlighter => ?b | eraser => ?c end] =>
        set (cfg := match tool stroke with pen => a | highlighter => b | eraser => c end)
    end.
    assert (Hcfg : only_gl st cfg).
    { subst cfg. destruct (tool stroke).
      - destruct (hexToRgb (color stroke)) as [[r g] b]. only_gl_chain.
      - destruct (hexToRgb (color stroke)) as [[r g] b]. only_gl_chain.
      - only_gl_chain. }
    clearbody cfg.
    destruct (points stroke) as [| p [| q rest]]; intros H.
    + simpl in H. injection H as <-. exact Hcfg.
    + injection H as <-.
      eapply only_gl_trans; [ exact Hcfg | apply only_gl_drawStrokeCircle ].
    + eapply only_gl_trans; [ exact Hcfg | ].
      eapply only_gl_replaySegments. exact H.
Qed.

Lemma only_gl_forEachStroke (l : list Stroke) :
  forall st st', forEachStroke l st = Some st' -> only_gl st st'.
Proof.
  induction l as [| stroke tl IH]; intros st st' H; simpl in H.
  - injection H as <-. apply only_gl_refl.
  - destruct (replayStroke stroke st) as [st1 |] eqn:H1; [ | discriminate ].
    eapply only_gl_trans; [ apply (only_gl_replayStroke _ _ _ H1) | apply (IH _ _ H) ].
Qed.

Lemma only_gl_redrawCanvas (st st' : State) :
  redrawCanvas st = Some st' -> only_gl st st'.
Proof.
  unfold redrawCanvas. destruct (glRef st) as [gl |].
  - destruct (negb (colorLocationRef st) || negb (alphaLocationRef st)).
    + intros H. injection H as <-. apply only_gl_refl.
    + intros H. apply only_gl_forEachStroke in H.
      eapply only_gl_trans; [ | exact H ]. only_gl_chain.
  - intros H. injection H as <-. apply only_gl_refl.
Qed.

Lemma only_gl_redrawEffect (st st' : State) :
  redrawEffect st = Some st' -> only_gl st st'.
Proof.
  unfold redrawEffect.
  destruct (_ && colorLocationRef st).
  - apply only_gl_redrawCanvas.
  - intros H. injection H as <-. apply only_gl_refl.
Qed.

Lemma only_gl_drawLine (from to : Point float) (st st' : State) :
  drawLine from to st = Some st' -> only_gl st st'.
Proof.
  unfold drawLine.
  destruct (negb _ || negb (programRef st) || negb (positionBufferRef st)
            || negb (colorLocationRef st) || negb (alphaLocationRef st)).
  - intros H. injection H as <-. apply only_gl_refl.
  - match goal with
    | |- context [match selectedTool st with pen => ?a | highlighter => ?b | eraser => ?c end] =>
        set (cfg := match selectedTool st with pen => a | highlighter => b | eraser => c end)
    end.
    assert (Hcfg : only_gl st cfg).
    { subst cfg. destruct (selectedTool st).
      - destruct (hexToRgb (selectedColor _)) as [[r g] b]. only_gl_chain.
      - destruct (hexToRgb (selectedColor _)) as [[r g] b]. only_gl_chain.
      - only_gl_chain. }
    clearbody cfg.
    destruct (bresenhamPoints from to) as [bp |]; [ | discriminate ].
    intros H. injection H as <-.
    eapply only_gl_trans; [ exact Hcfg | ].
    apply only_gl_fold_left. intros s p. apply only_gl_drawCircle.
Qed.

Lemma handlePointerMove_history (rect : option DOMRect) (e : PointerEvent)
    (st st' : State) :
  handlePointerMove rect e st = Some st' -> same_history st' st.
Proof.
  unfold handlePointerMove.
  destruct (negb (isDrawingRef st)).
  - intros H. injection H as <-. split; reflexivity.
  - destruct rect as [rect |].
    + destruct (drawLine _ _ st) as [st1 |] eqn:Hd; [ | discriminate ].
      intros H. injection H as <-.
      apply only_gl_drawLine, only_gl_history in Hd.
      destruct Hd as [Hs Hi]. split; simpl; assumption.
    + intros H. injection H as <-. split; reflexivity.
Qed.

(** Every event keeps the cursor within the list. *)
Lemma dispatch_inv (ev : Event) (st st' : State) :
  dispatch ev st = Some st' -> history_inv st -> history_inv st'.
Proof.
  intros H Hinv. destruct ev; simpl in H.
  - injection H as <-.
    apply (same_history_inv st); [ | exact Hinv ].
    destruct (handlePointerDown_history rect e st); split; congruence.
  - apply handlePointerMove_history in H.
    apply (same_history_inv st); [ | exact Hinv ].
    destruct H; split; congruence.
  - destruct (0 <? List.length (currentStrokeRef st))%nat.
    + apply only_gl_redrawEffect, only_gl_history in H.
      apply (same_history_inv (handlePointerUp st));
        [ destruct H; split; congruence | apply handlePointerUp_inv, Hinv ].
    + injection H as <-. apply handlePointerUp_inv, Hinv.
  - destruct (0 <? List.length (currentStrokeRef st))%nat.
    + apply only_gl_redrawEffect, only_gl_history in H.
      apply (same_history_inv (handlePointerUp st));
        [ destruct H; split; congruence | apply handlePointerUp_inv, Hinv ].
    + injection H as <-. apply handlePointerUp_inv, Hinv.
  - destruct (currentStrokeIndex (handleUndo st) =? currentStrokeIndex st).
    + injection H as <-. apply handleUndo_inv, Hinv.
    + apply only_gl_redrawEffect, only_gl_history in H.
      apply (same_history_inv (handleUndo st));
        [ destruct H; split; congruence | apply handleUndo_inv, Hinv ].
  - destruct (currentStrokeIndex (handleRedo st) =? currentStrokeIndex st).
    + injection H as <-. apply handleRedo_inv, Hinv.
    + apply only_gl_redrawEffect, only_gl_history in H.
      apply (same_history_inv (handleRedo st));
        [ destruct H; split; congruence | apply handleRedo_inv, Hinv ].
  - apply only_gl_redrawEffect, only_gl_history in H.
    apply (same_history_inv (handleClear st));
      [ destruct H; split; congruence | apply handleClear_inv ].
  - injection H as <-. exact Hinv.
  - injection H as <-. exact Hinv.
  - injection H as <-. exact Hinv.
  - injection H as <-. unfold handleOpacityChange.
    destruct (selectedTool st); exact Hinv.
Qed.



(* ===================================================================== *)
(** ** The history: the claims *)

Lemma apply_op_inv (op : HistoryOp) (st : State) :
  history_inv st -> history_inv (apply_op op st).
Proof.
  intros Hinv. destruct op; simpl.
  - unfold append. apply handlePointerUp_inv.
    apply (same_history_inv st); [ split; reflexivity | exact Hinv ].
  - apply handleUndo_inv, Hinv.
  - apply handleRedo_inv, Hinv.
  - apply handleClear_inv.
Qed.

Lemma states_after_inv (ops : list HistoryOp) :
  forall st, history_inv st -> Forall history_inv (states_after ops st).
Proof.
  induction ops as [| op tl IH]; intros st Hinv; simpl.
  - constructor.
  - constructor.
    + apply apply_op_inv, Hinv.
    + apply IH, apply_op_inv, Hinv.
Qed.

(** C2. For every finite sequence of append, undo, redo and clear
    operations starting from the empty history, the invariant
    [0 <= activeCount <= entries.length] holds after every step. *)
Theorem history_bounds_invariant (ops : list HistoryOp) (st0 : State) :
  entries st0 = [] -> activeCount st0 = 0 ->
  Forall history_inv (states_after ops st0).
Proof.
  intros He Ha. apply states_after_inv.
  unfold history_inv. rewrite He, Ha. simpl. lia.
Qed.

Lemma history_bounds_invariant_witness :
  Forall history_inv
    (states_after
       [OpAppend [mkPoint 1%float 2%float]; OpAppend [mkPoint 3%float 4%float];
        OpUndo; OpUndo; OpUndo; OpRedo; OpAppend [mkPoint 5%float 6%float];
        OpRedo; OpClear; OpUndo; OpRedo]
       initialState).
Proof.
  apply history_bounds_invariant; reflexivity.
Defined.

Lemma handleRedo_at_end (st : State) :
  activeCount st = Z.of_nat (List.length (entries st)) -> handleRedo st = st.
Proof.
  unfold activeCount, entries, handleRedo. intros Hend.
  destruct (Z.ltb_spec (currentStrokeIndex st)
              (Z.of_nat (List.length (strokes st)) - 1)); [ lia | reflexivity ].
Qed.

Lemma handleUndo_at_start (st : State) :
  activeCount st = 0 -> handleUndo st = st.
Proof.
  unfold activeCount, handleUndo. intros Hstart.
  destruct (Z.geb_spec (currentStrokeIndex st) 0); [ lia | reflexivity ].
Qed.

(** What a committing release does, in the specification's terms. *)
Lemma handlePointerUp_append (st : State) :
  history_inv st -> currentStrokeRef st <> [] ->
  entries (handlePointerUp st) = activeStrokes st ++ [newStroke st]
  /\ activeCount (handlePointerUp st)
     = Z.of_nat (List.length (entries (handlePointerUp st)))
  /\ activeStrokes (handlePointerUp st) = entries (handlePointerUp st).
Proof.
  intros Hinv Hne.
  destruct (handlePointerUp_commit st Hne) as (Hs & Hi & _).
  unfold activeStrokes, activeCount, entries in *.
  rewrite slice_prefix in Hs by exact Hinv.
  repeat split.
  - exact Hs.
  - rewrite Hi. lia.
  - rewrite Hi.
    replace (Z.of_nat (List.length (strokes (handlePointerUp st))) - 1 + 1)
      with (Z.of_nat (List.length (strokes (handlePointerUp st)))) by lia.
    rewrite Nat2Z.id. apply firstn_all.
Qed.

(** C3. Appending a stroke truncates [entries] to the first [activeCount]
    elements, appends the stroke and sets [activeCount] to the new length;
    so after an undo and an append, redo does nothing and the appended
    stroke is the last active one; and append A, append B, undo, append C
    gives [entries = [A, C]], [activeCount = 2], redo a no-op. *)
Theorem append_truncates_and_prunes_redo :
  (forall st : State,
      history_inv st -> currentStrokeRef st <> [] ->
      entries (handlePointerUp st) = activeStrokes st ++ [newStroke st]
      /\ activeCount (handlePointerUp st)
         = Z.of_nat (List.length (entries (handlePointerUp st))))
  /\ (forall (st : State) (pts : list (Point float)),
         history_inv st -> pts <> [] ->
         let st' := append pts (handleUndo st) in
         handleRedo st' = st'
         /\ activeStrokes st'
            = activeStrokes (handleUndo st) ++ [stroke_of pts (handleUndo st)])
  /\ (forall (st0 : State) (a b c : list (Point float)),
         entries st0 = [] -> activeCount st0 = 0 ->
         a <> [] -> b <> [] -> c <> [] ->
         let s1 := append a st0 in
         let s2 := append b s1 in
         let s3 := handleUndo s2 in
         let s4 := append c s3 in
         activeCount s3 = 1
         /\ entries s4 = [stroke_of a st0; stroke_of c s3]
         /\ activeCount s4 = 2
         /\ handleRedo s4 = s4).
Proof.
  split; [ | split ].
  - intros st Hinv Hne.
    destruct (handlePointerUp_append st Hinv Hne) as (He & Ha & _).
    split; assumption.
  - intros st pts Hinv Hne st'. subst st'. unfold append, stroke_of.
    assert (Hinv' : history_inv (at_release pts (handleUndo st)))
      by (apply (same_history_inv (handleUndo st));
          [ split; reflexivity | apply handleUndo_inv, Hinv ]).
    destruct (handlePointerUp_append _ Hinv' Hne) as (He & Ha & Hact).
    split.
    + apply handleRedo_at_end. exact Ha.
    + rewrite Hact, He. reflexivity.
  - intros st0 a b c He0 Ha0 Hna Hnb Hnc s1 s2 s3 s4.
    assert (Hinv0 : history_inv (at_release a st0))
      by (unfold history_inv, activeCount, entries in *; simpl;
          rewrite He0; simpl; lia).
    destruct (handlePointerUp_append _ Hinv0 Hna) as (He1 & Ha1 & _).
    fold (append a st0) in He1, Ha1. fold s1 in He1, Ha1.
    fold (stroke_of a st0) in He1.
    assert (Hact0 : activeStrokes (at_release a st0) = []).
    { unfold activeStrokes, activeCount, entries in *. simpl.
      rewrite He0. apply firstn_nil. }
    rewrite Hact0 in He1. simpl in He1.
    rewrite He1 in Ha1. simpl in Ha1.
    assert (Hinv1 : history_inv (at_release b s1))
      by (unfold history_inv, activeCount, entries in *; simpl;
          rewrite He1; simpl; lia).
    destruct (handlePointerUp_append _ Hinv1 Hnb) as (He2 & Ha2 & _).
    fold (append b s1) in He2, Ha2. fold s2 in He2, Ha2.
    assert (Hact1 : activeStrokes (at_release b s1) = [stroke_of a st0]).
    { unfold activeStrokes, activeCount, entries in *. simpl.
      rewrite He1. replace (currentStrokeIndex s1 + 1) with 1 by lia.
      reflexivity. }
    rewrite Hact1 in He2. simpl in He2.
    rewrite He2 in Ha2. simpl in Ha2.
    assert (Hi3 : activeCount s3 = 1).
    { unfold activeCount in *. subst s3. rewrite handleUndo_index.
      destruct (Z.geb_spec (currentStrokeIndex s2) 0); lia. }
    assert (He3 : entries s3 = entries s2)
      by (subst s3; apply handleUndo_entries).
    assert (Hinv3 : history_inv (at_release c s3)).
    { unfold history_inv. 
      change (activeCount (at_release c s3)) with (activeCount s3).
      change (entries (at_release c s3)) with (entries s3).
      rewrite Hi3, He3, He2. simpl. lia. }
    destruct (handlePointerUp_append _ Hinv3 Hnc) as (He4 & Ha4 & _).
    fold (append c s3) in He4, Ha4. fold s4 in He4, Ha4.
    fold (stroke_of c s3) in He4.
    assert (Hact3 : activeStrokes (at_release c s3) = [stroke_of a st0]).
    { unfold activeStrokes.
      change (activeCount (at_release c s3)) with (activeCount s3).
      change (entries (at_release c s3)) with (entries s3).
      rewrite Hi3, He3, He2. reflexivity. }
    rewrite Hact3 in He4. simpl in He4.
    repeat split.
    + exact Hi3.
    + exact He4.
    + rewrite Ha4, He4. reflexivity.
    + apply handleRedo_at_end. exact Ha4.
Qed.

Lemma append_truncates_and_prunes_redo_witness :
  let A := [mkPoint 1%float 1%float] in
  let B := [mkPoint 2%float 2%float; mkPoint 3%float 3%float] in
  let C := [mkPoint 4%float 4%float] in
  let s3 := handleUndo (append B (append A initialState)) in
  let s4 := append C s3 in
  activeCount s3 = 1
  /\ entries s4 = [stroke_of A initialState; stroke_of C s3]
  /\ activeCount s4 = 2
  /\ handleRedo s4 = s4.
Proof.
  intros A B C.
  apply (proj2 (proj2 append_truncates_and_prunes_redo) initialState A B C);
    [ reflexivity | reflexivity | discriminate | discriminate | discriminate ].
Defined.

(** C8. [undo()] with [activeCount = 0] and [redo()] with
    [activeCount = entries.length] leave the state unchanged (so repeating
    them changes nothing either), [activeCount] never becomes negative, and
    neither handler ever modifies [entries]. *)
Theorem undo_redo_boundary_noop (st : State) :
  (activeCount st = 0 ->
   handleUndo st = st /\ handleUndo (handleUndo st) = handleUndo st)
  /\ (activeCount st = Z.of_nat (List.length (entries st)) ->
      handleRedo st = st /\ handleRedo (handleRedo st) = handleRedo st)
  /\ (0 <= activeCount st -> 0 <= activeCount (handleUndo st))
  /\ entries (handleUndo st) = entries st
  /\ entries (handleRedo st) = entries st.
Proof.
  repeat split.
  - apply handleUndo_at_start. assumption.
  - rewrite (handleUndo_at_start st) by assumption.
    apply handleUndo_at_start. assumption.
  - apply handleRedo_at_end. assumption.
  - rewrite (handleRedo_at_end st) by assumption.
    apply handleRedo_at_end. assumption.
  - unfold activeCount. rewrite handleUndo_index.
    destruct (Z.geb_spec (currentStrokeIndex st) 0); lia.
  - apply handleUndo_entries.
  - apply handleRedo_entries.
Qed.

Lemma undo_redo_boundary_noop_witness :
  handleUndo initialState = initialState
  /\ handleRedo (append [mkPoint 1%float 1%float] initialState)
     = append [mkPoint 1%float 1%float] initialState.
Proof.
  split.
  - apply (proj1 (undo_redo_boundary_noop initialState)). reflexivity.
  - apply (proj1 (proj2 (undo_redo_boundary_noop
                           (append [mkPoint 1%float 1%float] initialState)))).
    reflexivity.
Defined.

(** C10. On a state with [0 <= activeCount <= strokes.length]: if
    [activeCount > 0] then redo after undo gives the state back, and if
    [activeCount < strokes.length] then undo after redo gives it back; in
    both compositions only the cursor moves, the list is not modified. *)
Theorem undo_redo_inverse (st : State) :
  history_inv st ->
  (0 < activeCount st -> handleRedo (handleUndo st) = st)
  /\ (activeCount st < Z.of_nat (List.length (entries st)) ->
      handleUndo (handleRedo st) = st)
  /\ entries (handleRedo (handleUndo st)) = entries st
  /\ entries (handleUndo (handleRedo st)) = entries st.
Proof.
  unfold history_inv, activeCount, entries. intros Hinv.
  split; [ | split; [ | split ] ].
  - intros Hpos. unfold handleUndo.
    destruct (Z.geb_spec (currentStrokeIndex st) 0) as [Hge | Hlt]; [ | lia ].
    unfold handleRedo. cbn [strokes currentStrokeIndex setCurrentStrokeIndex].
    destruct (Z.ltb_spec (currentStrokeIndex st - 1)
                (Z.of_nat (List.length (strokes st)) - 1)) as [Hin | Hout];
      [ | lia ].
    destruct st; cbn in *; unfold setCurrentStrokeIndex; cbn; f_equal; lia.
  - intros Hroom. unfold handleRedo.
    destruct (Z.ltb_spec (currentStrokeIndex st)
                (Z.of_nat (List.length (strokes st)) - 1)) as [Hin | Hout];
      [ | lia ].
    unfold handleUndo. cbn [strokes currentStrokeIndex setCurrentStrokeIndex].
    destruct (Z.geb_spec (currentStrokeIndex st + 1) 0) as [Hge | Hlt]; [ | lia ].
    destruct st; cbn in *; unfold setCurrentStrokeIndex; cbn; f_equal; lia.
  - rewrite handleRedo_entries. apply handleUndo_entries.
  - rewrite handleUndo_entries. apply handleRedo_entries.
Qed.

Lemma undo_redo_inverse_witness :
  let st := append [mkPoint 2%float 2%float]
              (append [mkPoint 1%float 1%float] initialState) in
  handleRedo (handleUndo st) = st
  /\ handleUndo (handleRedo (handleUndo st)) = handleUndo st.
Proof.
  intros st.
  assert (Hinv : history_inv st) by (unfold history_inv; vm_compute; split; discriminate).
  split.
  - apply (proj1 (undo_redo_inverse st Hinv)). reflexivity.
  - apply (proj1 (proj2 (undo_redo_inverse (handleUndo st)
                           (handleUndo_inv st Hinv)))).
    reflexivity.
Defined.

(* ===================================================================== *)
(** ** A pointer interaction without a move *)

(** C7, as stated, fails: a pointer-down immediately followed by a
    pointer-up, with no move in between, changes the History. *)
Lemma tap_abandoned_counterexample :
  let st := mountEffect 1%float initialState in
  let tap := handlePointerUp
               (handlePointerDown (Some (mkDOMRect 0%float 0%float))
                                  (mkPointerEvent 10%float 10%float) st) in
  strokes st = []
  /\ strokes tap = [mkStroke [mkPoint 10%float 10%float] "#000000" pen
                             5%float 100%float]
  /\ ~ same_history tap st.
Proof.
  cbv zeta. split; [ reflexivity | split; [ reflexivity | ] ].
  intros [Hs _]. vm_compute in Hs. discriminate Hs.
Qed.

(** C7, amended. A pointer-down that finds the canvas rectangle, released
    with no move in between, commits exactly one stroke after the active
    prefix; its only point is the pointer-down point, and the buffer is
    emptied.  A release that finds the buffer empty leaves the History
    unchanged. *)
Theorem tap_commits_single_point_stroke :
  (forall (rect : DOMRect) (e : PointerEvent) (st : State),
      history_inv st ->
      let p := mkPoint ((clientX e - left rect) * pixelRatioRef st)%float
                       ((clientY e - top rect) * pixelRatioRef st)%float in
      let down := handlePointerDown (Some rect) e st in
      let up := handlePointerUp down in
      currentStrokeRef down = [p]
      /\ entries up = activeStrokes st ++ [newStroke down]
      /\ points (newStroke down) = [p]
      /\ activeCount up = activeCount st + 1
      /\ currentStrokeRef up = [])
  /\ (forall st : State,
         currentStrokeRef st = [] -> same_history (handlePointerUp st) st).
Proof.
  split.
  - intros rect e st Hinv p down up.
    assert (Hbuf : currentStrokeRef down = [p]) by reflexivity.
    assert (Hne : currentStrokeRef down <> []) by (rewrite Hbuf; discriminate).
    assert (Hinv' : history_inv down)
      by (apply (same_history_inv st); [ split; reflexivity | exact Hinv ]).
    destruct (handlePointerUp_append down Hinv' Hne) as (He & Ha & _).
    destruct (handlePointerUp_commit down Hne) as (_ & _ & Hempty).
    fold up in He, Ha, Hempty.
    change (activeStrokes down) with (activeStrokes st) in He.
    split; [ exact Hbuf | ].
    split; [ exact He | ].
    split; [ reflexivity | ].
    split; [ | exact Hempty ].
    rewrite Ha, He, length_app. unfold activeStrokes.
    rewrite length_firstn. simpl.
    unfold history_inv, activeCount, entries in *. lia.
  - exact handlePointerUp_empty.
Qed.

Lemma tap_commits_single_point_stroke_witness :
  let st := mountEffect 1%float initialState in
  let down := handlePointerDown (Some (mkDOMRect 0%float 0%float))
                                (mkPointerEvent 10%float 10%float) st in
  let up := handlePointerUp down in
  currentStrokeRef down = [mkPoint ((10 - 0) * 1)%float ((10 - 0) * 1)%float]
  /\ entries up = activeStrokes st ++ [newStroke down]
  /\ points (newStroke down) = [mkPoint ((10 - 0) * 1)%float ((10 - 0) * 1)%float]
  /\ activeCount up = activeCount st + 1
  /\ currentStrokeRef up = [].
Proof.
  apply (proj1 tap_commits_single_point_stroke
           (mkDOMRect 0%float 0%float) (mkPointerEvent 10%float 10%float)
           (mountEffect 1%float initialState)).
  unfold history_inv. vm_compute. split; discriminate.
Defined.

(* ===================================================================== *)
(** ** The replay: stamps and the draw state they are composited with *)

Lemma glRef_onGL (f : GL.Context -> GL.Context) (st : State) (gl : GL.Context) :
  glRef st = Some gl -> glRef (onGL f st) = Some (f gl).
Proof. unfold onGL. intros H. rewrite H. reflexivity. Qed.

Lemma paints_refl (ds : DrawState) (ga : GL.Context) :
  bound_drawState ga = ds -> paints ds ga ga [].
Proof.
  intros H. split; [ exact H | split; [ | constructor ] ].
  rewrite app_nil_r. reflexivity.
Qed.

Lemma paints_trans (ds : DrawState) (ga gb gc : GL.Context)
    (n1 n2 : list GL.Stamp) :
  paints ds ga gb n1 -> paints ds gb gc n2 -> paints ds ga gc (n1 ++ n2).
Proof.
  intros (_ & Hs1 & Hf1) (Hb2 & Hs2 & Hf2).
  split; [ exact Hb2 | split ].
  - rewrite Hs2, Hs1, app_assoc. reflexivity.
  - apply Forall_app. split; assumption.
Qed.

Lemma drawStrokeCircle_paints (ds : DrawState) (c : Point float) (r : float)
    (st : State) (ga : GL.Context) :
  glRef st = Some ga -> bound_drawState ga = ds ->
  exists gb new,
    glRef (drawStrokeCircle c r st) = Some gb /\ paints ds ga gb new.
Proof.
  intros Hgl Hb. unfold drawStrokeCircle.
  destruct (negb _ || negb (programRef st) || negb (positionBufferRef st)).
  - exists ga, []. split; [ exact Hgl | apply paints_refl, Hb ].
  - exists (GL.drawFan c r ga),
      [GL.mkStamp c r (GL.blend ga) (GL.u_color ga) (GL.u_alpha ga)].
    split; [ apply glRef_onGL, Hgl | ].
    split; [ exact Hb | split; [ reflexivity | ] ].
    constructor; [ exact Hb | constructor ].
Qed.

Lemma fold_drawStrokeCircle_paints (ds : DrawState) (r : float)
    (bp : list (Point float)) :
  forall (st : State) (ga : GL.Context),
    glRef st = Some ga -> bound_drawState ga = ds ->
    exists gb new,
      glRef (fold_left (fun s point => drawStrokeCircle point r s) bp st) = Some gb
      /\ paints ds ga gb new.
Proof.
  induction bp as [| p bp IH]; intros st ga Hgl Hb; simpl.
  - exists ga, []. split; [ exact Hgl | apply paints_refl, Hb ].
  - destruct (drawStrokeCircle_paints ds p r st ga Hgl Hb)
      as (g1 & n1 & Hg1 & Hp1).
    destruct (IH _ g1 Hg1 (proj1 Hp1)) as (g2 & n2 & Hg2 & Hp2).
    exists g2, (n1 ++ n2). split; [ exact Hg2 | ].
    eapply paints_trans; eassumption.
Qed.

Lemma replaySegments_paints (ds : DrawState) (lw : float)
    (pts : list (Point float)) :
  forall (st st' : State) (ga : GL.Context),
    glRef st = Some ga -> bound_drawState ga = ds ->
    replaySegments pts lw st = Some st' ->
    exists gb new, glRef st' = Some gb /\ paints ds ga gb new.
Proof.
  induction pts as [| from rest IH]; intros st st' ga Hgl Hb H.
  - simpl in H. injection H as <-.
    exists ga, []. split; [ exact Hgl | apply paints_refl, Hb ].
  - destruct rest as [| to rest'].
    + simpl in H. injection H as <-.
      exists ga, []. split; [ exact Hgl | apply paints_refl, Hb ].
    + cbn [replaySegments] in H.
      destruct (bresenhamPoints from to) as [bp |]; [ | discriminate ].
      destruct (fold_drawStrokeCircle_paints ds (lw / 2)%float bp st ga Hgl Hb)
        as (g1 & n1 & Hg1 & Hp1).
      destruct (IH _ _ g1 Hg1 (proj1 Hp1) H) as (g2 & n2 & Hg2 & Hp2).
      exists g2, (n1 ++ n2). split; [ exact Hg2 | ].
      eapply paints_trans; eassumption.
Qed.

(** The tool test of [redrawCanvas] binds exactly the draw state that
    section 4.3 derives from the stroke, and draws nothing. *)
Lemma replay_configure (stroke : Stroke) (st : State) (ga : GL.Context) :
  glRef st = Some ga ->
  let cfg :=
    match tool stroke with
    | eraser =>
        onGL (GL.uniform1f 1%float)
          (onGL (GL.uniform3f 1%float 1%float 1%float)
             (onGL (GL.blendFunc GL.SRC_ALPHA GL.ONE_MINUS_SRC_ALPHA) st))
    | highlighter =>
        let st := onGL (GL.blendFunc GL.ONE GL.ONE_MINUS_SRC_ALPHA) st in
        let '(r, g, b) := hexToRgb (color stroke) in
        let alpha := (opacity stroke / 100 * tenth)%float in
        onGL (GL.uniform1f alpha)
          (onGL (GL.uniform3f (r * alpha) (g * alpha) (b * alpha))%float st)
    | pen =>
        let st := onGL (GL.blendFunc GL.SRC_ALPHA GL.ONE_MINUS_SRC_ALPHA) st in
        let '(r, g, b) := hexToRgb (color stroke) in
        onGL (GL.uniform1f (opacity stroke / 100)%float)
          (onGL (GL.uniform3f r g b) st)
    end in
  exists gc,
    glRef cfg = Some gc
    /\ bound_drawState gc = derived_drawState stroke
    /\ GL.stamps (GL.framebuffer gc) = GL.stamps (GL.framebuffer ga).
Proof.
  intros Hgl cfg. subst cfg. unfold derived_drawState, spec_drawState.
  destruct (tool stroke).
  - destruct (hexToRgb (color stroke)) as [[r g] b].
    eexists. split; [ repeat apply glRef_onGL; exact Hgl | ].
    split; reflexivity.
  - destruct (hexToRgb (color stroke)) as [[r g] b].
    eexists. split; [ repeat apply glRef_onGL; exact Hgl | ].
    split; reflexivity.
  - eexists. split; [ repeat apply glRef_onGL; exact Hgl | ].
    split; reflexivity.
Qed.

(** Replaying one stroke: the stamps it adds all carry the draw state
    derived from that stroke, which stays bound afterwards. *)
Lemma replayStroke_paints (stroke : Stroke) (st st' : State) (ga : GL.Context) :
  glRef st = Some ga ->
  replayStroke stroke st = Some st' ->
  exists gb new,
    glRef st' = Some gb
    /\ GL.stamps (GL.framebuffer gb) = GL.stamps (GL.framebuffer ga) ++ new
    /\ Forall (fun s => stamp_drawState s = derived_drawState stroke) new
    /\ (points stroke <> [] ->
        bound_drawState gb = derived_drawState stroke).
Proof.
  intros Hgl. unfold replayStroke.
  destruct (points stroke) as [| p rest] eqn:Hpts.
  - simpl. intros H. injection H as <-.
    exists ga, []. rewrite app_nil_r.
    split; [ exact Hgl | split; [ reflexivity | split; [ constructor | ] ] ].
    intros Habs. congruence.
  - change (List.length (p :: rest) =? 0)%nat with false. cbv iota.
    destruct (replay_configure stroke st ga Hgl) as (gc & Hgc & Hbc & Hsc).
    cbv zeta in Hgc.
    match type of Hgc with
    | glRef ?c = _ => set (cfg := c) in *
    end.
    clearbody cfg.
    destruct rest as [| q rest'].
    + intros H. injection H as <-.
      destruct (drawStrokeCircle_paints (derived_drawState stroke) p
                  (lineWidth stroke * pixelRatioRef cfg / 2)%float cfg gc
                  Hgc Hbc) as (gb & new & Hgb & Hb & Hs & Hf).
      exists gb, new. rewrite <- Hsc.
      repeat split; auto.
    + intros H.
      destruct (replaySegments_paints (derived_drawState stroke) _ _ _ _ gc
                  Hgc Hbc H) as (gb & new & Hgb & Hb & Hs & Hf).
      exists gb, new. rewrite <- Hsc.
      repeat split; auto.
Qed.

Lemma forEachStroke_paints (l : list Stroke) :
  forall (st st' : State) (ga : GL.Context),
    glRef st = Some ga ->
    forEachStroke l st = Some st' ->
    exists gb groups,
      glRef st' = Some gb
      /\ GL.stamps (GL.framebuffer gb)
         = GL.stamps (GL.framebuffer ga) ++ List.concat groups
      /\ Forall2
           (fun stroke group =>
              Forall (fun s => stamp_drawState s = derived_drawState stroke) group)
           l groups.
Proof.
  induction l as [| stroke tl IH]; intros st st' ga Hgl H; simpl in H.
  - injection H as <-. exists ga, []. simpl. rewrite app_nil_r.
    split; [ exact Hgl | split; [ reflexivity | constructor ] ].
  - destruct (replayStroke stroke st) as [st1 |] eqn:H1; [ | discriminate ].
    destruct (replayStroke_paints stroke st st1 ga Hgl H1)
      as (g1 & n1 & Hg1 & Hs1 & Hf1 & _).
    destruct (IH st1 st' g1 Hg1 H) as (g2 & groups & Hg2 & Hs2 & Hf2).
    exists g2, (n1 :: groups). simpl.
    split; [ exact Hg2 | split ].
    + rewrite Hs2, Hs1, app_assoc. reflexivity.
    + constructor; assumption.
Qed.

(** The live drawing binds the draw state derived from the selected tool,
    colour and opacity, and stamps under it. *)
Lemma drawLine_paints (from to : Point float) (st st' : State) (ga : GL.Context) :
  glRef st = Some ga -> gl_ready st ->
  drawLine from to st = Some st' ->
  let ds := spec_drawState (selectedTool st) (selectedColor st) (live_opacity st) in
  exists gb new,
    glRef st' = Some gb
    /\ bound_drawState gb = ds
    /\ GL.stamps (GL.framebuffer gb) = GL.stamps (GL.framebuffer ga) ++ new
    /\ Forall (fun s => stamp_drawState s = ds) new.
Proof.
  intros Hgl (Hp & Hb & Hc & Ha) H ds. unfold drawLine in H.
  rewrite Hgl, Hp, Hb, Hc, Ha in H. cbn [negb orb] in H.
  match type of H with
  | context [match selectedTool st with pen => ?a | highlighter => ?b | eraser => ?c end] =>
      set (cfg := match selectedTool st with pen => a | highlighter => b | eraser => c end) in *
  end.
  assert (Hcfg : exists gc, glRef cfg = Some gc /\ bound_drawState gc = ds
                            /\ GL.stamps (GL.framebuffer gc)
                               = GL.stamps (GL.framebuffer ga)).
  { assert (Hsc : forall f, selectedColor (onGL f st) = selectedColor st)
      by (intros f; unfold onGL; rewrite Hgl; reflexivity).
    assert (Hpo : forall f, penOpacity (onGL f st) = penOpacity st)
      by (intros f; unfold onGL; rewrite Hgl; reflexivity).
    assert (Hho : forall f, highlighterOpacity (onGL f st) = highlighterOpacity st)
      by (intros f; unfold onGL; rewrite Hgl; reflexivity).
    subst cfg ds. unfold spec_drawState, live_opacity.
    destruct (selectedTool st); cbv zeta; rewrite ?Hsc, ?Hpo, ?Hho.
    - destruct (hexToRgb (selectedColor st)) as [[r g] b].
      eexists. split; [ repeat apply glRef_onGL; exact Hgl | split; reflexivity ].
    - destruct (hexToRgb (selectedColor st)) as [[r g] b].
      eexists. split; [ repeat apply glRef_onGL; exact Hgl | split; reflexivity ].
    - eexists. split; [ repeat apply glRef_onGL; exact Hgl | split; reflexivity ]. }
  clearbody cfg. destruct Hcfg as (gc & Hgc & Hbc & Hsc).
  destruct (bresenhamPoints from to) as [bp |]; [ | discriminate ].
  injection H as <-.
  destruct (fold_drawStrokeCircle_paints ds (size st * pixelRatioRef st / 2)%float
              bp cfg gc Hgc Hbc) as (gb & new & Hgb & Hb' & Hs & Hf).
  exists gb, new. rewrite <- Hsc.
  split; [ exact Hgb | split; [ exact Hb' | split; assumption ] ].
Qed.

(* ===================================================================== *)
(** ** The replay returns *)

Lemma bresenhamPoints_total (from to : Point float) :
  roundable from -> roundable to ->
  exists bp, bresenhamPoints from to = Some bp.
Proof.
  intros [Hfx Hfy] [Htx Hty]. unfold bresenhamPoints.
  destruct (Math_round (x from)); [ | congruence ].
  destruct (Math_round (y from)); [ | congruence ].
  destruct (Math_round (x to)); [ | congruence ].
  destruct (Math_round (y to)); [ | congruence ].
  eexists. reflexivity.
Qed.

Lemma replaySegments_total (lw : float) (pts : list (Point float)) :
  Forall roundable pts ->
  forall st, exists st', replaySegments pts lw st = Some st'.
Proof.
  induction pts as [| from rest IH]; intros Hr st.
  - eexists. reflexivity.
  - destruct rest as [| to rest'].
    + eexists. reflexivity.
    + cbn [replaySegments].
      inversion Hr as [| ? ? Hfrom Hrest]; subst.
      inversion Hrest as [| ? ? Hto _]; subst.
      destruct (bresenhamPoints_total from to Hfrom Hto) as [bp Hbp].
      rewrite Hbp. apply IH. exact Hrest.
Qed.

Lemma replayStroke_total (stroke : Stroke) (st : State) :
  Forall roundable (points stroke) ->
  exists st', replayStroke stroke st = Some st'.
Proof.
  intros Hr. unfold replayStroke.
  destruct (points stroke) as [| p [| q rest]].
  - eexists. reflexivity.
  - eexists. reflexivity.
  - change (List.length (p :: q :: rest) =? 0)%nat with false. cbv iota.
    apply replaySegments_total. exact Hr.
Qed.

Lemma forEachStroke_total (l : list Stroke) :
  Forall (fun stroke => Forall roundable (points stroke)) l ->
  forall st, exists st', forEachStroke l st = Some st'.
Proof.
  induction l as [| stroke tl IH]; intros Hr st; simpl.
  - eexists. reflexivity.
  - inversion Hr as [| ? ? Hs Htl]; subst.
    destruct (replayStroke_total stroke st Hs) as [st1 H1].
    rewrite H1. apply IH. exact Htl.
Qed.

(* ===================================================================== *)
(** ** The highlighter's alpha and the single tap *)

(** The effective highlighter alpha for each of the 101 integer opacities,
    compared with the cap by evaluation. *)
Lemma highlighter_alpha_table :
  forallb (fun k => (number_of_Z (Z.of_nat k) / 100 * tenth <=? tenth)%float)
          (seq 0 101) = true.
Proof. vm_compute. reflexivity. Qed.

Lemma highlighter_alpha_le (n : Z) :
  0 <= n <= 100 -> (number_of_Z n / 100 * tenth <=? tenth)%float = true.
Proof.
  intros Hn.
  pose proof (proj1 (forallb_forall _ _) highlighter_alpha_table (Z.to_nat n))
    as Htab.
  cbv beta in Htab. rewrite Z2Nat.id in Htab by lia.
  apply Htab. apply in_seq. lia.
Qed.

(** C6. With device pixel ratio 1, the Pen tool and size 5, a pointer-down
    at (10,10) followed at once by a pointer-up commits exactly one stroke
    to the (empty) History, with points [[(10,10)]], and the replay that
    follows draws exactly one stamp, of radius 2.5, centred at (10,10). *)
Theorem single_tap_scenario (st : State) (gl : GL.Context) :
  entries st = [] -> activeCount st = 0 ->
  pixelRatioRef st = 1%float -> selectedTool st = pen -> size st = 5%float ->
  glRef st = Some gl -> gl_ready st ->
  exists st' gl',
    run [PointerDown (Some (mkDOMRect 0%float 0%float))
                     (mkPointerEvent 10%float 10%float);
         PointerUp] st = Some st'
    /\ entries st' = [mkStroke [mkPoint 10%float 10%float] (selectedColor st)
                               pen 5%float (penOpacity st)]
    /\ activeCount st' = 1
    /\ glRef st' = Some gl'
    /\ GL.stamps (GL.framebuffer gl')
       = [GL.mkStamp (mkPoint 10%float 10%float) 2.5%float
                     (GL.SRC_ALPHA, GL.ONE_MINUS_SRC_ALPHA)
                     (hexToRgb (selectedColor st))
                     (penOpacity st / 100)%float].
Proof.
  unfold entries, activeCount, gl_ready.
  intros He Ha Hr Ht Hs Hgl (Hp & Hb & Hc & Hal).
  destruct st as [t c s po ho ss i g pr pb cl al dr lp ratio buf].
  cbn in He, Ha, Hr, Ht, Hs, Hgl, Hp, Hb, Hc, Hal.
  assert (Hi : i = -1) by lia.
  subst. cbn [selectedColor penOpacity].
  destruct (hexToRgb c) as [[r gch] b] eqn:Hrgb.
  eexists. eexists.
  split; [ | split; [ | split; [ | split ] ] ].
  - cbv -[hexToRgb]. rewrite Hrgb. reflexivity.
  - reflexivity.
  - reflexivity.
  - reflexivity.
  - reflexivity.
Qed.

Lemma single_tap_scenario_witness :
  exists st' gl',
    run [PointerDown (Some (mkDOMRect 0%float 0%float))
                     (mkPointerEvent 10%float 10%float);
         PointerUp] (mountEffect 1%float initialState) = Some st'
    /\ entries st' = [mkStroke [mkPoint 10%float 10%float] "#000000"
                               pen 5%float 100%float]
    /\ activeCount st' = 1
    /\ glRef st' = Some gl'
    /\ GL.stamps (GL.framebuffer gl')
       = [GL.mkStamp (mkPoint 10%float 10%float) 2.5%float
                     (GL.SRC_ALPHA, GL.ONE_MINUS_SRC_ALPHA)
                     (hexToRgb "#000000") (100 / 100)%float].
Proof.
  assert (Hgl : exists gl, glRef (mountEffect 1%float initialState) = Some gl)
    by (eexists; reflexivity).
  destruct Hgl as [gl Hgl].
  apply (single_tap_scenario (mountEffect 1%float initialState) gl);
    try reflexivity.
  - exact Hgl.
  - repeat split.
Defined.

(* ===================================================================== *)
(** ** Further properties *)

(** Every sequence of canvas and toolbar events that returns keeps
    [0 <= activeCount <= entries.length] after every event, whatever was
    drawn in between. *)
Theorem events_keep_history_bounds (evs : list Event) :
  forall st sts,
    history_inv st -> trace evs st = Some sts -> Forall history_inv sts.
Proof.
  induction evs as [| ev tl IH]; intros st sts Hinv H; simpl in H.
  - injection H as <-. constructor.
  - destruct (dispatch ev st) as [st1 |] eqn:Hd; [ | discriminate ].
    destruct (trace tl st1) as [sts1 |] eqn:Ht; [ | discriminate ].
    injection H as <-.
    pose proof (dispatch_inv _ _ _ Hd Hinv) as Hinv1.
    constructor; [ exact Hinv1 | apply (IH st1); assumption ].
Qed.

Lemma events_keep_history_bounds_witness :
  exists sts,
    trace [PointerDown (Some (mkDOMRect 0%float 0%float))
                       (mkPointerEvent 0%float 0%float);
           PointerMove (Some (mkDOMRect 0%float 0%float))
                       (mkPointerEvent 3%float 1%float);
           PointerUp; PointerLeave; Undo; Undo; Redo; ToolChange eraser;
           PointerDown (Some (mkDOMRect 0%float 0%float))
                       (mkPointerEvent 2%float 2%float);
           PointerUp; Clear; Redo]
          (mountEffect 2%float initialState) = Some sts
    /\ Forall history_inv sts.
Proof.
  match goal with
  | |- exists sts, trace ?evs ?st = Some sts /\ _ =>
      assert (Hrun : exists sts, trace evs st = Some sts)
        by (eexists; vm_compute; reflexivity);
      destruct Hrun as [sts Hrun];
      exists sts; split; [ exact Hrun | ];
      apply (events_keep_history_bounds evs st sts); [ | exact Hrun ]
  end.
  unfold history_inv. vm_compute. split; discriminate.
Defined.

(** [plotLine] returns exactly one point per step along the major axis:
    [max(|x1-x0|, |y1-y0|) + 1] points. *)
Theorem plotLine_length (x0 y0 x1 y1 : Z) :
  Z.of_nat (List.length (plotLine x0 y0 x1 y1))
  = Z.max (Z.abs (x1 - x0)) (Z.abs (y1 - y0)) + 1.
Proof.
  unfold plotLine.
  destruct (Z.abs (y1 - y0) <? Z.abs (x1 - x0)) eqn:Hshallow;
    [ apply Z.ltb_lt in Hshallow | apply Z.ltb_ge in Hshallow ].
  - destruct (x0 >? x1) eqn:Hdir.
    + apply Z.gtb_lt in Hdir.
      destruct (plotLineLow_spec x1 y1 x0 y0) as (_ & _ & _ & Hn); lia.
    + assert (Hle : x0 <= x1)
        by (destruct (Z.gtb_spec x0 x1); [ discriminate | lia ]).
      destruct (plotLineLow_spec x0 y0 x1 y1) as (_ & _ & _ & Hn); lia.
  - destruct (y0 >? y1) eqn:Hdir.
    + apply Z.gtb_lt in Hdir.
      destruct (plotLineHigh_spec x1 y1 x0 y0) as (_ & _ & _ & Hn); lia.
    + assert (Hle : y0 <= y1)
        by (destruct (Z.gtb_spec y0 y1); [ discriminate | lia ]).
      destruct (plotLineHigh_spec x0 y0 x1 y1) as (_ & _ & _ & Hn); lia.
Qed.


(* ===================================================================== *)
(** ** The drawing functions factor through the GL context *)

Import Ctx Gesture.

Lemma set_glRef_same (st : State) (g : GL.Context) :
  glRef st = Some g -> set_glRef (Some g) st = st.
Proof. intros H. destruct st; simpl in *; subst; reflexivity. Qed.

Lemma onGL_some (f : GL.Context -> GL.Context) (st : State) (g : GL.Context) :
  glRef st = Some g -> onGL f st = set_glRef (Some (f g)) st.
Proof. unfold onGL. intros H. rewrite H. reflexivity. Qed.

(** Rewrites a GL call on a state whose context is known. *)
Ltac onGL_step :=
  match goal with
  | |- context [onGL ?f (set_glRef (Some ?g) ?st)] =>
      rewrite (onGL_some f (set_glRef (Some g) st) g eq_refl)
  end.

Lemma drawStrokeCircle_ctx (c : Point float) (r : float) (st : State)
    (g : GL.Context) :
  glRef st = Some g ->
  drawStrokeCircle c r st
  = set_glRef (Some (stamp (programRef st && positionBufferRef st) c r g)) st.
Proof.
  intros Hgl. unfold drawStrokeCircle, stamp. rewrite Hgl. cbn [negb orb].
  destruct (programRef st), (positionBufferRef st); cbn [negb orb andb].
  - apply onGL_some, Hgl.
  - symmetry. apply set_glRef_same, Hgl.
  - symmetry. apply set_glRef_same, Hgl.
  - symmetry. apply set_glRef_same, Hgl.
Qed.

Lemma fold_drawStrokeCircle_ctx (r : float) (bp : list (Point float)) :
  forall (st : State) (g : GL.Context),
    glRef st = Some g ->
    fold_left (fun s point => drawStrokeCircle point r s) bp st
    = set_glRef (Some (stamp_all (programRef st && positionBufferRef st) r bp g)) st.
Proof.
  induction bp as [| p bp IH]; intros st g Hgl; simpl.
  - symmetry. apply set_glRef_same, Hgl.
  - rewrite (drawStrokeCircle_ctx p r st g Hgl).
    rewrite (IH _ (stamp (programRef st && positionBufferRef st) p r g))
      by reflexivity.
    reflexivity.
Qed.

Lemma replaySegments_step (from to : Point float) (rest : list (Point float))
    (lw : float) (st : State) :
  replaySegments (from :: to :: rest) lw st
  = match bresenhamPoints from to with
    | Some bp =>
        replaySegments (to :: rest) lw
          (fold_left (fun s point => drawStrokeCircle point (lw / 2)%float s) bp st)
    | None => None
    end.
Proof. reflexivity. Qed.

Lemma segments_step (en : bool) (from to : Point float)
    (rest : list (Point float)) (lw : float) (g : GL.Context) :
  segments en (from :: to :: rest) lw g
  = match bresenhamPoints from to with
    | Some bp => segments en (to :: rest) lw (stamp_all en (lw / 2)%float bp g)
    | None => None
    end.
Proof. reflexivity. Qed.

Lemma replaySegments_ctx (lw : float) (pts : list (Point float)) :
  forall (st : State) (g : GL.Context),
    glRef st = Some g ->
    replaySegments pts lw st
    = option_map (fun g' => set_glRef (Some g') st)
        (segments (programRef st && positionBufferRef st) pts lw g).
Proof.
  induction pts as [| from rest IH]; intros st g Hgl.
  - simpl. rewrite set_glRef_same by exact Hgl. reflexivity.
  - destruct rest as [| to rest'].
    + simpl. rewrite set_glRef_same by exact Hgl. reflexivity.
    + rewrite replaySegments_step, segments_step.
      destruct (bresenhamPoints from to) as [bp |]; [ | reflexivity ].
      rewrite (fold_drawStrokeCircle_ctx (lw / 2)%float bp st g Hgl).
      rewrite (IH _ (stamp_all (programRef st && positionBufferRef st)
                       (lw / 2)%float bp g)) by reflexivity.
      cbn [programRef positionBufferRef set_glRef].
      destruct (segments _ (to :: rest') lw _); reflexivity.
Qed.

Lemma replayStroke_ctx (s : Stroke) (st : State) (g : GL.Context) :
  glRef st = Some g ->
  replayStroke s st
  = option_map (fun g' => set_glRef (Some g') st)
      (stroke (programRef st && positionBufferRef st) (pixelRatioRef st) s g).
Proof.
  intros Hgl. unfold replayStroke, stroke.
  destruct (List.length (points s) =? 0)%nat.
  - simpl. rewrite set_glRef_same by exact Hgl. reflexivity.
  - match goal with
    | |- context [match tool s with pen => ?a | highlighter => ?b | eraser => ?c end] =>
        set (cfg := match tool s with pen => a | highlighter => b | eraser => c end)
    end.
    assert (Hcfg : cfg = set_glRef (Some (configure (tool s) (color s) (opacity s) g)) st).
    { subst cfg. unfold configure. destruct (tool s).
      - destruct (hexToRgb (color s)) as [[r gc] b].
        rewrite (onGL_some _ st g Hgl). do 2 onGL_step.
        reflexivity.
      - destruct (hexToRgb (color s)) as [[r gc] b]. cbv zeta.
        rewrite (onGL_some _ st g Hgl). do 2 onGL_step.
        reflexivity.
      - rewrite (onGL_some _ st g Hgl). do 2 onGL_step.
        reflexivity. }
    rewrite Hcfg. clear cfg Hcfg.
    cbn [pixelRatioRef set_glRef].
    destruct (points s) as [| p [| q rest]].
    + simpl. reflexivity.
    + match goal with
      | |- context [drawStrokeCircle p ?r (set_glRef (Some ?g1) ?s1)] =>
          rewrite (drawStrokeCircle_ctx p r (set_glRef (Some g1) s1) g1 eq_refl)
      end.
      reflexivity.
    + match goal with
      | |- context [replaySegments ?l ?lw (set_glRef (Some ?g1) ?s1)] =>
          rewrite (replaySegments_ctx lw l (set_glRef (Some g1) s1) g1 eq_refl)
      end.
      cbn [programRef positionBufferRef set_glRef].
      destruct (segments _ (p :: q :: rest) _ _); reflexivity.
Qed.

Lemma forEachStroke_ctx (l : list Stroke) :
  forall (st : State) (g : GL.Context),
    glRef st = Some g ->
    forEachStroke l st
    = option_map (fun g' => set_glRef (Some g') st)
        (strokes (programRef st && positionBufferRef st) (pixelRatioRef st) l g).
Proof.
  induction l as [| s tl IH]; intros st g Hgl; simpl.
  - rewrite set_glRef_same by exact Hgl. reflexivity.
  - rewrite (replayStroke_ctx s st g Hgl).
    destruct (stroke _ _ s g) as [g1 |]; [ | reflexivity ].
    simpl. rewrite (IH _ g1) by reflexivity.
    cbn [programRef positionBufferRef pixelRatioRef set_glRef].
    destruct (strokes _ _ tl g1); reflexivity.
Qed.

Lemma redrawCanvas_ctx (st : State) (g : GL.Context) :
  glRef st = Some g ->
  colorLocationRef st = true -> alphaLocationRef st = true ->
  redrawCanvas st
  = option_map (fun g' => set_glRef (Some g') st)
      (strokes (programRef st && positionBufferRef st) (pixelRatioRef st)
         (slice (App.strokes st) 0 (currentStrokeIndex st + 1))
         (GL.clear (GL.clearColor 1%float 1%float 1%float 1%float g))).
Proof.
  intros Hgl Hc Ha. unfold redrawCanvas. rewrite Hgl, Hc, Ha. cbn [negb orb].
  rewrite (onGL_some _ st g Hgl). onGL_step.
  match goal with
  | |- context [forEachStroke ?l (set_glRef (Some ?g1) ?s1)] =>
      rewrite (forEachStroke_ctx l (set_glRef (Some g1) s1) g1 eq_refl)
  end.
  cbn [programRef positionBufferRef pixelRatioRef App.strokes
       currentStrokeIndex set_glRef].
  destruct (strokes _ _ _ _); reflexivity.
Qed.

(* ===================================================================== *)
(** ** What the redraw depends on *)

Lemma redrawCanvas_reads (a b : State) :
  glRef a = glRef b ->
  programRef a = programRef b -> positionBufferRef a = positionBufferRef b ->
  colorLocationRef a = colorLocationRef b ->
  alphaLocationRef a = alphaLocationRef b ->
  pixelRatioRef a = pixelRatioRef b ->
  App.strokes a = App.strokes b ->
  currentStrokeIndex a = currentStrokeIndex b ->
  option_map glRef (redrawCanvas a) = option_map glRef (redrawCanvas b).
Proof.
  intros Hgl Hp Hb Hc Ha Hr Hs Hi.
  destruct (glRef a) as [g |] eqn:Hga.
  - symmetry in Hgl.
    destruct (colorLocationRef a) eqn:Hca;
      [ destruct (alphaLocationRef a) eqn:Haa | ].
    + rewrite (redrawCanvas_ctx a g Hga Hca Haa).
      rewrite (redrawCanvas_ctx b g Hgl (eq_sym Hc) (eq_sym Ha)).
      rewrite <- Hp, <- Hb, <- Hr, <- Hs, <- Hi.
      destruct (strokes _ _ _ _); reflexivity.
    + unfold redrawCanvas. rewrite Hga, Hgl, <- Hc, <- Ha, Hca, Haa.
      simpl. congruence.
    + unfold redrawCanvas. rewrite Hga, Hgl, <- Hc, Hca.
      simpl. congruence.
  - unfold redrawCanvas. rewrite Hga, <- Hgl. simpl. congruence.
Qed.

(** The redraw reads each stroke's own stored settings and nothing of the
    live selection: a tool, colour, size or opacity change leaves what a
    redraw paints (and whether it returns) exactly as it was. *)
Theorem redraw_ignores_toolbar_selection (ev : Event) (st st1 : State) :
  toolbar_event ev = true ->
  dispatch ev st = Some st1 ->
  option_map glRef (redrawCanvas st1) = option_map glRef (redrawCanvas st).
Proof.
  intros Hev H.
  destruct ev; try discriminate Hev; simpl in H; injection H as <-.
  - apply redrawCanvas_reads; reflexivity.
  - apply redrawCanvas_reads; reflexivity.
  - apply redrawCanvas_reads; reflexivity.
  - unfold handleOpacityChange.
    destruct (selectedTool st); apply redrawCanvas_reads; reflexivity.
Qed.

Lemma redraw_ignores_toolbar_selection_witness :
  option_map glRef
    (redrawCanvas (setSelectedTool highlighter Demo.painted))
  = option_map glRef (redrawCanvas Demo.painted).
Proof.
  apply (redraw_ignores_toolbar_selection (ToolChange highlighter)
           Demo.painted (setSelectedTool highlighter Demo.painted));
    reflexivity.
Defined.

(* ===================================================================== *)
(** ** Replaying twice *)

Lemma configure_same_buffer (t : Tool) (c : string) (o : float)
    (g g' : GL.Context) :
  same_buffer g g' -> configure t c o g = configure t c o g'.
Proof.
  intros [Hcc Hfb]. destruct g, g'. simpl in Hcc, Hfb. subst.
  unfold configure. destruct t.
  - destruct (hexToRgb c) as [[r gc] b]. reflexivity.
  - destruct (hexToRgb c) as [[r gc] b]. reflexivity.
  - reflexivity.
Qed.

Lemma stroke_same_buffer (en : bool) (ratio : float) (s : Stroke)
    (g g' : GL.Context) :
  same_buffer g g' -> points s <> [] ->
  stroke en ratio s g = stroke en ratio s g'.
Proof.
  intros Hsb Hne. unfold stroke.
  destruct (points s) as [| p rest]; [ congruence | ].
  change (List.length (p :: rest) =? 0)%nat with false. cbv iota zeta.
  rewrite (configure_same_buffer _ _ _ g g' Hsb). reflexivity.
Qed.

Lemma stroke_no_points (en : bool) (ratio : float) (s : Stroke) (g : GL.Context) :
  points s = [] -> stroke en ratio s g = Some g.
Proof. intros H. unfold stroke. rewrite H. reflexivity. Qed.

(** From two contexts with the same colour buffer the replay of a list of
    strokes ends in the same context, unless no stroke has a point, in which
    case both contexts are left as they were. *)
Lemma strokes_same_buffer (en : bool) (ratio : float) (l : list Stroke) :
  forall g g' : GL.Context,
    same_buffer g g' ->
    match strokes en ratio l g, strokes en ratio l g' with
    | Some a, Some b => a = b \/ (a = g /\ b = g')
    | None, None => True
    | _, _ => False
    end.
Proof.
  induction l as [| s tl IH]; intros g g' Hsb; simpl.
  - right. split; reflexivity.
  - destruct (points s) as [| p rest] eqn:Hpts.
    + rewrite !stroke_no_points by exact Hpts. apply IH, Hsb.
    + assert (Hne : points s <> []) by congruence.
      rewrite <- (stroke_same_buffer en ratio s g g' Hsb Hne).
      destruct (stroke en ratio s g) as [h |]; [ | exact I ].
      destruct (strokes en ratio tl h); [ left; reflexivity | exact I ].
Qed.

(** A full redraw of a canvas that was just redrawn changes nothing: the
    colour buffer, the bound draw state and every other field are the same
    after the second redraw as after the first. *)
Theorem redraw_is_idempotent (st st' : State) :
  redrawCanvas st = Some st' -> redrawCanvas st' = Some st'.
Proof.
  intros H.
  destruct (glRef st) as [g |] eqn:Hgl.
  - destruct (colorLocationRef st) eqn:Hc;
      [ destruct (alphaLocationRef st) eqn:Ha | ].
    + rewrite (redrawCanvas_ctx st g Hgl Hc Ha) in H.
      set (c0 := GL.clear (GL.clearColor 1%float 1%float 1%float 1%float g)) in *.
      destruct (strokes _ _ _ c0) as [g1 |] eqn:Hrun; [ | discriminate ].
      simpl in H. injection H as <-.
      rewrite (redrawCanvas_ctx (set_glRef (Some g1) st) g1 eq_refl Hc Ha).
      cbn [programRef positionBufferRef pixelRatioRef App.strokes
           currentStrokeIndex set_glRef].
      set (c1 := GL.clear (GL.clearColor 1%float 1%float 1%float 1%float g1)).
      assert (Hsb : same_buffer c0 c1) by (split; reflexivity).
      pose proof (strokes_same_buffer
                    (programRef st && positionBufferRef st) (pixelRatioRef st)
                    (slice (App.strokes st) 0 (currentStrokeIndex st + 1))
                    c0 c1 Hsb) as Hrel.
      rewrite Hrun in Hrel.
      destruct (strokes _ _ _ c1) as [g2 |]; [ | contradiction ].
      simpl. f_equal.
      destruct Hrel as [<- | [Hg1 Hg2]]; [ reflexivity | ].
      subst g1 g2. subst c1. reflexivity.
    + unfold redrawCanvas in H. rewrite Hgl, Hc, Ha in H.
      simpl in H. injection H as <-.
      unfold redrawCanvas. rewrite Hgl, Hc, Ha. reflexivity.
    + unfold redrawCanvas in H. rewrite Hgl, Hc in H.
      simpl in H. injection H as <-.
      unfold redrawCanvas. rewrite Hgl, Hc. reflexivity.
  - unfold redrawCanvas in H. rewrite Hgl in H. injection H as <-.
    unfold redrawCanvas. rewrite Hgl. reflexivity.
Qed.

Lemma redraw_is_idempotent_witness :
  exists st', redrawCanvas Demo.painted = Some st'
              /\ redrawCanvas st' = Some st'.
Proof.
  assert (Hrun : exists st', redrawCanvas Demo.painted = Some st')
    by (eexists; vm_compute; reflexivity).
  destruct Hrun as [st' Hrun].
  exists st'. split; [ exact Hrun | ].
  apply (redraw_is_idempotent Demo.painted st' Hrun).
Defined.

(* ===================================================================== *)
(** ** Undo and the canvas *)

Lemma strokes_app (en : bool) (ratio : float) (l1 l2 : list Stroke) :
  forall g : GL.Context,
    strokes en ratio (l1 ++ l2) g
    = match strokes en ratio l1 g with
      | Some g1 => strokes en ratio l2 g1
      | None => None
      end.
Proof.
  induction l1 as [| s tl IH]; intros g; simpl.
  - reflexivity.
  - destruct (stroke en ratio s g) as [h |]; [ apply IH | reflexivity ].
Qed.

(** The active prefix before an undo is the active prefix after it followed
    by the stroke that was undone. *)
Lemma activeStrokes_undo (st : State) :
  history_inv st -> 0 < activeCount st ->
  exists undone,
    activeStrokes st = activeStrokes (handleUndo st) ++ [undone].
Proof.
  unfold history_inv, activeStrokes, activeCount, entries. intros Hinv Hpos.
  rewrite handleUndo_entries, handleUndo_index.
  destruct (Z.geb_spec (currentStrokeIndex st) 0) as [Hge | Hlt]; [ | lia ].
  replace (currentStrokeIndex st - 1 + 1) with (currentStrokeIndex st) by lia.
  replace (Z.to_nat (currentStrokeIndex st + 1))
    with (S (Z.to_nat (currentStrokeIndex st))) by lia.
  set (k := Z.to_nat (currentStrokeIndex st)).
  assert (Hk : (k < List.length (App.strokes st))%nat) by lia.
  destruct (App.strokes st) as [| d l'] eqn:Hl; [ simpl in Hk; lia | ].
  exists (last (firstn (S k) (d :: l')) d).
  rewrite <- (removelast_firstn (d :: l') Hk).
  apply app_removelast_last. simpl. discriminate.
Qed.

(** After an undo the redraw paints the canvas of before without the stamps
    of the undone stroke: what was painted for the earlier strokes is the
    same, stamp for stamp. *)
Theorem undo_removes_last_stroke_stamps (st a : State) (gl : GL.Context) :
  history_inv st -> 0 < activeCount st ->
  glRef st = Some gl ->
  colorLocationRef st = true -> alphaLocationRef st = true ->
  redrawCanvas st = Some a ->
  exists b ga gb undone group,
    redrawCanvas (handleUndo st) = Some b
    /\ glRef a = Some ga /\ glRef b = Some gb
    /\ activeStrokes st = activeStrokes (handleUndo st) ++ [undone]
    /\ GL.stamps (GL.framebuffer ga) = GL.stamps (GL.framebuffer gb) ++ group
    /\ Forall (fun s => stamp_drawState s = derived_drawState undone) group.
Proof.
  intros Hinv Hpos Hgl Hc Ha H.
  destruct (activeStrokes_undo st Hinv Hpos) as [undone Hact].
  assert (Hinv' : history_inv (handleUndo st)) by (apply handleUndo_inv, Hinv).
  rewrite (redrawCanvas_ctx st gl Hgl Hc Ha) in H.
  rewrite slice_prefix in H by exact Hinv.
  fold (activeCount st) in H. fold (entries st) in H. fold (activeStrokes st) in H.
  rewrite Hact, strokes_app in H.
  set (en := programRef st && positionBufferRef st) in *.
  set (c0 := GL.clear (GL.clearColor 1%float 1%float 1%float 1%float gl)) in *.
  destruct (strokes en (pixelRatioRef st) (activeStrokes (handleUndo st)) c0)
    as [gb |] eqn:Hprefix; [ | discriminate ].
  simpl in H.
  destruct (stroke en (pixelRatioRef st) undone gb) as [ga |] eqn:Hlast;
    [ | discriminate ].
  simpl in H. injection H as <-.
  assert (Hsame : handleUndo st
                  = setCurrentStrokeIndex (currentStrokeIndex (handleUndo st)) st)
    by (unfold handleUndo; destruct (currentStrokeIndex st >=? 0);
        [ reflexivity | destruct st; reflexivity ]).
  assert (Hb : redrawCanvas (handleUndo st)
               = Some (set_glRef (Some gb) (handleUndo st))).
  { rewrite (redrawCanvas_ctx (handleUndo st) gl);
      try (rewrite Hsame; assumption).
    rewrite slice_prefix by exact Hinv'.
    fold (activeCount (handleUndo st)). fold (entries (handleUndo st)).
    fold (activeStrokes (handleUndo st)).
    replace (programRef (handleUndo st)) with (programRef st)
      by (rewrite Hsame; reflexivity).
    replace (positionBufferRef (handleUndo st)) with (positionBufferRef st)
      by (rewrite Hsame; reflexivity).
    replace (pixelRatioRef (handleUndo st)) with (pixelRatioRef st)
      by (rewrite Hsame; reflexivity).
    fold en. fold c0. rewrite Hprefix. reflexivity. }
  assert (Hreplay : replayStroke undone (set_glRef (Some gb) st)
                    = Some (set_glRef (Some ga) st)).
  { rewrite (replayStroke_ctx undone (set_glRef (Some gb) st) gb eq_refl).
    cbn [programRef positionBufferRef pixelRatioRef set_glRef].
    fold en. rewrite Hlast. reflexivity. }
  destruct (replayStroke_paints undone (set_glRef (Some gb) st)
              (set_glRef (Some ga) st) gb eq_refl Hreplay)
    as (ga' & group & Hga' & Hstamps & Hall & _).
  cbn [glRef set_glRef] in Hga'. injection Hga' as <-.
  exists (set_glRef (Some gb) (handleUndo st)), ga, gb, undone, group.
  repeat split; try assumption; reflexivity.
Qed.

Lemma undo_removes_last_stroke_stamps_witness :
  exists a b ga gb undone group,
    redrawCanvas Demo.painted = Some a
    /\ redrawCanvas (handleUndo Demo.painted) = Some b
    /\ glRef a = Some ga /\ glRef b = Some gb
    /\ activeStrokes Demo.painted
       = activeStrokes (handleUndo Demo.painted) ++ [undone]
    /\ GL.stamps (GL.framebuffer ga) = GL.stamps (GL.framebuffer gb) ++ group
    /\ Forall (fun s => stamp_drawState s = derived_drawState undone) group.
Proof.
  assert (Hrun : exists a, redrawCanvas Demo.painted = Some a)
    by (eexists; vm_compute; reflexivity).
  destruct Hrun as [a Hrun].
  assert (Hgl : exists gl, glRef Demo.painted = Some gl)
    by (eexists; reflexivity).
  destruct Hgl as [gl Hgl].
  assert (Hinv : history_inv Demo.painted)
    by (unfold history_inv; vm_compute; split; discriminate).
  destruct (undo_removes_last_stroke_stamps Demo.painted a gl Hinv
              eq_refl Hgl eq_refl eq_refl Hrun)
    as (b & ga & gb & undone & group & H).
  exists a, b, ga, gb, undone, group. split; [ exact Hrun | exact H ].
Defined.

(* ===================================================================== *)
(** ** Gestures: what the pointer handlers record and draw *)

Lemma run_app (l1 l2 : list Event) :
  forall st,
    run (l1 ++ l2) st
    = match run l1 st with
      | Some s => run l2 s
      | None => None
      end.
Proof.
  induction l1 as [| ev tl IH]; intros st; simpl.
  - reflexivity.
  - destruct (dispatch ev st); [ apply IH | reflexivity ].
Qed.

Lemma drawLine_ctx (from to : Point float) (st : State) (g : GL.Context) :
  glRef st = Some g -> gl_ready st ->
  drawLine from to st
  = option_map (fun g' => set_glRef (Some g') st)
      (line true (pixelRatioRef st) (selectedTool st) (selectedColor st)
            (live_opacity st) (size st) from to g).
Proof.
  intros Hgl (Hp & Hb & Hc & Ha). unfold drawLine, line.
  rewrite Hgl, Hp, Hb, Hc, Ha. cbn [negb orb].
  match goal with
  | |- context [match selectedTool st with pen => ?a | highlighter => ?b | eraser => ?c end] =>
      set (cfg := match selectedTool st with pen => a | highlighter => b | eraser => c end)
  end.
  assert (Hcfg : cfg = set_glRef
                         (Some (configure (selectedTool st) (selectedColor st)
                                          (live_opacity st) g)) st).
  { subst cfg. unfold configure, live_opacity. destruct (selectedTool st).
    - rewrite (onGL_some _ st g Hgl). cbn [selectedColor penOpacity set_glRef].
      destruct (hexToRgb (selectedColor st)) as [[r gc] b].
      do 2 onGL_step. reflexivity.
    - cbv zeta. rewrite (onGL_some _ st g Hgl).
      cbn [selectedColor highlighterOpacity set_glRef].
      destruct (hexToRgb (selectedColor st)) as [[r gc] b].
      do 2 onGL_step. reflexivity.
    - rewrite (onGL_some _ st g Hgl). do 2 onGL_step. reflexivity. }
  rewrite Hcfg. clear cfg Hcfg.
  destruct (bresenhamPoints from to) as [bp |]; [ | reflexivity ].
  change (fun (s : State) (point : Point float) =>
            drawCircle point (size st * pixelRatioRef st / 2)%float s)
    with (fun (s : State) (point : Point float) =>
            drawStrokeCircle point (size st * pixelRatioRef st / 2)%float s).
  match goal with
  | |- context [fold_left ?f bp (set_glRef (Some ?g1) st)] =>
      rewrite (fold_drawStrokeCircle_ctx (size st * pixelRatioRef st / 2)%float
                 bp (set_glRef (Some g1) st) g1 eq_refl)
  end.
  cbn [programRef positionBufferRef set_glRef]. rewrite Hp, Hb. reflexivity.
Qed.

Lemma drawing_frame_refl (st : State) : drawing_frame st st.
Proof. destruct st; reflexivity. Qed.

Lemma drawing_frame_trans (a b c : State) :
  drawing_frame a b -> drawing_frame b c -> drawing_frame a c.
Proof.
  unfold drawing_frame, set_currentStrokeRef, set_lastPointRef, set_glRef.
  intros Hab Hbc. destruct a, b, c; simpl in *.
  injection Hab; intros; subst. injection Hbc; intros; subst. reflexivity.
Qed.

Lemma only_gl_drawing_frame (a b : State) : only_gl a b -> drawing_frame a b.
Proof.
  unfold only_gl, drawing_frame. intros H. rewrite H. destruct a; reflexivity.
Qed.

(** A pointer-move while drawing, over the mounted canvas: the segment from
    the last point is drawn, and the sample is pushed. *)
Lemma handlePointerMove_drawing (rect : DOMRect) (e : PointerEvent)
    (st st' : State) :
  isDrawingRef st = true ->
  handlePointerMove (Some rect) e st = Some st' ->
  drawing_frame st st'
  /\ isDrawingRef st' = true
  /\ lastPointRef st' = canvasPoint rect (pixelRatioRef st) e
  /\ currentStrokeRef st'
     = currentStrokeRef st ++ [canvasPoint rect (pixelRatioRef st) e].
Proof.
  intros Hd H. unfold handlePointerMove in H. rewrite Hd in H. cbn [negb] in H.
  fold (canvasPoint rect (pixelRatioRef st) e) in H.
  destruct (drawLine (lastPointRef st) (canvasPoint rect (pixelRatioRef st) e) st)
    as [sd |] eqn:Hdraw; [ | discriminate ].
  injection H as <-.
  pose proof (only_gl_drawLine _ _ _ _ Hdraw) as Hgl.
  unfold only_gl in Hgl.
  split; [ | split; [ | split ] ].
  - unfold drawing_frame. rewrite Hgl. destruct st; reflexivity.
  - rewrite Hgl. simpl. exact Hd.
  - reflexivity.
  - rewrite Hgl. reflexivity.
Qed.

Lemma drawing_frame_fields (a b : State) :
  drawing_frame a b ->
  isDrawingRef b = isDrawingRef a
  /\ pixelRatioRef b = pixelRatioRef a
  /\ selectedTool b = selectedTool a /\ selectedColor b = selectedColor a
  /\ size b = size a /\ penOpacity b = penOpacity a
  /\ highlighterOpacity b = highlighterOpacity a
  /\ same_history b a
  /\ (programRef b = programRef a /\ positionBufferRef b = positionBufferRef a
      /\ colorLocationRef b = colorLocationRef a
      /\ alphaLocationRef b = alphaLocationRef a).
Proof.
  unfold drawing_frame. intros H. rewrite H. unfold same_history.
  repeat split.
Qed.

(** A run of pointer-moves while drawing pushes the samples in order. *)
Lemma moves_record (rect : DOMRect) (es : list PointerEvent) :
  forall st st',
    isDrawingRef st = true ->
    run (map (PointerMove (Some rect)) es) st = Some st' ->
    drawing_frame st st'
    /\ currentStrokeRef st'
       = currentStrokeRef st ++ map (canvasPoint rect (pixelRatioRef st)) es.
Proof.
  induction es as [| e es IH]; intros st st' Hd H; simpl in H.
  - injection H as <-. split; [ apply drawing_frame_refl | ].
    simpl. rewrite app_nil_r. reflexivity.
  - destruct (handlePointerMove (Some rect) e st) as [s1 |] eqn:H1;
      [ | discriminate ].
    destruct (handlePointerMove_drawing rect e st s1 Hd H1)
      as (Hf1 & Hd1 & _ & Hb1).
    destruct (IH s1 st' Hd1 H) as (Hf & Hb).
    destruct (drawing_frame_fields st s1 Hf1) as (_ & Hr & _).
    split; [ eapply drawing_frame_trans; eassumption | ].
    rewrite Hb, Hb1, Hr, <- app_assoc. reflexivity.
Qed.

(** The stroke a release commits carries the tool, the size and the opacity
    of the selected tool at release, and white in place of the colour when
    the tool is the eraser. *)
Lemma newStroke_fields (st : State) :
  newStroke st
  = mkStroke (currentStrokeRef st)
      (if Tool_eqb (selectedTool st) eraser then "#FFFFFF"%string
       else selectedColor st)
      (selectedTool st) (size st) (live_opacity st).
Proof.
  unfold newStroke, live_opacity. destruct (selectedTool st); reflexivity.
Qed.

(** A drag over the mounted canvas, released: the History gets exactly one
    stroke after the active prefix, whose points are the pointer-down sample
    followed by every pointer-move sample, in order, each converted with the
    canvas rectangle and the pixel ratio; the in-progress buffer is left
    empty. *)
Theorem drag_commits_samples_in_order (rect : DOMRect) (e0 : PointerEvent)
    (es : list PointerEvent) (st st' : State) :
  history_inv st ->
  run (drag rect e0 es ++ [PointerUp]) st = Some st' ->
  entries st'
  = activeStrokes st
      ++ [mkStroke (map (canvasPoint rect (pixelRatioRef st)) (e0 :: es))
            (if Tool_eqb (selectedTool st) eraser then "#FFFFFF"%string
             else selectedColor st)
            (selectedTool st) (size st) (live_opacity st)]
  /\ activeCount st' = activeCount st + 1
  /\ currentStrokeRef st' = [].
Proof.
  intros Hinv H. unfold drag in H.
  rewrite <- app_comm_cons in H. cbn [run dispatch] in H.
  rewrite run_app in H.
  set (sd := handlePointerDown (Some rect) e0 st) in *.
  destruct (run (map (PointerMove (Some rect)) es) sd) as [sm |] eqn:Hm;
    [ | discriminate ].
  assert (Hsd : isDrawingRef sd = true) by reflexivity.
  destruct (moves_record rect es sd sm Hsd Hm) as (Hf & Hb).
  destruct (drawing_frame_fields sd sm Hf)
    as (_ & _ & Ht & Hcol & Hsz & Hpo & Hho & Hh & _).
  change (currentStrokeRef sd) with [canvasPoint rect (pixelRatioRef st) e0] in Hb.
  change (pixelRatioRef sd) with (pixelRatioRef st) in Hb.
  simpl app in Hb.
  assert (Hne : currentStrokeRef sm <> []) by (rewrite Hb; discriminate).
  assert (Hinvm : history_inv sm).
  { apply (same_history_inv st); [ | exact Hinv ].
    destruct Hh as [Hs Hi]. split; [ rewrite Hs | rewrite Hi ]; reflexivity. }
  cbn [run dispatch] in H.
  assert (Hup : exists su, redrawEffect (handlePointerUp sm) = Some su /\ su = st').
  { destruct (currentStrokeRef sm) as [| p ps] eqn:Hbuf; [ congruence | ].
    cbn [List.length Nat.ltb Nat.leb] in H.
    destruct (redrawEffect (handlePointerUp sm)) as [su |]; [ | discriminate ].
    injection H as <-. exists su. split; reflexivity. }
  destruct Hup as (su & Heff & <-).
  apply only_gl_redrawEffect in Heff.
  pose proof (only_gl_history _ _ Heff) as [Hs Hi].
  destruct (handlePointerUp_append sm Hinvm Hne) as (He & Ha & _).
  destruct (handlePointerUp_commit sm Hne) as (_ & _ & Hempty).
  unfold entries, activeCount in *.
  assert (Hact : activeStrokes sm = activeStrokes st).
  { unfold activeStrokes, activeCount, entries.
    destruct Hh as [Hs' Hi']. rewrite Hs', Hi'. reflexivity. }
  split; [ | split ].
  - rewrite Hs, He, Hact, newStroke_fields, Hb.
    unfold live_opacity. rewrite Ht, Hcol, Hsz, Hpo, Hho. reflexivity.
  - rewrite Hi, Ha, He, length_app, Hact. unfold activeStrokes.
    rewrite length_firstn. simpl.
    unfold history_inv, activeCount, entries in *. lia.
  - unfold only_gl in Heff. rewrite Heff. simpl. exact Hempty.
Qed.

Lemma drag_commits_samples_in_order_witness :
  exists st',
    run (drag (mkDOMRect 0%float 0%float) (mkPointerEvent 0%float 0%float)
              [mkPointerEvent 10%float 0%float] ++ [PointerUp])
        (mountEffect 1%float initialState) = Some st'
    /\ entries st'
       = [mkStroke [mkPoint 0%float 0%float; mkPoint 10%float 0%float]
                   "#000000" pen 5%float 100%float].
Proof.
  match goal with
  | |- exists st', run ?evs ?st = Some st' /\ _ =>
      assert (Hrun : exists st', run evs st = Some st')
        by (eexists; vm_compute; reflexivity);
      destruct Hrun as [st' Hrun]; exists st'; split; [ exact Hrun | ];
      assert (Hinv : history_inv st)
        by (unfold history_inv; vm_compute; split; discriminate);
      destruct (drag_commits_samples_in_order _ _ _ st st' Hinv Hrun)
        as (He & _ & _)
  end.
  rewrite He. reflexivity.
Defined.

(* ===================================================================== *)
(** ** The live drawing and the replay of the committed stroke *)

Lemma configure_idem (t : Tool) (c : string) (o : float) (g : GL.Context) :
  configure t c o (configure t c o g) = configure t c o g.
Proof.
  unfold configure. destruct t.
  - destruct (hexToRgb c) as [[r gc] b]. reflexivity.
  - destruct (hexToRgb c) as [[r gc] b]. reflexivity.
  - reflexivity.
Qed.

(** Stamping does not disturb a draw state that is already bound. *)
Lemma configure_stamp (t : Tool) (c : string) (o : float) (en : bool)
    (p : Point float) (r : float) (g : GL.Context) :
  configure t c o g = g -> configure t c o (stamp en p r g) = stamp en p r g.
Proof.
  intros H. unfold stamp. destruct en; [ | exact H ].
  destruct g as [bl col al cc fb]. unfold configure in *.
  destruct t.
  - destruct (hexToRgb c) as [[rr gc] b].
    cbv [GL.uniform1f GL.uniform3f GL.blendFunc GL.drawFan GL.blend GL.u_color
         GL.u_alpha GL.clear_color GL.framebuffer] in *.
    injection H as Hbl Hcol Hal. rewrite <- Hbl, <- Hcol, <- Hal. reflexivity.
  - destruct (hexToRgb c) as [[rr gc] b].
    cbv [GL.uniform1f GL.uniform3f GL.blendFunc GL.drawFan GL.blend GL.u_color
         GL.u_alpha GL.clear_color GL.framebuffer] in *.
    injection H as Hbl Hcol Hal. rewrite <- Hbl, <- Hcol, <- Hal. reflexivity.
  - cbv [GL.uniform1f GL.uniform3f GL.blendFunc GL.drawFan GL.blend GL.u_color
         GL.u_alpha GL.clear_color GL.framebuffer] in *.
    injection H as Hbl Hcol Hal. rewrite <- Hbl, <- Hcol, <- Hal. reflexivity.
Qed.

Lemma configure_stamp_all (t : Tool) (c : string) (o : float) (en : bool)
    (r : float) (bp : list (Point float)) :
  forall g : GL.Context,
    configure t c o g = g ->
    configure t c o (stamp_all en r bp g) = stamp_all en r bp g.
Proof.
  induction bp as [| p bp IH]; intros g H; simpl.
  - exact H.
  - apply IH. apply configure_stamp. exact H.
Qed.

(** Appending one sample to a point sequence appends one segment to what the
    replay loop draws. *)
Lemma segments_snoc (en : bool) (lw : float) (l : list (Point float))
    (p q : Point float) :
  forall g : GL.Context,
    segments en ((l ++ [p]) ++ [q]) lw g
    = match segments en (l ++ [p]) lw g with
      | Some g1 =>
          match bresenhamPoints p q with
          | Some bp => Some (stamp_all en (lw / 2)%float bp g1)
          | None => None
          end
      | None => None
      end.
Proof.
  induction l as [| a l IH]; intros g.
  - simpl. destruct (bresenhamPoints p q); reflexivity.
  - destruct l as [| b l'].
    + change (([a] ++ [p]) ++ [q]) with (a :: p :: [q]).
      change ([a] ++ [p]) with (a :: [p]).
      rewrite !segments_step.
      destruct (bresenhamPoints a p) as [bp |]; [ | reflexivity ].
      exact (IH (stamp_all en (lw / 2)%float bp g)).
    + change (((a :: b :: l') ++ [p]) ++ [q])
        with (a :: b :: ((l' ++ [p]) ++ [q])).
      change ((a :: b :: l') ++ [p]) with (a :: b :: (l' ++ [p])).
      rewrite !segments_step.
      destruct (bresenhamPoints a b) as [bp |]; [ | reflexivity ].
      exact (IH (stamp_all en (lw / 2)%float bp g)).
Qed.

Lemma handlePointerMove_ctx (rect : DOMRect) (e : PointerEvent) (st : State)
    (g : GL.Context) :
  isDrawingRef st = true -> glRef st = Some g -> gl_ready st ->
  handlePointerMove (Some rect) e st
  = option_map
      (fun g' =>
         set_currentStrokeRef
           (currentStrokeRef st ++ [canvasPoint rect (pixelRatioRef st) e])
           (set_lastPointRef (canvasPoint rect (pixelRatioRef st) e)
              (set_glRef (Some g') st)))
      (line true (pixelRatioRef st) (selectedTool st) (selectedColor st)
            (live_opacity st) (size st) (lastPointRef st)
            (canvasPoint rect (pixelRatioRef st) e) g).
Proof.
  intros Hd Hgl Hready. unfold handlePointerMove. rewrite Hd. cbn [negb].
  fold (canvasPoint rect (pixelRatioRef st) e).
  rewrite (drawLine_ctx _ _ st g Hgl Hready).
  destruct (line _ _ _ _ _ _ _ _ g); reflexivity.
Qed.

(** While the pointer moves, the context the live drawing has reached is
    the one the replay loop reaches on the samples recorded so far, once the
    draw state is bound. *)
Lemma moves_draw (rect : DOMRect) (t : Tool) (c : string) (o sz ratio : float)
    (g0 : GL.Context) (es : list PointerEvent) :
  forall (st st' : State) (g : GL.Context) (l : list (Point float))
         (p : Point float),
    isDrawingRef st = true -> glRef st = Some g -> gl_ready st ->
    selectedTool st = t -> selectedColor st = c -> live_opacity st = o ->
    size st = sz -> pixelRatioRef st = ratio ->
    currentStrokeRef st = l ++ [p] -> lastPointRef st = p ->
    segments true (l ++ [p]) (sz * ratio)%float (configure t c o g0)
    = Some (configure t c o g) ->
    run (map (PointerMove (Some rect)) es) st = Some st' ->
    exists g',
      glRef st' = Some g'
      /\ segments true (currentStrokeRef st') (sz * ratio)%float
           (configure t c o g0)
         = Some (configure t c o g')
      /\ (es <> [] -> configure t c o g' = g').
Proof.
  induction es as [| e es IH];
    intros st st' g l p Hd Hgl Hready Ht Hc Ho Hsz Hr Hbuf Hlast Hseg H.
  - simpl in H. injection H as <-. exists g.
    split; [ exact Hgl | split; [ rewrite Hbuf; exact Hseg | congruence ] ].
  - simpl in H.
    rewrite (handlePointerMove_ctx rect e st g Hd Hgl Hready) in H.
    rewrite Ht, Hc, Ho, Hsz, Hr, Hlast, Hbuf in H.
    set (q := canvasPoint rect ratio e) in *.
    unfold line in H.
    destruct (bresenhamPoints p q) as [bp |] eqn:Hbp; [ | discriminate ].
    cbn [option_map] in H.
    set (g1 := stamp_all true (sz * ratio / 2)%float bp (configure t c o g)) in *.
    assert (Hcfg1 : configure t c o g1 = g1)
      by (apply configure_stamp_all, configure_idem).
    set (s1 := set_currentStrokeRef ((l ++ [p]) ++ [q])
                 (set_lastPointRef q (set_glRef (Some g1) st))) in *.
    assert (Hseg1 : segments true ((l ++ [p]) ++ [q]) (sz * ratio)%float
                      (configure t c o g0)
                    = Some (configure t c o g1)).
    { rewrite segments_snoc, Hseg, Hbp, Hcfg1. reflexivity. }
    assert (Hd1 : isDrawingRef s1 = true) by exact Hd.
    assert (Hgl1 : glRef s1 = Some g1) by reflexivity.
    assert (Hready1 : gl_ready s1) by exact Hready.
    assert (Ht1 : selectedTool s1 = t) by exact Ht.
    assert (Hc1 : selectedColor s1 = c) by exact Hc.
    assert (Ho1 : live_opacity s1 = o) by exact Ho.
    assert (Hsz1 : size s1 = sz) by exact Hsz.
    assert (Hr1 : pixelRatioRef s1 = ratio) by exact Hr.
    destruct (IH s1 st' g1 (l ++ [p]) q Hd1 Hgl1 Hready1 Ht1 Hc1 Ho1 Hsz1 Hr1
                eq_refl eq_refl Hseg1 H) as (g' & Hg' & Hseg' & Hcfg').
    exists g'. split; [ exact Hg' | split; [ exact Hseg' | intros _ ] ].
    destruct es as [| e' es'].
    + simpl in H. injection H as <-. rewrite Hgl1 in Hg'.
      injection Hg' as <-. exact Hcfg1.
    + apply Hcfg'. discriminate.
Qed.

Lemma configure_newStroke (st : State) (g : GL.Context) :
  configure (tool (newStroke st)) (color (newStroke st)) (opacity (newStroke st)) g
  = configure (selectedTool st) (selectedColor st) (live_opacity st) g.
Proof.
  rewrite newStroke_fields. cbn [tool color opacity].
  unfold configure. destruct (selectedTool st); reflexivity.
Qed.

(** For a drag with at least one pointer-move on a canvas whose GL objects
    are all there, replaying the stroke that the release will commit, on
    the canvas as it was at pointer-down, gives exactly the context the live
    drawing has left: the same stamps in the same order under the same draw
    state. *)
Theorem live_drawing_matches_replay (rect : DOMRect) (e0 : PointerEvent)
    (es : list PointerEvent) (st sm : State) (g0 : GL.Context) :
  es <> [] ->
  glRef st = Some g0 -> gl_ready st ->
  run (drag rect e0 es) st = Some sm ->
  exists r, replayStroke (newStroke sm) st = Some r /\ glRef r = glRef sm.
Proof.
  intros Hes Hgl Hready H. unfold drag in H. cbn [run dispatch] in H.
  set (sd := handlePointerDown (Some rect) e0 st) in *.
  set (p0 := canvasPoint rect (pixelRatioRef st) e0).
  assert (Hsd : isDrawingRef sd = true) by reflexivity.
  destruct (moves_record rect es sd sm Hsd H) as (Hf & Hb).
  destruct (drawing_frame_fields sd sm Hf)
    as (_ & Hr & Ht & Hcol & Hsz & Hpo & Hho & _ & _).
  change (pixelRatioRef sd) with (pixelRatioRef st) in Hr, Hb.
  change (selectedTool sd) with (selectedTool st) in Ht.
  change (selectedColor sd) with (selectedColor st) in Hcol.
  change (size sd) with (size st) in Hsz.
  change (penOpacity sd) with (penOpacity st) in Hpo.
  change (highlighterOpacity sd) with (highlighterOpacity st) in Hho.
  destruct (moves_draw rect (selectedTool st) (selectedColor st)
              (live_opacity st) (size st) (pixelRatioRef st) g0 es
              sd sm g0 [] p0) as (gm & Hgm & Hseg & Hcfg);
    try reflexivity; try assumption.
  specialize (Hcfg Hes). rewrite Hcfg in Hseg.
  exists (set_glRef (Some gm) st). split; [ | rewrite Hgm; reflexivity ].
  rewrite (replayStroke_ctx (newStroke sm) st g0 Hgl).
  destruct Hready as (Hp & Hbuf & _ & _). rewrite Hp, Hbuf. cbn [andb].
  unfold stroke. rewrite configure_newStroke.
  assert (Hlo : live_opacity sm = live_opacity st)
    by (unfold live_opacity; rewrite Ht, Hpo, Hho; reflexivity).
  rewrite Ht, Hcol, Hlo.
  replace (lineWidth (newStroke sm)) with (size st)
    by (rewrite newStroke_fields; cbn [lineWidth]; symmetry; exact Hsz).
  replace (points (newStroke sm)) with (currentStrokeRef sm)
    by (rewrite newStroke_fields; reflexivity).
  change (currentStrokeRef sd) with [p0] in Hb.
  destruct es as [| e1 es']; [ congruence | ].
  rewrite Hb in *. cbn [map app List.length Nat.eqb].
  cbn [map app] in Hseg. rewrite Hseg. reflexivity.
Qed.

Lemma live_drawing_matches_replay_witness :
  exists sm r,
    run (drag (mkDOMRect 0%float 0%float) (mkPointerEvent 0%float 0%float)
              [mkPointerEvent 6%float 2%float; mkPointerEvent 6%float 9%float])
        (mountEffect 2%float initialState) = Some sm
    /\ replayStroke (newStroke sm) (mountEffect 2%float initialState) = Some r
    /\ glRef r = glRef sm.
Proof.
  assert (Hrun : exists sm,
             run (drag (mkDOMRect 0%float 0%float)
                       (mkPointerEvent 0%float 0%float)
                       [mkPointerEvent 6%float 2%float;
                        mkPointerEvent 6%float 9%float])
                 (mountEffect 2%float initialState) = Some sm)
    by (eexists; vm_compute; reflexivity).
  destruct Hrun as [sm Hrun].
  assert (Hgl : exists g0, glRef (mountEffect 2%float initialState) = Some g0)
    by (eexists; reflexivity).
  destruct Hgl as [g0 Hgl].
  assert (Hes : [mkPointerEvent 6%float 2%float; mkPointerEvent 6%float 9%float]
                <> []) by discriminate.
  assert (Hready : gl_ready (mountEffect 2%float initialState))
    by (repeat split).
  destruct (live_drawing_matches_replay
              (mkDOMRect 0%float 0%float) (mkPointerEvent 0%float 0%float)
              [mkPointerEvent 6%float 2%float; mkPointerEvent 6%float 9%float]
              (mountEffect 2%float initialState) sm g0 Hes Hgl Hready Hrun)
    as (r & Hr & Heq).
  exists sm, r. split; [ exact Hrun | split; assumption ].
Defined.

(* ===================================================================== *)
(** ** Pointer moves outside a gesture, resizing, and a missing context *)

(** A pointer-move is acted upon only between a pointer-down and the next
    release: every release leaves the drawing flag down, and with the flag
    down a move neither draws nor records anything. *)
Theorem moves_outside_a_gesture_are_ignored :
  (forall (ev : Event) (st st' : State),
      ev = PointerUp \/ ev = PointerLeave ->
      dispatch ev st = Some st' -> isDrawingRef st' = false)
  /\ (forall (rect : option DOMRect) (e : PointerEvent) (st : State),
         isDrawingRef st = false ->
         dispatch (PointerMove rect e) st = Some st).
Proof.
  split.
  - intros ev st st' Hev H.
    assert (Hup : isDrawingRef (handlePointerUp st) = false).
    { unfold handlePointerUp. cbn [currentStrokeRef set_isDrawingRef].
      destruct (0 <? List.length (currentStrokeRef st))%nat; reflexivity. }
    assert (Hcase : redrawEffect (handlePointerUp st) = Some st'
                    \/ handlePointerUp st = st').
    { destruct Hev as [-> | ->]; simpl in H;
        destruct (0 <? List.length (currentStrokeRef st))%nat;
        solve [ left; exact H | right; injection H as <-; reflexivity ]. }
    destruct Hcase as [Heff | <-]; [ | exact Hup ].
    apply only_gl_redrawEffect in Heff. unfold only_gl in Heff.
    rewrite Heff. exact Hup.
  - intros rect e st Hd. simpl. unfold handlePointerMove. rewrite Hd.
    reflexivity.
Qed.

Lemma moves_outside_a_gesture_are_ignored_witness :
  dispatch (PointerMove (Some (mkDOMRect 0%float 0%float))
                        (mkPointerEvent 9%float 9%float))
           (mountEffect 1%float initialState)
  = Some (mountEffect 1%float initialState).
Proof.
  apply (proj2 moves_outside_a_gesture_are_ignored). reflexivity.
Defined.

(** [resizeCanvas] leaves the colour buffer cleared to white with no stamp
    on it and does not touch the History, so the strokes stay unpainted
    until the next redraw; and the pixel ratio it stores is never zero nor
    NaN. *)
Theorem resize_clears_without_repaint (devicePixelRatio : float) (st : State)
    (gl : GL.Context) :
  glRef st = Some gl ->
  let st' := resizeCanvas devicePixelRatio st in
  (exists gl',
      glRef st' = Some gl'
      /\ GL.stamps (GL.framebuffer gl') = []
      /\ GL.background (GL.framebuffer gl') = (1, 1, 1, 1)%float)
  /\ same_history st' st
  /\ currentStrokeRef st' = currentStrokeRef st
  /\ (pixelRatioRef st' =? 0)%float = false
  /\ is_nan (pixelRatioRef st') = false.
Proof.
  intros Hgl st'. subst st'. unfold resizeCanvas.
  set (ratio := if (devicePixelRatio =? 0)%float || is_nan devicePixelRatio
                then 1%float else devicePixelRatio).
  set (s1 := set_pixelRatioRef ratio st).
  assert (Hg1 : glRef s1 = Some gl) by exact Hgl.
  match goal with
  | |- context [onGL GL.clear (onGL ?cc ?s3)] => set (s := s3)
  end.
  assert (Hs : exists g, glRef s = Some g /\ only_gl s1 s).
  { subst s. destruct (colorLocationRef s1);
      [ destruct (hexToRgb (selectedColor initialState)) as [[r gc] b] | ];
      destruct (alphaLocationRef _);
      eexists; (split; [ repeat apply glRef_onGL; exact Hg1 | only_gl_chain ]). }
  destruct Hs as (g & Hg & Hframe).
  assert (Hfinal : only_gl s1 (onGL GL.clear
                      (onGL (GL.clearColor 1%float 1%float 1%float 1%float) s)))
    by (eapply only_gl_trans; [ exact Hframe | only_gl_chain ]).
  split; [ | split; [ | split; [ | split ] ] ].
  - eexists. split; [ repeat apply glRef_onGL; exact Hg | split; reflexivity ].
  - apply only_gl_history in Hfinal. destruct Hfinal as [H1 H2].
    split; [ rewrite H1 | rewrite H2 ]; reflexivity.
  - unfold only_gl in Hfinal. rewrite Hfinal. reflexivity.
  - unfold only_gl in Hfinal. rewrite Hfinal. cbn [pixelRatioRef set_glRef s1 set_pixelRatioRef].
    subst ratio.
    destruct ((devicePixelRatio =? 0)%float || is_nan devicePixelRatio) eqn:Hfalsy.
    + reflexivity.
    + apply orb_false_elim in Hfalsy. exact (proj1 Hfalsy).
  - unfold only_gl in Hfinal. rewrite Hfinal. cbn [pixelRatioRef set_glRef s1 set_pixelRatioRef].
    subst ratio.
    destruct ((devicePixelRatio =? 0)%float || is_nan devicePixelRatio) eqn:Hfalsy.
    + reflexivity.
    + apply orb_false_elim in Hfalsy. exact (proj2 Hfalsy).
Qed.

Lemma resize_clears_without_repaint_witness :
  exists a,
    redrawCanvas Demo.painted = Some a
    /\ (exists gl', glRef (resizeCanvas 0%float a) = Some gl'
                    /\ GL.stamps (GL.framebuffer gl') = [])
    /\ same_history (resizeCanvas 0%float a) a
    /\ (pixelRatioRef (resizeCanvas 0%float a) =? 0)%float = false.
Proof.
  assert (Hrun : exists a, redrawCanvas Demo.painted = Some a)
    by (eexists; vm_compute; reflexivity).
  destruct Hrun as [a Hrun]. exists a. split; [ exact Hrun | ].
  assert (Hgl : exists gl, glRef a = Some gl).
  { vm_compute in Hrun. injection Hrun as <-. eexists. reflexivity. }
  destruct Hgl as [gl Hgl].
  destruct (resize_clears_without_repaint 0%float a gl Hgl)
    as ((gl' & Hgl' & Hst & _) & Hh & _ & Hz & _).
  split; [ exists gl'; split; assumption | split; assumption ].
Defined.

(** When no WebGL context was obtained, every event still returns: nothing
    is rasterised, no context appears, and the History is kept as usual. *)
Theorem events_without_context_return (evs : list Event) :
  forall st : State,
    glRef st = None ->
    exists st', run evs st = Some st' /\ glRef st' = None.
Proof.
  assert (Hstep : forall ev st, glRef st = None ->
                    exists st', dispatch ev st = Some st' /\ glRef st' = None).
  { intros ev st Hgl.
    assert (Heff : forall s, glRef s = None -> redrawEffect s = Some s)
      by (intros s Hs; unfold redrawEffect; rewrite Hs; reflexivity).
    assert (Hup : glRef (handlePointerUp st) = None).
    { unfold handlePointerUp. cbn [currentStrokeRef set_isDrawingRef].
      destruct (0 <? List.length (currentStrokeRef st))%nat; exact Hgl. }
    destruct ev; simpl.
    - eexists. split; [ reflexivity | ].
      unfold handlePointerDown. destruct rect; exact Hgl.
    - unfold handlePointerMove.
      destruct (negb (isDrawingRef st)); [ eexists; split; [ reflexivity | exact Hgl ] | ].
      destruct rect as [rect |]; [ | eexists; split; [ reflexivity | exact Hgl ] ].
      unfold drawLine. rewrite Hgl. cbn [negb orb].
      eexists. split; [ reflexivity | exact Hgl ].
    - rewrite (Heff _ Hup).
      destruct (0 <? List.length (currentStrokeRef st))%nat;
        eexists; (split; [ reflexivity | exact Hup ]).
    - rewrite (Heff _ Hup).
      destruct (0 <? List.length (currentStrokeRef st))%nat;
        eexists; (split; [ reflexivity | exact Hup ]).
    - assert (Hu : glRef (handleUndo st) = None)
        by (unfold handleUndo; destruct (currentStrokeIndex st >=? 0); exact Hgl).
      rewrite (Heff _ Hu).
      destruct (currentStrokeIndex (handleUndo st) =? currentStrokeIndex st);
        eexists; (split; [ reflexivity | exact Hu ]).
    - assert (Hr : glRef (handleRedo st) = None)
        by (unfold handleRedo;
            destruct (currentStrokeIndex st <? Z.of_nat (List.length (App.strokes st)) - 1);
            exact Hgl).
      rewrite (Heff _ Hr).
      destruct (currentStrokeIndex (handleRedo st) =? currentStrokeIndex st);
        eexists; (split; [ reflexivity | exact Hr ]).
    - assert (Hc : glRef (handleClear st) = None)
        by (unfold handleClear; cbn [glRef setStrokes setCurrentStrokeIndex];
            rewrite Hgl; exact Hgl).
      rewrite (Heff _ Hc). eexists. split; [ reflexivity | exact Hc ].
    - eexists. split; [ reflexivity | exact Hgl ].
    - eexists. split; [ reflexivity | exact Hgl ].
    - eexists. split; [ reflexivity | exact Hgl ].
    - eexists. split; [ reflexivity | ].
      unfold handleOpacityChange. destruct (selectedTool st); exact Hgl. }
  induction evs as [| ev tl IH]; intros st Hgl; simpl.
  - exists st. split; [ reflexivity | exact Hgl ].
  - destruct (Hstep ev st Hgl) as (s1 & H1 & Hg1). rewrite H1.
    apply IH. exact Hg1.
Qed.

Lemma events_without_context_return_witness :
  exists st',
    run [PointerDown (Some (mkDOMRect 0%float 0%float))
                     (mkPointerEvent (0 / 0)%float 1%float);
         PointerMove (Some (mkDOMRect 0%float 0%float))
                     (mkPointerEvent 5%float (0 / 0)%float);
         PointerUp; Undo; Redo; Clear] initialState = Some st'
    /\ glRef st' = None.
Proof.
  apply events_without_context_return. reflexivity.
Defined.

(** A release with a non-empty buffer, and a clear, put the cursor within
    the list from any state whatever, even one whose index is out of range;
    and a release never makes the list longer than one more than it was. *)
Theorem commit_and_clear_restore_bounds (st : State) :
  (currentStrokeRef st <> [] ->
   history_inv (handlePointerUp st)
   /\ (List.length (entries (handlePointerUp st))
       <= S (List.length (entries st)))%nat)
  /\ history_inv (handleClear st).
Proof.
  split; [ | apply handleClear_inv ].
  intros Hne. destruct (handlePointerUp_commit st Hne) as (Hs & Hi & _).
  split.
  - unfold history_inv, activeCount, entries. rewrite Hi. lia.
  - unfold entries. rewrite Hs, length_app. unfold slice.
    rewrite length_firstn, length_skipn. simpl. lia.
Qed.

Lemma commit_and_clear_restore_bounds_witness :
  let st := at_release [mkPoint 1%float 1%float]
              (setCurrentStrokeIndex (-7) Demo.painted) in
  history_inv (handlePointerUp st)
  /\ (List.length (entries (handlePointerUp st)) <= S (List.length (entries st)))%nat.
Proof.
  intros st.
  apply (proj1 (commit_and_clear_restore_bounds st)). discriminate.
Defined.

(* ===================================================================== *)
(** ** Colour strings *)

Lemma hexToRgb_body (hex : string) :
  match hex with
  | String "#" rest => rest
  | _ => hex
  end = Colour.strip_hash hex.
Proof.
  destruct hex as [| a rest]; [ reflexivity | ].
  destruct a as [b0 b1 b2 b3 b4 b5 b6 b7].
  destruct b0, b1, b2, b3, b4, b5, b6, b7; reflexivity.
Qed.

Lemma hexDigit_range (c : ascii) (d : Z) :
  hexDigit c = Some d -> 0 <= d <= 15.
Proof.
  unfold hexDigit. set (n := Z.of_N (N_of_ascii c)).
  destruct ((48 <=? n) && (n <=? 57)) eqn:H1;
    [ | destruct ((97 <=? n) && (n <=? 102)) eqn:H2;
        [ | destruct ((65 <=? n) && (n <=? 70)) eqn:H3 ] ];
    intros H; try discriminate H; injection H as <-;
    match goal with
    | Hc : (_ && _) = true |- _ =>
        apply andb_true_iff in Hc; destruct Hc as [Hlo Hhi];
        apply Z.leb_le in Hlo; apply Z.leb_le in Hhi; lia
    end.
Qed.

Lemma hexPair_range (a b : ascii) (n : Z) :
  hexPair a b = Some n -> 0 <= n <= 255.
Proof.
  unfold hexPair.
  destruct (hexDigit a) as [h |] eqn:Ha; [ | discriminate ].
  destruct (hexDigit b) as [l |] eqn:Hb; [ | discriminate ].
  intros H. assert (Hn : n = 16 * h + l) by congruence.
  apply hexDigit_range in Ha. apply hexDigit_range in Hb. lia.
Qed.

(** The 256 values a channel can take, each checked by evaluation. *)
Lemma channel_table :
  forallb (fun k => Colour.unit_channel (number_of_Z (Z.of_nat k) / 255)%float)
          (seq 0 256) = true.
Proof. vm_compute. reflexivity. Qed.

Lemma channel_unit (n : Z) :
  0 <= n <= 255 -> Colour.unit_channel (number_of_Z n / 255)%float = true.
Proof.
  intros Hn.
  pose proof (proj1 (forallb_forall _ _) channel_table (Z.to_nat n)) as Htab.
  cbv beta in Htab. rewrite Z2Nat.id in Htab by lia.
  apply Htab. apply in_seq. lia.
Qed.

(** Whatever the string, each channel [hexToRgb] returns lies between 0 and
    1 (in particular none is NaN). *)
Theorem hexToRgb_channels_in_unit_interval (hex : string) :
  let '(r, g, b) := hexToRgb hex in
  Colour.unit_channel r = true /\ Colour.unit_channel g = true
  /\ Colour.unit_channel b = true.
Proof.
  unfold hexToRgb. rewrite hexToRgb_body.
  assert (Hblack : Colour.unit_channel 0%float = true) by reflexivity.
  destruct (Colour.strip_hash hex)
    as [| a [| b [| c [| d [| e [| f [| x rest]]]]]]];
    try (repeat split; exact Hblack).
  destruct (hexPair a b) as [r |] eqn:Hr; [ | repeat split; exact Hblack ].
  destruct (hexPair c d) as [g |] eqn:Hg; [ | repeat split; exact Hblack ].
  destruct (hexPair e f) as [bl |] eqn:Hb; [ | repeat split; exact Hblack ].
  apply hexPair_range in Hr. apply hexPair_range in Hg. apply hexPair_range in Hb.
  repeat split; apply channel_unit; assumption.
Qed.

(** A string that is not exactly six characters long once an optional
    leading [#] is removed (a three-digit shorthand, a colour name, the
    empty string) gives black. *)
Theorem hexToRgb_malformed_is_black (hex : string) :
  String.length (Colour.strip_hash hex) <> 6%nat ->
  hexToRgb hex = (0, 0, 0)%float.
Proof.
  intros Hlen. unfold hexToRgb. rewrite hexToRgb_body.
  destruct (Colour.strip_hash hex)
    as [| a [| b [| c [| d [| e [| f [| x rest]]]]]]];
    try reflexivity.
  simpl in Hlen. congruence.
Qed.

Lemma hexToRgb_malformed_is_black_witness :
  hexToRgb "#fff" = (0, 0, 0)%float.
Proof.
  apply hexToRgb_malformed_is_black. vm_compute. discriminate.
Defined.

Lemma hexDigit_upper (c : ascii) : hexDigit (Colour.upper c) = hexDigit c.
Proof.
  destruct c as [b0 b1 b2 b3 b4 b5 b6 b7].
  destruct b0, b1, b2, b3, b4, b5, b6, b7; vm_compute; reflexivity.
Qed.

Lemma hash_upper (c : ascii) :
  Ascii.eqb (Colour.upper c) "#" = Ascii.eqb c "#".
Proof.
  destruct c as [b0 b1 b2 b3 b4 b5 b6 b7].
  destruct b0, b1, b2, b3, b4, b5, b6, b7; vm_compute; reflexivity.
Qed.

Lemma hexPair_upper (a b : ascii) :
  hexPair (Colour.upper a) (Colour.upper b) = hexPair a b.
Proof. unfold hexPair. rewrite !hexDigit_upper. reflexivity. Qed.

Lemma strip_hash_upper (hex : string) :
  Colour.strip_hash (Colour.upper_string hex)
  = Colour.upper_string (Colour.strip_hash hex).
Proof.
  destruct hex as [| a rest]; [ reflexivity | ].
  cbn [Colour.upper_string Colour.strip_hash]. rewrite hash_upper.
  destruct (Ascii.eqb a "#"); reflexivity.
Qed.

(** Colour strings are read without regard to the case of their letters:
    upper-casing a string does not change the colour it denotes. *)
Theorem hexToRgb_ignores_case (hex : string) :
  hexToRgb (Colour.upper_string hex) = hexToRgb hex.
Proof.
  unfold hexToRgb. rewrite !hexToRgb_body, strip_hash_upper.
  destruct (Colour.strip_hash hex)
    as [| a [| b [| c [| d [| e [| f [| x rest]]]]]]];
    try reflexivity.
  cbn [Colour.upper_string]. rewrite !hexPair_upper. reflexivity.
Qed.

(* ===================================================================== *)
(** ** The pencil-only canvas *)

Lemma pencil_move_pen (e : Pencil.PointerEvent) (st : Pencil.State)
    (ctx : Pencil.Context2D) :
  Pencil.from_pen e = true ->
  Pencil.isDrawingRef st = true ->
  Pencil.canvasRef st = Some (Some ctx) ->
  exists ctx',
    Pencil.handlePointerMove e st
    = Pencil.mkState (Some (Some ctx')) true (Pencil.sample e)
    /\ Pencil.strokedPaths ctx'
       = Pencil.strokedPaths ctx
           ++ [Pencil.inked [Pencil.lastPointRef st; Pencil.sample e]].
Proof.
  unfold Pencil.from_pen. intros Hpen Hd Hc.
  unfold Pencil.handlePointerMove. rewrite Hpen, Hd, Hc. cbn [negb orb].
  eexists. split; reflexivity.
Qed.

Lemma pencil_move_other (e : Pencil.PointerEvent) (st : Pencil.State) :
  Pencil.from_pen e = false -> Pencil.handlePointerMove e st = st.
Proof.
  unfold Pencil.from_pen, Pencil.handlePointerMove. intros H. rewrite H.
  cbn [negb]. rewrite orb_true_r. reflexivity.
Qed.

Lemma last_after_head {A : Type} (l : list A) :
  forall a d : A, last (a :: l) d = last l a.
Proof.
  induction l as [| b l IH]; intros a d; [ reflexivity | ].
  change (last (a :: b :: l) d) with (last (b :: l) d).
  rewrite (IH b d), (IH b a). reflexivity.
Qed.

Lemma pencil_moves_chain (es : list Pencil.PointerEvent) :
  forall (st : Pencil.State) (ctx : Pencil.Context2D),
    Pencil.isDrawingRef st = true ->
    Pencil.canvasRef st = Some (Some ctx) ->
    exists ctx',
      Pencil.canvasRef (Pencil.moves es st) = Some (Some ctx')
      /\ Pencil.isDrawingRef (Pencil.moves es st) = true
      /\ Pencil.strokedPaths ctx'
         = Pencil.strokedPaths ctx
             ++ map Pencil.inked
                  (Pencil.chain (Pencil.lastPointRef st)
                     (map Pencil.sample (filter Pencil.from_pen es)))
      /\ Pencil.lastPointRef (Pencil.moves es st)
         = last (map Pencil.sample (filter Pencil.from_pen es))
                (Pencil.lastPointRef st).
Proof.
  induction es as [| e es IH]; intros st ctx Hd Hc.
  - exists ctx. simpl. rewrite app_nil_r. repeat split; assumption.
  - unfold Pencil.moves. cbn [fold_left filter].
    fold (Pencil.moves es (Pencil.handlePointerMove e st)).
    destruct (Pencil.from_pen e) eqn:Hpen.
    + destruct (pencil_move_pen e st ctx Hpen Hd Hc) as (c1 & Hmove & Hs1).
      rewrite Hmove.
      destruct (IH (Pencil.mkState (Some (Some c1)) true (Pencil.sample e)) c1
                  eq_refl eq_refl) as (c2 & Hc2 & Hd2 & Hs2 & Hl2).
      exists c2. split; [ exact Hc2 | split; [ exact Hd2 | split ] ].
      * rewrite Hs2, Hs1, <- app_assoc. reflexivity.
      * rewrite Hl2. cbn [map Pencil.lastPointRef].
        symmetry. apply last_after_head.
    + rewrite (pencil_move_other e st Hpen). apply IH; assumption.
Qed.

(** On the pencil-only canvas, a pen pointer-down followed by pointer-moves
    of any pointers inks exactly the polyline through the pen samples: one
    stroked segment per pen move, each starting where the previous one
    ended, the first at the pointer-down; moves of other pointers leave no
    trace. *)
Theorem pencil_inks_polyline_through_pen_samples (e0 : Pencil.PointerEvent)
    (es : list Pencil.PointerEvent) (st : Pencil.State)
    (ctx : Pencil.Context2D) :
  Pencil.from_pen e0 = true ->
  Pencil.canvasRef st = Some (Some ctx) ->
  let st' := Pencil.moves es (Pencil.handlePointerDown e0 st) in
  let pens := map Pencil.sample (filter Pencil.from_pen es) in
  exists ctx',
    Pencil.canvasRef st' = Some (Some ctx')
    /\ Pencil.strokedPaths ctx'
       = Pencil.strokedPaths ctx
           ++ map Pencil.inked (Pencil.chain (Pencil.sample e0) pens)
    /\ Pencil.lastPointRef st' = last pens (Pencil.sample e0).
Proof.
  intros Hpen Hc st' pens. subst st' pens.
  assert (Hdown : Pencil.handlePointerDown e0 st
                  = Pencil.mkState (Some (Some ctx)) true (Pencil.sample e0)).
  { unfold Pencil.handlePointerDown. unfold Pencil.from_pen in Hpen.
    rewrite Hpen, Hc. reflexivity. }
  rewrite Hdown.
  destruct (pencil_moves_chain es
              (Pencil.mkState (Some (Some ctx)) true (Pencil.sample e0)) ctx
              eq_refl eq_refl) as (c' & Hc' & _ & Hs & Hl).
  exists c'. split; [ exact Hc' | split; [ exact Hs | exact Hl ] ].
Qed.

Lemma pencil_inks_polyline_through_pen_samples_witness :
  let blank := Pencil.mkContext2D 1%float "butt" "#000000" [] [] in
  let st := Pencil.mkState (Some (Some blank)) false (mkPoint 0%float 0%float) in
  let es := [Pencil.mkPointerEvent "pen" 2%float 1%float;
             Pencil.mkPointerEvent "mouse" 9%float 9%float;
             Pencil.mkPointerEvent "pen" 3%float 5%float] in
  exists ctx',
    Pencil.canvasRef
      (Pencil.moves es
         (Pencil.handlePointerDown (Pencil.mkPointerEvent "pen" 1%float 1%float) st))
    = Some (Some ctx')
    /\ Pencil.strokedPaths ctx'
       = [Pencil.inked [mkPoint 1%float 1%float; mkPoint 2%float 1%float];
          Pencil.inked [mkPoint 2%float 1%float; mkPoint 3%float 5%float]].
Proof.
  intros blank st es.
  destruct (pencil_inks_polyline_through_pen_samples
              (Pencil.mkPointerEvent "pen" 1%float 1%float) es st blank
              eq_refl eq_refl) as (ctx' & Hc & Hs & _).
  exists ctx'. split; [ exact Hc | exact Hs ].
Defined.

(** Only a pen starts, extends or ends a stroke on the pencil-only canvas:
    an event of any other pointer type leaves the refs and the canvas as
    they were, whichever handler receives it (so a mouse leaving the canvas
    does not end a pen stroke); and after a pen release, pen moves draw
    nothing. *)
Theorem pencil_only_pen_events_count :
  (forall (e : Pencil.PointerEvent) (st : Pencil.State),
      Pencil.pointerType e <> "pen"%string ->
      Pencil.handlePointerDown e st = st
      /\ Pencil.handlePointerMove e st = st
      /\ Pencil.handlePointerUp e st = st)
  /\ (forall (up : Pencil.PointerEvent) (es : list Pencil.PointerEvent)
             (st : Pencil.State),
         Pencil.from_pen up = true ->
         Pencil.moves es (Pencil.handlePointerUp up st)
         = Pencil.handlePointerUp up st).
Proof.
  split.
  - intros e st Hne. apply String.eqb_neq in Hne.
    unfold Pencil.handlePointerDown, Pencil.handlePointerMove,
      Pencil.handlePointerUp.
    rewrite Hne. cbn [negb]. rewrite orb_true_r. repeat split.
  - intros up es st Hpen.
    assert (Hidle : forall s, Pencil.isDrawingRef s = false ->
                      Pencil.moves es s = s).
    { induction es as [| e es IH]; intros s Hs; [ reflexivity | ].
      unfold Pencil.moves. cbn [fold_left].
      assert (Hm : Pencil.handlePointerMove e s = s)
        by (unfold Pencil.handlePointerMove; rewrite Hs; reflexivity).
      rewrite Hm. apply IH. exact Hs. }
    apply Hidle. unfold Pencil.handlePointerUp.
    unfold Pencil.from_pen in Hpen. rewrite Hpen. reflexivity.
Qed.

Lemma pencil_only_pen_events_count_witness :
  let st := Pencil.mkState None true (mkPoint 4%float 4%float) in
  Pencil.handlePointerUp (Pencil.mkPointerEvent "mouse" 0%float 0%float) st = st.
Proof.
  intros st.
  apply (proj1 pencil_only_pen_events_count
           (Pencil.mkPointerEvent "mouse" 0%float 0%float) st).
  discriminate.
Defined.

(* ===================================================================== *)
(** ** Dragging the toolbar *)

Lemma drags_idle (es : list App.PointerEvent) :
  forall st, ToolbarDrag.isDragging st = false -> ToolbarDrag.drags es st = st.
Proof.
  induction es as [| e es IH]; intros st Hs; [ reflexivity | ].
  unfold ToolbarDrag.drags. cbn [fold_left].
  assert (Hm : ToolbarDrag.handleDrag e st = st)
    by (unfold ToolbarDrag.handleDrag; rewrite Hs; reflexivity).
  rewrite Hm. apply IH. exact Hs.
Qed.

Lemma drags_keep (es : list App.PointerEvent) :
  forall st,
    ToolbarDrag.isDragging st = true ->
    ToolbarDrag.isDragging (ToolbarDrag.drags es st) = true
    /\ ToolbarDrag.dragOffset (ToolbarDrag.drags es st)
       = ToolbarDrag.dragOffset st.
Proof.
  induction es as [| e es IH]; intros st Hs; [ split; [ exact Hs | reflexivity ] | ].
  unfold ToolbarDrag.drags. cbn [fold_left].
  fold (ToolbarDrag.drags es (ToolbarDrag.handleDrag e st)).
  assert (Hm : ToolbarDrag.isDragging (ToolbarDrag.handleDrag e st) = true
               /\ ToolbarDrag.dragOffset (ToolbarDrag.handleDrag e st)
                  = ToolbarDrag.dragOffset st)
    by (unfold ToolbarDrag.handleDrag; rewrite Hs; split; reflexivity).
  destruct Hm as [Hd Ho].
  destruct (IH _ Hd) as [Hd' Ho']. split; [ exact Hd' | congruence ].
Qed.

(** While the toolbar is dragged its position depends on the last pointer
    position only, not on the path: it is that position minus the offset at
    which the handle was grabbed.  Once the drag has ended, pointer moves no
    longer move the toolbar. *)
Theorem toolbar_follows_pointer_while_dragged (rect : DOMRect)
    (e0 e : App.PointerEvent) (es es' : list App.PointerEvent)
    (st : ToolbarDrag.State) :
  let dragged :=
    ToolbarDrag.drags (es ++ [e]) (ToolbarDrag.handleDragStart (Some rect) e0 st) in
  ToolbarDrag.position dragged
  = mkPoint (clientX e - (clientX e0 - left rect))%float
            (clientY e - (clientY e0 - top rect))%float
  /\ ToolbarDrag.drags es' (ToolbarDrag.handleDragEnd dragged)
     = ToolbarDrag.handleDragEnd dragged
  /\ ToolbarDrag.position (ToolbarDrag.handleDragEnd dragged)
     = ToolbarDrag.position dragged.
Proof.
  intros dragged. subst dragged.
  set (s0 := ToolbarDrag.handleDragStart (Some rect) e0 st).
  unfold ToolbarDrag.drags at 1. rewrite fold_left_app. cbn [fold_left].
  fold (ToolbarDrag.drags es s0).
  destruct (drags_keep es s0 eq_refl) as [Hd Ho].
  split; [ | split ].
  - unfold ToolbarDrag.handleDrag. rewrite Hd, Ho. reflexivity.
  - apply drags_idle. reflexivity.
  - reflexivity.
Qed.

(* ===================================================================== *)
(** ** The vertices of a circle fan *)

Lemma vertices_loop_step (cos sin : float -> float) (center : Point float)
    (radius : float) (i n : Z) (vs : list float) :
  Fan.vertices_loop cos sin center radius i n vs
  = if i <=? n then
      Fan.vertices_loop cos sin center radius (i + 1) n
        ((if i =? 0 then vs ++ [x center; y center] else vs)
           ++ [(x center
                + cos (number_of_Z i / number_of_Z n * Fan.PI * 2) * radius)%float;
               (y center
                + sin (number_of_Z i / number_of_Z n * Fan.PI * 2) * radius)%float])
    else vs.
Proof.
  rewrite Fan.vertices_loop_equation_1.
  destruct (Z_le_dec i n) as [Hle | Hgt].
  - rewrite Fan.vertices_loop_clause_1_equation_1.
    apply Z.leb_le in Hle. rewrite Hle. reflexivity.
  - rewrite Fan.vertices_loop_clause_1_equation_2.
    apply Z.leb_nle in Hgt. rewrite Hgt. reflexivity.
Qed.

(** Past the first turn the loop pushes one rim vertex per turn after what
    is already in the array. *)
Lemma vertices_loop_rim (cos sin : float -> float) (center : Point float)
    (radius : float) (k : nat) :
  forall (i n : Z) (vs : list float),
    1 <= i -> Z.to_nat (n + 1 - i) = k ->
    exists rest,
      Fan.vertices_loop cos sin center radius i n vs = vs ++ rest
      /\ List.length rest = (2 * k)%nat.
Proof.
  induction k as [| k IH]; intros i n vs Hi Hk;
    rewrite vertices_loop_step.
  - assert (Hout : (i <=? n) = false) by (apply Z.leb_gt; lia).
    rewrite Hout. exists []. rewrite app_nil_r. split; reflexivity.
  - assert (Hin : (i <=? n) = true) by (apply Z.leb_le; lia).
    assert (Hnz : (i =? 0) = false) by (apply Z.eqb_neq; lia).
    rewrite Hin, Hnz.
    match goal with
    | |- context [Fan.vertices_loop _ _ _ _ _ _ (vs ++ ?two)] =>
        destruct (IH (i + 1) n (vs ++ two)) as (rest & Hrest & Hlen);
          [ lia | lia | ];
        exists (two ++ rest); rewrite Hrest, <- app_assoc;
        split; [ reflexivity | ]
    end.
    rewrite length_app, Hlen. simpl. lia.
Qed.

(** Every circle whose radius is a finite number within range is submitted
    as a triangle fan of [segments + 2] vertices, where
    [segments = max(8, floor(radius/2))]: at least ten, the first of them the
    centre. *)
Theorem circle_fan_vertices (cos sin : float -> float) (center : Point float)
    (radius : float) (vs : list float) :
  Fan.circleVertices cos sin center radius = Some vs ->
  exists n,
    Fan.segments radius = Some n
    /\ 8 <= n
    /\ Z.of_nat (List.length vs) = 2 * (n + 2)
    /\ firstn 2 vs = [x center; y center].
Proof.
  unfold Fan.circleVertices. intros H.
  destruct (Fan.segments radius) as [n |] eqn:Hn; [ | discriminate ].
  injection H as <-.
  assert (Hge : 8 <= n).
  { unfold Fan.segments in Hn.
    destruct (Fan.Math_floor (radius / 2)%float); [ | discriminate ].
    injection Hn as <-. lia. }
  exists n. split; [ reflexivity | split; [ exact Hge | ] ].
  rewrite vertices_loop_step.
  assert (Hin : (0 <=? n) = true) by (apply Z.leb_le; lia).
  rewrite Hin. change (0 =? 0) with true. cbn [app].
  match goal with
  | |- context [Fan.vertices_loop _ _ _ _ _ _ ?four] =>
      destruct (vertices_loop_rim cos sin center radius (Z.to_nat n)
                  (0 + 1) n four) as (rest & Hrest & Hlen);
        [ lia | lia | ];
      rewrite Hrest
  end.
  split.
  - rewrite length_app, Hlen. cbn [List.length]. lia.
  - reflexivity.
Qed.

Lemma circle_fan_vertices_witness :
  exists vs n,
    Fan.circleVertices (fun a => a) (fun a => a)
      (mkPoint 10%float 10%float) 40%float = Some vs
    /\ Fan.segments 40%float = Some n
    /\ 8 <= n
    /\ Z.of_nat (List.length vs) = 2 * (n + 2)
    /\ firstn 2 vs = [10%float; 10%float].
Proof.
  assert (Hrun : exists vs,
             Fan.circleVertices (fun a => a) (fun a => a)
               (mkPoint 10%float 10%float) 40%float = Some vs)
    by (eexists; vm_compute; reflexivity).
  destruct Hrun as [vs Hrun].
  destruct (circle_fan_vertices (fun a => a) (fun a => a)
              (mkPoint 10%float 10%float) 40%float vs Hrun) as (n & H).
  exists vs, n. split; [ exact Hrun | exact H ].
Defined.

(* ===================================================================== *)
(** ** The replay and the live drawing, stamp for stamp *)

Lemma plotLine_nonempty (x0 y0 x1 y1 : Z) : plotLine x0 y0 x1 y1 <> [].
Proof.
  assert (H : 0 < Z.of_nat (List.length (plotLine x0 y0 x1 y1))).
  { unfold plotLine.
    destruct (Z.abs (y1 - y0) <? Z.abs (x1 - x0)) eqn:Hshallow;
      [ apply Z.ltb_lt in Hshallow | apply Z.ltb_ge in Hshallow ].
    - destruct (x0 >? x1) eqn:Hdir.
      + apply Z.gtb_lt in Hdir.
        destruct (plotLineLow_spec x1 y1 x0 y0) as (_ & _ & _ & Hn); lia.
      + assert (Hle : x0 <= x1)
          by (destruct (Z.gtb_spec x0 x1); [ discriminate | lia ]).
        destruct (plotLineLow_spec x0 y0 x1 y1) as (_ & _ & _ & Hn); lia.
    - destruct (y0 >? y1) eqn:Hdir.
      + apply Z.gtb_lt in Hdir.
        destruct (plotLineHigh_spec x1 y1 x0 y0) as (_ & _ & _ & Hn); lia.
      + assert (Hle : y0 <= y1)
          by (destruct (Z.gtb_spec y0 y1); [ discriminate | lia ]).
        destruct (plotLineHigh_spec x0 y0 x1 y1) as (_ & _ & _ & Hn); lia. }
  intros Habs. rewrite Habs in H. simpl in H. lia.
Qed.

Lemma bresenhamPoints_nonempty (from to : Point float) (bp : list (Point float)) :
  bresenhamPoints from to = Some bp -> bp <> [].
Proof.
  unfold bresenhamPoints.
  destruct (Math_round (x from)); [ | discriminate ].
  destruct (Math_round (y from)); [ | discriminate ].
  destruct (Math_round (x to)); [ | discriminate ].
  destruct (Math_round (y to)); [ | discriminate ].
  intros H Habs. injection H as H. rewrite Habs in H.
  apply map_eq_nil in H. exact (plotLine_nonempty _ _ _ _ H).
Qed.

(** The circles of one segment: one stamp per pixel, under the state that
    is bound, which stays bound. *)
Lemma stamp_all_exact (r : float) (bp : list (Point float)) :
  forall g : GL.Context,
    bound_drawState (stamp_all true r bp g) = bound_drawState g
    /\ GL.stamps (GL.framebuffer (stamp_all true r bp g))
       = GL.stamps (GL.framebuffer g)
           ++ map (stamp_under (bound_drawState g) r) bp.
Proof.
  induction bp as [| p bp IH]; intros g.
  - simpl. rewrite app_nil_r. split; reflexivity.
  - unfold stamp_all. cbn [fold_left].
    fold (stamp_all true r bp (stamp true p r g)).
    destruct (IH (stamp true p r g)) as [Hb Hs].
    rewrite Hb, Hs. split; [ reflexivity | ].
    cbn. rewrite <- app_assoc. reflexivity.
Qed.

Lemma segment_centres_step (from to : Point float) (rest : list (Point float)) :
  segment_centres (from :: to :: rest)
  = match bresenhamPoints from to, segment_centres (to :: rest) with
    | Some bp, Some tl => Some (bp ++ tl)
    | _, _ => None
    end.
Proof. reflexivity. Qed.

Lemma segments_exact (lw : float) (pts : list (Point float)) :
  Forall roundable pts ->
  forall g : GL.Context,
    exists cs g',
      segment_centres pts = Some cs
      /\ segments true pts lw g = Some g'
      /\ bound_drawState g' = bound_drawState g
      /\ GL.stamps (GL.framebuffer g')
         = GL.stamps (GL.framebuffer g)
             ++ map (stamp_under (bound_drawState g) (lw / 2)%float) cs
      /\ ((2 <= List.length pts)%nat -> cs <> []).
Proof.
  induction pts as [| from rest IH]; intros Hr g.
  - exists [], g. simpl. rewrite app_nil_r.
    split; [ reflexivity | split; [ reflexivity | split; [ reflexivity | ] ] ].
    split; [ reflexivity | lia ].
  - destruct rest as [| to rest'].
    + exists [], g. simpl. rewrite app_nil_r.
      split; [ reflexivity | split; [ reflexivity | split; [ reflexivity | ] ] ].
      split; [ reflexivity | lia ].
    + inversion Hr as [| ? ? Hfrom Hrest]; subst.
      inversion Hrest as [| ? ? Hto _]; subst.
      destruct (bresenhamPoints_total from to Hfrom Hto) as [bp Hbp].
      destruct (stamp_all_exact (lw / 2)%float bp g) as [Hb1 Hs1].
      destruct (IH Hrest (stamp_all true (lw / 2)%float bp g))
        as (cs & g' & Hcs & Hseg & Hb & Hs & _).
      exists (bp ++ cs), g'.
      rewrite segment_centres_step, segments_step, Hbp, Hcs.
      split; [ reflexivity | split; [ exact Hseg | split ] ].
      * rewrite Hb. exact Hb1.
      * split.
        -- rewrite Hs, Hs1, Hb1, map_app, app_assoc. reflexivity.
        -- intros _ Habs. apply app_eq_nil in Habs.
           exact (bresenhamPoints_nonempty from to bp Hbp (proj1 Habs)).
Qed.

(** The tool test binds the state of section 4.3 and draws nothing. *)
Lemma configure_bound (t : Tool) (c : string) (o : float) (g : GL.Context) :
  bound_drawState (configure t c o g) = spec_drawState t c o
  /\ GL.stamps (GL.framebuffer (configure t c o g))
     = GL.stamps (GL.framebuffer g).
Proof.
  unfold configure, spec_drawState.
  destruct t; try destruct (hexToRgb c) as [[r gc] b]; split; reflexivity.
Qed.

Lemma stroke_exact (ratio : float) (s : Stroke) (g : GL.Context) :
  Forall roundable (points s) ->
  exists group g',
    stroke true ratio s g = Some g'
    /\ GL.stamps (GL.framebuffer g') = GL.stamps (GL.framebuffer g) ++ group
    /\ replayed_group ratio s group
    /\ (points s <> [] -> bound_drawState g' = derived_drawState s).
Proof.
  intros Hr. unfold replayed_group, stroke, stroke_centres.
  destruct (configure_bound (tool s) (color s) (opacity s) g) as [Hb Hs].
  fold (derived_drawState s) in Hb.
  destruct (points s) as [| p [| q rest]] eqn:Hpts.
  - exists [], g. simpl. rewrite app_nil_r.
    split; [ reflexivity | split; [ reflexivity | split ] ].
    + exists []. split; [ reflexivity | split; [ congruence | reflexivity ] ].
    + congruence.
  - change (List.length [p] =? 0)%nat with false. cbv iota zeta.
    eexists. eexists.
    split; [ reflexivity | split; [ | split ] ].
    + cbn [stamp GL.drawFan GL.framebuffer GL.stamps]. rewrite Hs.
      reflexivity.
    + exists [p]. split; [ reflexivity | split; [ discriminate | ] ].
      cbn [map]. unfold stamp_under. rewrite <- Hb. reflexivity.
    + intros _. rewrite <- Hb. reflexivity.
  - change (List.length (p :: q :: rest) =? 0)%nat with false. cbv iota zeta.
    destruct (segments_exact (lineWidth s * ratio)%float (p :: q :: rest) Hr
                (configure (tool s) (color s) (opacity s) g))
      as (cs & g' & Hcs & Hseg & Hb' & Hs' & Hne).
    exists (map (stamp_under (derived_drawState s)
                             (lineWidth s * ratio / 2)%float) cs), g'.
    split; [ exact Hseg | split; [ | split ] ].
    + rewrite Hs', Hs, Hb. reflexivity.
    + exists cs. split; [ exact Hcs | split; [ | reflexivity ] ].
      intros _. apply Hne. simpl. lia.
    + intros _. rewrite Hb'. exact Hb.
Qed.

Lemma strokes_exact (ratio : float) (l : list Stroke) :
  Forall (fun s => Forall roundable (points s)) l ->
  forall g : GL.Context,
    exists groups g',
      strokes true ratio l g = Some g'
      /\ GL.stamps (GL.framebuffer g')
         = GL.stamps (GL.framebuffer g) ++ List.concat groups
      /\ Forall2 (replayed_group ratio) l groups.
Proof.
  induction l as [| s tl IH]; intros Hr g.
  - exists [], g. simpl. rewrite app_nil_r.
    split; [ reflexivity | split; [ reflexivity | constructor ] ].
  - inversion Hr as [| ? ? Hs Htl]; subst.
    destruct (stroke_exact ratio s g Hs) as (group & g1 & H1 & Hs1 & Hg1 & _).
    destruct (IH Htl g1) as (groups & g' & H2 & Hs2 & Hg2).
    exists (group :: groups), g'. cbn [strokes List.concat]. rewrite H1.
    split; [ exact H2 | split; [ | constructor; assumption ] ].
    rewrite Hs2, Hs1, app_assoc. reflexivity.
Qed.

Lemma redrawCanvas_exact (st : State) (gl : GL.Context) :
  history_inv st -> glRef st = Some gl -> gl_ready st ->
  Forall (fun s => Forall roundable (points s)) (activeStrokes st) ->
  exists st' gl' groups,
    redrawCanvas st = Some st'
    /\ glRef st' = Some gl'
    /\ GL.stamps (GL.framebuffer gl') = List.concat groups
    /\ Forall2 (replayed_group (pixelRatioRef st)) (activeStrokes st) groups.
Proof.
  intros Hinv Hgl (Hp & Hb & Hc & Ha) Hr.
  rewrite (redrawCanvas_ctx st gl Hgl Hc Ha), Hp, Hb. cbn [andb].
  rewrite slice_prefix by exact Hinv.
  fold (activeCount st). fold (entries st). fold (activeStrokes st).
  destruct (strokes_exact (pixelRatioRef st) (activeStrokes st) Hr
              (GL.clear (GL.clearColor 1%float 1%float 1%float 1%float gl)))
    as (groups & g' & Hrun & Hs & Hg).
  rewrite Hrun. cbn [option_map].
  exists (set_glRef (Some g') st), g', groups.
  split; [ reflexivity | split; [ reflexivity | split; [ exact Hs | exact Hg ] ] ].
Qed.

Lemma replayStroke_exact (stroke : Stroke) (st : State) (gl : GL.Context) :
  glRef st = Some gl -> gl_ready st ->
  Forall roundable (points stroke) ->
  exists st' gl' group,
    replayStroke stroke st = Some st'
    /\ glRef st' = Some gl'
    /\ GL.stamps (GL.framebuffer gl') = GL.stamps (GL.framebuffer gl) ++ group
    /\ replayed_group (pixelRatioRef st) stroke group
    /\ (points stroke <> [] -> bound_drawState gl' = derived_drawState stroke).
Proof.
  intros Hgl (Hp & Hb & _ & _) Hr.
  rewrite (replayStroke_ctx stroke st gl Hgl), Hp, Hb. cbn [andb].
  destruct (stroke_exact (pixelRatioRef st) stroke gl Hr)
    as (group & g' & Hrun & Hs & Hg & Hbound).
  rewrite Hrun. cbn [option_map].
  exists (set_glRef (Some g') st), g', group.
  split; [ reflexivity | split; [ reflexivity | ] ].
  split; [ exact Hs | split; [ exact Hg | exact Hbound ] ].
Qed.

(** One live segment: the selected tool's state is bound and one stamp per
    pixel of the segment is composited under it. *)
Lemma drawLine_exact (from to : Point float) (st : State) (gl : GL.Context) :
  glRef st = Some gl -> gl_ready st -> roundable from -> roundable to ->
  let ds := spec_drawState (selectedTool st) (selectedColor st) (live_opacity st) in
  exists st' gl' bp,
    drawLine from to st = Some st'
    /\ st' = set_glRef (Some gl') st
    /\ bresenhamPoints from to = Some bp /\ bp <> []
    /\ bound_drawState gl' = ds
    /\ GL.stamps (GL.framebuffer gl')
       = GL.stamps (GL.framebuffer gl)
           ++ map (stamp_under ds (size st * pixelRatioRef st / 2)%float) bp.
Proof.
  intros Hgl Hready Hfrom Hto ds.
  rewrite (drawLine_ctx from to st gl Hgl Hready). unfold line.
  destruct (bresenhamPoints_total from to Hfrom Hto) as [bp Hbp].
  rewrite Hbp. cbn [option_map].
  destruct (configure_bound (selectedTool st) (selectedColor st)
              (live_opacity st) gl) as [Hb Hs].
  destruct (stamp_all_exact (size st * pixelRatioRef st / 2)%float bp
              (configure (selectedTool st) (selectedColor st)
                 (live_opacity st) gl)) as [Hb1 Hs1].
  eexists. eexists. exists bp.
  split; [ reflexivity | split; [ reflexivity | split; [ reflexivity | ] ] ].
  split; [ exact (bresenhamPoints_nonempty from to bp Hbp) | split ].
  - rewrite Hb1. exact Hb.
  - rewrite Hs1, Hs, Hb. reflexivity.
Qed.

(** The stroke a release commits derives the draw state that the live
    drawing derives from the selection. *)
Lemma newStroke_drawState (st : State) :
  derived_drawState (newStroke st)
  = spec_drawState (selectedTool st) (selectedColor st) (live_opacity st).
Proof.
  unfold derived_drawState, newStroke, live_opacity.
  cbn [tool color opacity].
  destruct (selectedTool st); reflexivity.
Qed.

Lemma highlighter_drawState (c : string) (o : float) :
  spec_drawState highlighter c o
  = mkDrawState (GL.ONE, GL.ONE_MINUS_SRC_ALPHA)
                (premultiplied c (o / 100 * tenth)%float)
                (o / 100 * tenth)%float.
Proof.
  unfold spec_drawState, premultiplied.
  destruct (hexToRgb c) as [[r g] b]. reflexivity.
Qed.

(** C4. For every stroke replayed by the full redraw, the draw state is the
    one derived from that stroke's own tool, colour and opacity: Pen is
    [(SRC_ALPHA, ONE_MINUS_SRC_ALPHA)], the stroke colour, alpha
    [opacity/100]; Highlighter is [(ONE, ONE_MINUS_SRC_ALPHA)], alpha
    [(opacity/100) * 0.1], each channel multiplied by that alpha; Eraser is
    [(SRC_ALPHA, ONE_MINUS_SRC_ALPHA)], white, alpha 1.  On a canvas whose
    GL objects are there, with points that round to pixels and radii for
    which the vertex loop ends, the redraw returns
    and the colour buffer then holds, for each active stroke in order,
    exactly one stamp per centre of that stroke (at least one when it has a
    point), every one composited under that stroke's derived state; and the
    replay of one stroke that has a point returns, adds exactly that group
    and leaves that state bound. *)
Theorem redraw_uses_stroke_own_drawState :
  (forall (st : State) (gl : GL.Context),
      history_inv st ->
      glRef st = Some gl -> gl_ready st ->
      Forall (fun stroke => Forall roundable (points stroke)) (activeStrokes st) ->
      Forall (fun stroke =>
                Fan.drawable (lineWidth stroke * pixelRatioRef st / 2)%float)
             (activeStrokes st) ->
      exists st' gl' groups,
        redrawCanvas st = Some st'
        /\ glRef st' = Some gl'
        /\ GL.stamps (GL.framebuffer gl') = List.concat groups
        /\ Forall2
             (fun stroke group =>
                exists cs,
                  stroke_centres stroke = Some cs
                  /\ (points stroke <> [] -> cs <> [])
                  /\ group
                     = map (stamp_under
                              (spec_drawState (tool stroke) (color stroke)
                                              (opacity stroke))
                              (lineWidth stroke * pixelRatioRef st / 2)%float)
                           cs)
             (activeStrokes st) groups)
  /\ (forall (stroke : Stroke) (st : State) (gl : GL.Context),
         glRef st = Some gl -> gl_ready st ->
         points stroke <> [] -> Forall roundable (points stroke) ->
         Fan.drawable (lineWidth stroke * pixelRatioRef st / 2)%float ->
         exists st' gl' cs,
           replayStroke stroke st = Some st'
           /\ glRef st' = Some gl'
           /\ bound_drawState gl'
              = spec_drawState (tool stroke) (color stroke) (opacity stroke)
           /\ stroke_centres stroke = Some cs /\ cs <> []
           /\ GL.stamps (GL.framebuffer gl')
              = GL.stamps (GL.framebuffer gl)
                  ++ map (stamp_under
                            (spec_drawState (tool stroke) (color stroke)
                                            (opacity stroke))
                            (lineWidth stroke * pixelRatioRef st / 2)%float)
                         cs).
Proof.
  split.
  - intros st gl Hinv Hgl Hready Hr _.
    destruct (redrawCanvas_exact st gl Hinv Hgl Hready Hr)
      as (st' & gl' & groups & Hrun & Hgl' & Hs & Hg).
    exists st', gl', groups.
    split; [ exact Hrun | split; [ exact Hgl' | split; [ exact Hs | exact Hg ] ] ].
  - intros stroke st gl Hgl Hready Hne Hr _.
    destruct (replayStroke_exact stroke st gl Hgl Hready Hr)
      as (st' & gl' & group & Hrun & Hgl' & Hs & (cs & Hcs & Hcne & Hgroup) & Hb).
    exists st', gl', cs.
    split; [ exact Hrun | split; [ exact Hgl' | split; [ exact (Hb Hne) | ] ] ].
    split; [ exact Hcs | split; [ exact (Hcne Hne) | ] ].
    rewrite Hs, Hgroup. reflexivity.
Qed.

Lemma redraw_uses_stroke_own_drawState_witness :
  exists st' gl' groups,
    redrawCanvas Demo.painted = Some st'
    /\ glRef st' = Some gl'
    /\ GL.stamps (GL.framebuffer gl') = List.concat groups
    /\ Forall2
         (fun stroke group =>
            exists cs,
              stroke_centres stroke = Some cs
              /\ (points stroke <> [] -> cs <> [])
              /\ group
                 = map (stamp_under
                          (spec_drawState (tool stroke) (color stroke)
                                          (opacity stroke))
                          (lineWidth stroke * pixelRatioRef Demo.painted / 2)%float)
                       cs)
         (activeStrokes Demo.painted) groups.
Proof.
  assert (Hgl : exists gl, glRef Demo.painted = Some gl)
    by (eexists; reflexivity).
  destruct Hgl as [gl Hgl].
  apply (proj1 redraw_uses_stroke_own_drawState Demo.painted gl).
  - unfold history_inv. vm_compute. split; discriminate.
  - exact Hgl.
  - repeat split.
  - repeat constructor; vm_compute; discriminate.
  - repeat constructor; vm_compute; discriminate.
Defined.

(** C5. For every integer opacity in [0, 100] the effective highlighter
    alpha is [(opacity/100) * 0.1]; it never exceeds 0.1, is exactly 0.1 at
    opacity 100 and 0 at opacity 0.  On a canvas whose GL objects are
    there, with points that round to pixels and radii for which the vertex
    loop ends, the redraw returns and every stamp it
    composites for a highlighter stroke of that opacity (one per centre of
    the stroke, at least one when it has a point) carries that alpha and
    the stroke colour with each channel multiplied by it; and a live
    highlighter segment at that opacity returns, submits that alpha and
    that premultiplied colour, and composites one stamp per pixel of the
    segment under them. *)
Theorem highlighter_density_cap (n : Z) :
  0 <= n <= 100 ->
  let o := number_of_Z n in
  let a := (o / 100 * tenth)%float in
  (a <=? tenth)%float = true
  /\ (n = 100 -> a = tenth)
  /\ (n = 0 -> a = 0%float)
  /\ (forall (st : State) (gl : GL.Context),
         history_inv st -> glRef st = Some gl -> gl_ready st ->
         Forall (fun stroke => Forall roundable (points stroke))
                (activeStrokes st) ->
         Forall (fun stroke =>
                   Fan.drawable (lineWidth stroke * pixelRatioRef st / 2)%float)
                (activeStrokes st) ->
         exists st' gl' groups,
           redrawCanvas st = Some st'
           /\ glRef st' = Some gl'
           /\ GL.stamps (GL.framebuffer gl') = List.concat groups
           /\ Forall2
                (fun stroke group =>
                   exists cs,
                     stroke_centres stroke = Some cs
                     /\ map GL.stamp_center group = cs
                     /\ (tool stroke = highlighter -> opacity stroke = o ->
                         (points stroke <> [] -> group <> [])
                         /\ Forall
                              (fun s =>
                                 GL.stamp_alpha s = a
                                 /\ GL.stamp_color s
                                    = premultiplied (color stroke) a)
                              group))
                (activeStrokes st) groups)
  /\ (forall (from to : Point float) (st : State) (gl : GL.Context),
         selectedTool st = highlighter -> highlighterOpacity st = o ->
         glRef st = Some gl -> gl_ready st ->
         roundable from -> roundable to ->
         Fan.drawable (size st * pixelRatioRef st / 2)%float ->
         exists st' gl' bp new,
           drawLine from to st = Some st'
           /\ glRef st' = Some gl'
           /\ GL.u_alpha gl' = a
           /\ GL.u_color gl' = premultiplied (selectedColor st) a
           /\ GL.stamps (GL.framebuffer gl')
              = GL.stamps (GL.framebuffer gl) ++ new
           /\ bresenhamPoints from to = Some bp /\ bp <> []
           /\ map GL.stamp_center new = bp
           /\ Forall (fun s => GL.stamp_alpha s = a
                               /\ GL.stamp_color s
                                  = premultiplied (selectedColor st) a) new).
Proof.
  intros Hn o a.
  split; [ apply highlighter_alpha_le, Hn | ].
  split; [ intros ->; reflexivity | ].
  split; [ intros ->; reflexivity | ].
  split.
  - intros st gl Hinv Hgl Hready Hr _.
    destruct (redrawCanvas_exact st gl Hinv Hgl Hready Hr)
      as (st' & gl' & groups & Hrun & Hgl' & Hs & Hg).
    exists st', gl', groups.
    split; [ exact Hrun | split; [ exact Hgl' | split; [ exact Hs | ] ] ].
    eapply Forall2_impl; [ | exact Hg ].
    intros stroke group (cs & Hcs & Hcne & Hgroup).
    exists cs. split; [ exact Hcs | split ].
    + rewrite Hgroup, map_map. cbn [stamp_under GL.stamp_center].
      apply map_id.
    + intros Ht Ho. split.
      * intros Hne Habs. rewrite Hgroup in Habs.
        apply map_eq_nil in Habs. exact (Hcne Hne Habs).
      * rewrite Hgroup. apply Forall_map, Forall_forall. intros c _.
        unfold derived_drawState. rewrite Ht, Ho, highlighter_drawState.
        split; reflexivity.
  - intros from to st gl Ht Ho Hgl Hready Hfrom Hto _.
    destruct (drawLine_exact from to st gl Hgl Hready Hfrom Hto)
      as (st' & gl' & bp & Hrun & Hst' & Hbp & Hne & Hb & Hs).
    unfold live_opacity in Hb, Hs. rewrite Ht, Ho in Hb, Hs.
    rewrite highlighter_drawState in Hb, Hs. fold a in Hb, Hs.
    unfold bound_drawState in Hb. injection Hb as _ Hcol Halpha.
    exists st', gl', bp.
    eexists.
    split; [ exact Hrun | split; [ rewrite Hst'; reflexivity | ] ].
    split; [ exact Halpha | split; [ exact Hcol | split; [ exact Hs | ] ] ].
    split; [ exact Hbp | split; [ exact Hne | split ] ].
    + rewrite map_map. cbn [stamp_under GL.stamp_center]. apply map_id.
    + apply Forall_map, Forall_forall. intros c _. split; reflexivity.
Qed.

Lemma highlighter_density_cap_witness :
  (exists st' gl' groups,
      redrawCanvas Demo.painted = Some st'
      /\ glRef st' = Some gl'
      /\ GL.stamps (GL.framebuffer gl') = List.concat groups
      /\ Forall2
           (fun stroke group =>
              exists cs,
                stroke_centres stroke = Some cs
                /\ map GL.stamp_center group = cs
                /\ (tool stroke = highlighter ->
                    opacity stroke = number_of_Z 100 ->
                    (points stroke <> [] -> group <> [])
                    /\ Forall
                         (fun s =>
                            GL.stamp_alpha s
                            = (number_of_Z 100 / 100 * tenth)%float
                            /\ GL.stamp_color s
                               = premultiplied (color stroke)
                                   (number_of_Z 100 / 100 * tenth)%float)
                         group))
           (activeStrokes Demo.painted) groups)
  /\ (exists st' gl' bp new,
         drawLine (mkPoint 0%float 0%float) (mkPoint 3%float 1%float)
                  Demo.highlighting = Some st'
         /\ glRef st' = Some gl'
         /\ GL.u_alpha gl' = (number_of_Z 100 / 100 * tenth)%float
         /\ GL.u_color gl'
            = premultiplied (selectedColor Demo.highlighting)
                (number_of_Z 100 / 100 * tenth)%float
         /\ GL.stamps (GL.framebuffer gl')
            = GL.stamps (GL.framebuffer
                           (GL.clear (GL.clearColor 1%float 1%float 1%float 1%float
                              (GL.uniform1f 1%float
                                 (GL.uniform3f 0%float 0%float 0%float
                                    (GL.blendFunc GL.SRC_ALPHA
                                       GL.ONE_MINUS_SRC_ALPHA GL.fresh))))))
                ++ new
         /\ bresenhamPoints (mkPoint 0%float 0%float) (mkPoint 3%float 1%float)
            = Some bp
         /\ bp <> []
         /\ map GL.stamp_center new = bp
         /\ Forall (fun s => GL.stamp_alpha s
                             = (number_of_Z 100 / 100 * tenth)%float
                             /\ GL.stamp_color s
                                = premultiplied (selectedColor Demo.highlighting)
                                    (number_of_Z 100 / 100 * tenth)%float) new).
Proof.
  assert (Hn : 0 <= 100 <= 100) by lia.
  destruct (highlighter_density_cap 100 Hn) as (_ & _ & _ & Hreplay & Hlive).
  split.
  - assert (Hgl : exists gl, glRef Demo.painted = Some gl)
      by (eexists; reflexivity).
    destruct Hgl as [gl Hgl].
    apply (Hreplay Demo.painted gl).
    + unfold history_inv. vm_compute. split; discriminate.
    + exact Hgl.
    + repeat split.
    + repeat constructor; vm_compute; discriminate.
    + repeat constructor; vm_compute; discriminate.
  - apply (Hlive (mkPoint 0%float 0%float) (mkPoint 3%float 1%float)
                 Demo.highlighting).
    + reflexivity.
    + reflexivity.
    + reflexivity.
    + repeat split.
    + split; vm_compute; discriminate.
    + split; vm_compute; discriminate.
    + vm_compute. discriminate.
Defined.

(** What a release keeps of the state. *)
Lemma handlePointerUp_keeps (st : State) :
  glRef (handlePointerUp st) = glRef st
  /\ programRef (handlePointerUp st) = programRef st
  /\ positionBufferRef (handlePointerUp st) = positionBufferRef st
  /\ colorLocationRef (handlePointerUp st) = colorLocationRef st
  /\ alphaLocationRef (handlePointerUp st) = alphaLocationRef st
  /\ pixelRatioRef (handlePointerUp st) = pixelRatioRef st.
Proof.
  unfold handlePointerUp.
  destruct (0 <? List.length (currentStrokeRef (set_isDrawingRef false st)))%nat;
    repeat split.
Qed.

(** The stroke that a release commits is replayed, by the redraw that
    follows the release, under the very draw state and radius that
    [drawLine] used while it was being drawn (on a canvas whose GL objects
    are there, with points that round to pixels and radii for which the
    vertex loop ends): the live segment and the
    replayed stroke are both stamped, one stamp per pixel, under the state
    [drawLine] binds, after the stamps of the earlier active strokes, and
    that state is the one left bound by the redraw. *)
Theorem committed_stroke_replays_live_state (st : State) (gl : GL.Context)
    (from to : Point float) :
  history_inv st -> glRef st = Some gl -> gl_ready st ->
  currentStrokeRef st <> [] -> Forall roundable (currentStrokeRef st) ->
  Forall (fun stroke => Forall roundable (points stroke)) (activeStrokes st) ->
  Forall (fun stroke =>
            Fan.drawable (lineWidth stroke * pixelRatioRef st / 2)%float)
         (activeStrokes st) ->
  Fan.drawable (size st * pixelRatioRef st / 2)%float ->
  roundable from -> roundable to ->
  exists live gl_live bp st' gl' groups cs,
    drawLine from to st = Some live
    /\ glRef live = Some gl_live
    /\ bresenhamPoints from to = Some bp /\ bp <> []
    /\ GL.stamps (GL.framebuffer gl_live)
       = GL.stamps (GL.framebuffer gl)
           ++ map (stamp_under (bound_drawState gl_live)
                               (size st * pixelRatioRef st / 2)%float) bp
    /\ dispatch PointerUp st = Some st'
    /\ glRef st' = Some gl'
    /\ entries st' = activeStrokes st ++ [newStroke st]
    /\ stroke_centres (newStroke st) = Some cs /\ cs <> []
    /\ Forall2 (replayed_group (pixelRatioRef st)) (activeStrokes st) groups
    /\ GL.stamps (GL.framebuffer gl')
       = List.concat groups
           ++ map (stamp_under (bound_drawState gl_live)
                               (size st * pixelRatioRef st / 2)%float) cs
    /\ bound_drawState gl' = bound_drawState gl_live.
Proof.
  intros Hinv Hgl Hready Hbuf Hrbuf Hract _ _ Hfrom Hto.
  destruct (drawLine_exact from to st gl Hgl Hready Hfrom Hto)
    as (live & gl_live & bp & Hlive & Hst_live & Hbp & Hbne & Hblive & Hslive).
  destruct (handlePointerUp_keeps st) as (Kgl & Kp & Kb & Kc & Ka & Kr).
  destruct (handlePointerUp_append st Hinv Hbuf) as (Hent & _ & Hact).
  assert (Hinv' : history_inv (handlePointerUp st))
    by (apply handlePointerUp_inv; exact Hinv).
  destruct Hready as (Hp & Hb & Hc & Ha).
  assert (Hdisp : dispatch PointerUp st = redrawCanvas (handlePointerUp st)).
  { cbn [dispatch].
    destruct (currentStrokeRef st) as [| p rest]; [ congruence | ].
    cbn [List.length Nat.ltb Nat.leb]. unfold redrawEffect.
    rewrite Kgl, Hgl, Kc, Hc. reflexivity. }
  rewrite Hdisp.
  rewrite (redrawCanvas_ctx (handlePointerUp st) gl)
    by (rewrite ?Kgl, ?Kc, ?Ka; assumption).
  rewrite Kp, Kb, Kr, Hp, Hb. cbn [andb].
  rewrite slice_prefix by exact Hinv'.
  fold (activeCount (handlePointerUp st)). fold (entries (handlePointerUp st)).
  fold (activeStrokes (handlePointerUp st)).
  rewrite Hact, Hent, strokes_app.
  destruct (strokes_exact (pixelRatioRef st) (activeStrokes st) Hract
              (GL.clear (GL.clearColor 1%float 1%float 1%float 1%float gl)))
    as (groups & g1 & Hrun1 & Hs1 & Hg1).
  rewrite Hrun1.
  assert (Hrnew : Forall roundable (points (newStroke st))) by exact Hrbuf.
  destruct (stroke_exact (pixelRatioRef st) (newStroke st) g1 Hrnew)
    as (group & g2 & Hrun2 & Hs2 & (cs & Hcs & Hcne & Hgroup) & Hb2).
  assert (Hpts : points (newStroke st) <> []) by exact Hbuf.
  cbn [strokes]. rewrite Hrun2. cbn [option_map].
  exists live, gl_live, bp.
  exists (set_glRef (Some g2) (handlePointerUp st)), g2, groups, cs.
  split; [ exact Hlive | split; [ rewrite Hst_live; reflexivity | ] ].
  split; [ exact Hbp | split; [ exact Hbne | ] ].
  split; [ rewrite Hblive; exact Hslive | ].
  split; [ reflexivity | split; [ reflexivity | ] ].
  split; [ exact Hent | split; [ exact Hcs | split; [ exact (Hcne Hpts) | ] ] ].
  split; [ exact Hg1 | ].
  rewrite Hblive, <- newStroke_drawState.
  split; [ | exact (Hb2 Hpts) ].
  rewrite Hs2, Hs1, Hgroup. reflexivity.
Qed.

Lemma committed_stroke_replays_live_state_witness :
  exists live gl_live bp st' gl' cs,
    drawLine (mkPoint 0%float 0%float) (mkPoint 3%float 1%float)
             Demo.highlighting = Some live
    /\ glRef live = Some gl_live
    /\ bresenhamPoints (mkPoint 0%float 0%float) (mkPoint 3%float 1%float)
       = Some bp
    /\ dispatch PointerUp Demo.highlighting = Some st'
    /\ glRef st' = Some gl'
    /\ stroke_centres (newStroke Demo.highlighting) = Some cs
    /\ GL.stamps (GL.framebuffer gl')
       = map (stamp_under (bound_drawState gl_live)
                (size Demo.highlighting * pixelRatioRef Demo.highlighting / 2)%float)
             cs
    /\ bound_drawState gl' = bound_drawState gl_live.
Proof.
  assert (Hgl : exists gl, glRef Demo.highlighting = Some gl)
    by (eexists; reflexivity).
  destruct Hgl as [gl Hgl].
  destruct (committed_stroke_replays_live_state Demo.highlighting gl
              (mkPoint 0%float 0%float) (mkPoint 3%float 1%float))
    as (live & gl_live & bp & st' & gl' & groups & cs
        & H1 & H2 & H3 & _ & _ & H6 & H7 & _ & H9 & _ & H11 & H12 & H13).
  - unfold history_inv. vm_compute. split; discriminate.
  - exact Hgl.
  - repeat split.
  - discriminate.
  - repeat constructor; vm_compute; discriminate.
  - constructor.
  - constructor.
  - vm_compute. discriminate.
  - split; vm_compute; discriminate.
  - split; vm_compute; discriminate.
  - inversion H11. subst groups.
    exists live, gl_live, bp, st', gl', cs.
    split; [ exact H1 | split; [ exact H2 | split; [ exact H3 | ] ] ].
    split; [ exact H6 | split; [ exact H7 | split; [ exact H9 | ] ] ].
    split; [ exact H12 | exact H13 ].
Defined.
